(** * Background-Remover: pixel algorithms, editor state, command history,
      render engine and worker pool, embedded from the TypeScript sources.

    Conventions of the embedding.
    - A [Uint8ClampedArray] is a [list byte]; reading past the end gives
      [None] (JS [undefined]) and a store past the end is ignored, as for
      every typed array.
    - A JS number that the pixel loops compute on is an [option Z]: the
      integer, or [None] for [NaN] ([undefined] coerces to [NaN]).
    - The filter arithmetic is IEEE binary64, the kernel's [float].
    - Strings are ASCII strings. *)

From Stdlib Require Import ZArith Floats Ascii String.
From Stdlib.Strings Require Import Byte.
From stdpp Require Import gmap strings list.

Open Scope Z_scope.

(* Decimal literals such as 0.299 denote the nearest binary64 value, as in
   JavaScript. *)
Set Warnings "-inexact-float".

(** ** JavaScript numbers and typed arrays *)
Module Js.

(** An integer-valued JS number, [None] standing for [NaN]. *)
Definition num := option Z.

Definition sub (a b : num) : num := x ← a; y ← b; Some (x - y).
Definition add (a b : num) : num := x ← a; y ← b; Some (x + y).
Definition mul (a b : num) : num := x ← a; y ← b; Some (x * y).
(** [a ** 2] *)
Definition sq (a : num) : num := mul a a.

(** [a <= b] and [a > b]: every comparison with [NaN] is false. *)
Definition le (a b : num) : bool :=
  match a, b with Some x, Some y => bool_decide (x ≤ y) | _, _ => false end.
Definition gt (a b : num) : bool :=
  match a, b with Some x, Some y => bool_decide (x > y) | _, _ => false end.

Definition Z_of_byte (b : byte) : Z := Z.of_N (Byte.to_N b).

(** Reading [data[i]]. *)
Definition get (data : list byte) (i : nat) : num := Z_of_byte <$> data !! i.

(** The conversion a [Uint8ClampedArray] store applies to an integer-valued
    number: [NaN] becomes 0, other values are clamped to 0..255. *)
Definition toUint8Clamp (v : num) : byte :=
  match v with
  | None => Byte.x00
  | Some z => default Byte.x00 (Byte.of_N (Z.to_N (Z.max 0 (Z.min 255 z))))
  end.

(** [data[i] = v]; a store past the end does nothing. *)
Definition set (data : list byte) (i : nat) (v : num) : list byte :=
  <[i := toUint8Clamp v]> data.

(** *** [parseInt(s, 16)] *)
Definition hexDigit (c : ascii) : option Z :=
  let n := Z.of_nat (nat_of_ascii c) in
  if bool_decide (48 ≤ n ≤ 57) then Some (n - 48)
  else if bool_decide (65 ≤ n ≤ 70) then Some (n - 55)
  else if bool_decide (97 ≤ n ≤ 102) then Some (n - 87)
  else None.

Definition isWhiteSpace (c : ascii) : bool :=
  let n := nat_of_ascii c in
  bool_decide (n = 9 ∨ n = 10 ∨ n = 11 ∨ n = 12 ∨ n = 13 ∨ n = 32)%nat.

Fixpoint skipWhiteSpace (s : list ascii) : list ascii :=
  match s with
  | c :: s' => if isWhiteSpace c then skipWhiteSpace s' else s
  | [] => []
  end.

(** The longest prefix of hex digits, read as a number; [acc] is [None]
    until a first digit has been seen. *)
Fixpoint hexPrefix (acc : option Z) (s : list ascii) : option Z :=
  match s with
  | c :: s' =>
      match hexDigit c with
      | Some d => hexPrefix (Some (16 * default 0 acc + d)) s'
      | None => acc
      end
  | [] => acc
  end.

Definition stripSign (s : list ascii) : bool * list ascii :=
  match s with
  | "-"%char :: t => (true, t)
  | "+"%char :: t => (false, t)
  | _ => (false, s)
  end.

Definition strip0x (s : list ascii) : list ascii :=
  match s with
  | "0"%char :: "x"%char :: t => t
  | "0"%char :: "X"%char :: t => t
  | _ => s
  end.

Definition parseInt16 (s : string) : num :=
  let '(neg, s2) := stripSign (skipWhiteSpace (list_ascii_of_string s)) in
  v ← hexPrefix None (strip0x s2);
  Some (if neg : bool then - v else v).

(** [s.slice(from, to)] for non-negative literal bounds. *)
Definition slice (s : string) (from to : nat) : string :=
  substring from (to - from) s.

End Js.

(** ** src/lib/imageProcessing.ts *)
Module ImageProcessing.
Import Js.

Definition CHUNK_SIZE : nat := Z.to_nat 50000.

(** *** MODE 2: removeSpecificColor (chroma key) *)
Section ChromaKey.
Variables targetR targetG targetB : num.
Variable toleranceSquared : num.

(** Body of the inner [for (pixel ...)] loop. *)
Definition keyPixel (pixel : nat) (data : list byte) : list byte :=
  let i := (pixel * 4)%nat in
  let r := get data i in
  let g := get data (i + 1) in
  let b := get data (i + 2) in
  let distanceSquared :=
    add (add (sq (sub r targetR)) (sq (sub g targetG))) (sq (sub b targetB)) in
  if le distanceSquared toleranceSquared
  then set data (i + 3) (Some 0)
  else data.

(** The test [distanceSquared <= toleranceSquared] of the inner loop, read
    off the buffer at pixel [q] (used to state what the loop computes). *)
Definition matches (data : list byte) (q : nat) : bool :=
  le (add (add (sq (sub (get data (q * 4)) targetR))
               (sq (sub (get data (q * 4 + 1)) targetG)))
          (sq (sub (get data (q * 4 + 2)) targetB)))
     toleranceSquared.

(** [for (pixel = startPixel; pixel < endPixel; pixel++)], the count
    [endPixel - startPixel] being the recursion measure. *)
Fixpoint keyPixels (count pixel : nat) (data : list byte) : list byte :=
  match count with
  | O => data
  | S count' => keyPixels count' (S pixel) (keyPixel pixel data)
  end.

(** [for (startPixel = 0; startPixel < totalPixels; startPixel += chunk)];
    every iteration advances by [chunk], so [fuel = totalPixels + 1]
    iterations are never exhausted when [chunk > 0]. *)
Fixpoint keyChunks (chunk fuel startPixel totalPixels : nat)
    (data : list byte) : list byte :=
  match fuel with
  | O => data
  | S fuel' =>
      if bool_decide (startPixel < totalPixels)%nat then
        let endPixel := Nat.min (startPixel + chunk) totalPixels in
        keyChunks chunk fuel' (startPixel + chunk) totalPixels
          (keyPixels (endPixel - startPixel) startPixel data)
      else data
  end.
End ChromaKey.

(** The pixel buffer [data] of the decoded file after steps 3 and 4;
    [totalPixels = data.length / 4] ([ImageData] buffers hold four bytes
    per pixel). [tolerance] is an integer, as the UI slider supplies. *)
Definition removeSpecificColor (data : list byte) (targetColor : string)
    (tolerance : Z) : list byte :=
  let targetR := parseInt16 (slice targetColor 1 3) in
  let targetG := parseInt16 (slice targetColor 3 5) in
  let targetB := parseInt16 (slice targetColor 5 7) in
  let toleranceSquared := Some (tolerance * tolerance * 3) in
  let totalPixels := (length data / 4)%nat in
  keyChunks targetR targetG targetB toleranceSquared CHUNK_SIZE
    (S totalPixels) 0 totalPixels data.

(** *** MODE 3: blurBackgroundOnly, step 6 (composite using the mask) *)
Section Composite.
Variables maskData sharpData blurredData : list byte.

Definition compositePixel (pixel : nat) (finalData : list byte) : list byte :=
  let i := (pixel * 4)%nat in
  let alpha := get maskData (i + 3) in
  if gt alpha (Some 128) then
    let f0 := set finalData i (get sharpData i) in
    let f1 := set f0 (i + 1) (get sharpData (i + 1)) in
    let f2 := set f1 (i + 2) (get sharpData (i + 2)) in
    set f2 (i + 3) (Some 255)
  else
    let f0 := set finalData i (get blurredData i) in
    let f1 := set f0 (i + 1) (get blurredData (i + 1)) in
    let f2 := set f1 (i + 2) (get blurredData (i + 2)) in
    set f2 (i + 3) (Some 255).

Fixpoint compositePixels (count pixel : nat) (finalData : list byte) : list byte :=
  match count with
  | O => finalData
  | S count' => compositePixels count' (S pixel) (compositePixel pixel finalData)
  end.

Fixpoint compositeChunks (chunk fuel startPixel totalPixels : nat)
    (finalData : list byte) : list byte :=
  match fuel with
  | O => finalData
  | S fuel' =>
      if bool_decide (startPixel < totalPixels)%nat then
        let endPixel := Nat.min (startPixel + chunk) totalPixels in
        compositeChunks chunk fuel' (startPixel + chunk) totalPixels
          (compositePixels (endPixel - startPixel) startPixel finalData)
      else finalData
  end.
End Composite.

(** [finalData] after step 6. [maskData] is the decoded AI cut-out,
    [sharpData] the original, [blurredData] the original drawn through the
    canvas blur filter; [width], [height] are the original's dimensions and
    [createImageData] returns a zero-filled buffer. *)
Definition blurBackgroundOnly (maskData sharpData blurredData : list byte)
    (width height : nat) : list byte :=
  let finalData := replicate (width * height * 4) Byte.x00 in
  let totalPixels := (length maskData / 4)%nat in
  compositeChunks maskData sharpData blurredData CHUNK_SIZE
    (S totalPixels) 0 totalPixels finalData.

End ImageProcessing.

(** ** IEEE binary64 helpers for the JS [Math] functions the renderer uses *)
Module JsFloat.
Open Scope float_scope.

Definition isNaN (x : float) : bool := negb (PrimFloat.eqb x x).

(** [Math.min(a, b)] and [Math.max(a, b)]: NaN if either argument is. *)
Definition Math_min (a b : float) : float :=
  if isNaN a then a else if isNaN b then b
  else if PrimFloat.ltb b a then b else a.
Definition Math_max (a b : float) : float :=
  if isNaN a then a else if isNaN b then b
  else if PrimFloat.ltb a b then b else a.

(** An integer of magnitude below 2^63 as a float. *)
Definition of_Z (z : Z) : float :=
  match z with
  | Z0 => 0
  | Zpos p => PrimFloat.of_uint63 (Uint63.of_Z (Zpos p))
  | Zneg p => - PrimFloat.of_uint63 (Uint63.of_Z (Zpos p))
  end.

(** The integer nearest to the finite, non-zero value [(-1)^s * m * 2^e];
    [up] decides a tie (on the magnitude, given its integer part). *)
Definition nearest (tie_up : bool → Z → bool) (s : bool) (m : positive) (e : Z) : Z :=
  let mag :=
    if (0 <=? e)%Z then (Zpos m * 2 ^ e)%Z
    else
      let d := (2 ^ (- e))%Z in
      let q := (Zpos m / d)%Z in
      let r := (Zpos m mod d)%Z in
      match (2 * r ?= d)%Z with
      | Lt => q
      | Gt => (q + 1)%Z
      | Eq => if tie_up s q then (q + 1)%Z else q
      end in
  if s then (- mag)%Z else mag.

(** [Math.round(x)]: the nearest integer, a tie going towards +infinity.
    (For x in [-0.5, 0) JS gives -0 where this gives +0.) *)
Definition Math_round (x : float) : float :=
  match Prim2SF x with
  | S754_finite s m e =>
      if (0 <=? e)%Z then x else of_Z (nearest (λ s _, negb s) s m e)
  | _ => x
  end.

(** The conversion a [Uint8ClampedArray] store applies to a number: NaN
    becomes 0, the value is clamped to 0..255 and rounded to the nearest
    integer, a tie going to the even one. *)
Definition toUint8Clamp (x : float) : byte :=
  match Prim2SF x with
  | S754_finite s m e =>
      if s then Byte.x00
      else if PrimFloat.leb 255 x then Byte.xff
      else default Byte.x00
             (Byte.of_N (Z.to_N (nearest (λ _ q, Z.odd q) false m e)))
  | S754_infinity false => Byte.xff
  | _ => Byte.x00
  end.

(** A byte read from a typed array, as a number. *)
Definition of_byte (b : byte) : float := of_Z (Z.of_N (Byte.to_N b)).

End JsFloat.

(** ** EditorState (second document of src/unnamed/part_012) *)
Module EditorState.

(** A value of a [Record<string, any>]: the shapes the sources store. *)
Inductive JsValue :=
| JUndefined
| JNum (x : float)
| JStr (s : string)
| JBool (b : bool)
| JObject (handle : nat).

Abbreviation Params := (gmap string JsValue).

Record TransformMatrix := mkTransform {
  scaleX : float; scaleY : float; rotation : float;
  translateX : float; translateY : float }.

Definition DEFAULT_TRANSFORM : TransformMatrix :=
  mkTransform 1 1 0 0 0.

Inductive LayerType := background | border | subject | sticker | watermark.

Record Layer := mkLayer {
  layer_id : string;
  layer_type : LayerType;
  visible : bool;
  locked : bool;
  transform : TransformMatrix;
  layer_params : Params }.

Inductive EffectType := color_effect | blur_effect | shadow_effect | filter_effect | border_effect.

Record EffectNode := mkEffect {
  effect_id : string;
  effect_type : EffectType;
  effect_params : Params;
  enabled : bool }.

Inductive ProcessingMode :=
| remove_only | remove_color | remove_blur | remove_shadow | remove_border | custom.

Record EditorState := mkState {
  id : string;
  originalImageKey : string;
  alphaMaskKey : option string;
  canvasSize : float * float;
  layers : list Layer;
  effects : list EffectNode;
  processingMode : ProcessingMode;
  previewQuality : float;
  exportQuality : float }.

(** [{ ...state, effects }] and [{ ...state, layers }] *)
Definition with_effects (state : EditorState) (es : list EffectNode) : EditorState :=
  mkState (id state) (originalImageKey state) (alphaMaskKey state) (canvasSize state)
    (layers state) es (processingMode state) (previewQuality state) (exportQuality state).
Definition with_layers (state : EditorState) (ls : list Layer) : EditorState :=
  mkState (id state) (originalImageKey state) (alphaMaskKey state) (canvasSize state)
    ls (effects state) (processingMode state) (previewQuality state) (exportQuality state).

(** [{ ...e, params }], [{ ...e, enabled }] and the like *)
Definition with_effect_params (e : EffectNode) (p : Params) : EffectNode :=
  mkEffect (effect_id e) (effect_type e) p (enabled e).
Definition with_enabled (e : EffectNode) (b : bool) : EffectNode :=
  mkEffect (effect_id e) (effect_type e) (effect_params e) b.
Definition with_layer_params (l : Layer) (p : Params) : Layer :=
  mkLayer (layer_id l) (layer_type l) (visible l) (locked l) (transform l) p.
Definition with_visible (l : Layer) (b : bool) : Layer :=
  mkLayer (layer_id l) (layer_type l) b (locked l) (transform l) (layer_params l).
Definition with_transform (l : Layer) (t : TransformMatrix) : Layer :=
  mkLayer (layer_id l) (layer_type l) (visible l) (locked l) t (layer_params l).

Definition createDefaultEditorState (id imageKey : string) : EditorState :=
  mkState id imageKey None (0%float, 0%float)
    [ mkLayer "bg" background true false DEFAULT_TRANSFORM {[ "color" := JStr "#ffffff" ]};
      mkLayer "border" border false false DEFAULT_TRANSFORM ∅;
      mkLayer "subject" subject true false DEFAULT_TRANSFORM ∅ ]
    [] remove_only 800%float 1%float.

(** *** State helpers of the auto-processor (src/lib/deviceDetection.ts,
        lines 200-253) *)

(** [{ ...e.params, ...newParams }]: the new entries win. *)
Definition updateEffect (state : EditorState) (effectId : string)
    (newParams : Params) : EditorState :=
  with_effects state
    (map (λ e, if decide (effect_id e = effectId)
               then with_effect_params e (newParams ∪ effect_params e) else e)
         (effects state)).

Definition toggleEffect (state : EditorState) (effectId : string) : EditorState :=
  with_effects state
    (map (λ e, if decide (effect_id e = effectId)
               then with_enabled e (negb (enabled e)) else e)
         (effects state)).

(** [uuid] is the identifier [uuidv4()] returns. *)
Definition addEffect (uuid : string) (state : EditorState) (type : EffectType)
    (params : Params) : EditorState :=
  with_effects state (effects state ++ [mkEffect uuid type params true]).

Definition removeEffect (state : EditorState) (effectId : string) : EditorState :=
  with_effects state
    (filter (λ e, effect_id e ≠ effectId) (effects state)).

End EditorState.

(** ** CommandHistory (first document of src/unnamed/part_012) *)
Module CommandHistory.
Import EditorState.

Inductive CommandType :=
| SET_EFFECT | ADD_EFFECT | REMOVE_EFFECT | TOGGLE_EFFECT | SET_LAYER
| ADD_LAYER | REMOVE_LAYER | TOGGLE_LAYER | SET_BACKGROUND | SET_TRANSFORM.

(** The payload values are [any] in the source; [applyCommand] stores them
    into typed fields, so a command carries values of the shape its type
    stores. The three types [applyCommand] has no case for carry a layer,
    a layer and parameters. *)
Definition valueTy (t : CommandType) : Type :=
  match t with
  | SET_EFFECT | SET_LAYER | SET_BACKGROUND => Params
  | ADD_EFFECT | REMOVE_EFFECT => EffectNode
  | TOGGLE_EFFECT | TOGGLE_LAYER => bool
  | SET_TRANSFORM => TransformMatrix
  | ADD_LAYER | REMOVE_LAYER => Layer
  end.

Record Payload (t : CommandType) := mkPayload {
  targetId : string;
  prevValue : valueTy t;
  newValue : valueTy t }.
Arguments mkPayload {t} _ _ _.
Arguments targetId {t} _.
Arguments prevValue {t} _.
Arguments newValue {t} _.

Record Command := mkCommand {
  type : CommandType;
  timestamp : Z;
  payload : Payload type }.

(** [now] is what [Date.now()] returns. *)
Definition createCommand (now : Z) (type : CommandType) (targetId : string)
    (prevValue newValue : valueTy type) : Command :=
  mkCommand type now (mkPayload targetId prevValue newValue).

(** [reverse ? command.payload.prevValue : command.payload.newValue] *)
Definition value {t} (p : Payload t) (reverse : bool) : valueTy t :=
  if reverse then prevValue p else newValue p.

Definition applyCommand (state : EditorState) (command : Command)
    (reverse : bool) : EditorState :=
  match command with
  | mkCommand SET_EFFECT _ p =>
      with_effects state
        (map (λ e, if decide (effect_id e = targetId p)
                   then with_effect_params e (value p reverse) else e)
             (effects state))
  | mkCommand ADD_EFFECT _ p =>
      if reverse
      then with_effects state
             (filter (λ e, effect_id e ≠ targetId p) (effects state))
      else with_effects state (effects state ++ [value p reverse])
  | mkCommand REMOVE_EFFECT _ p =>
      if reverse
      then with_effects state (effects state ++ [value p reverse])
      else with_effects state
             (filter (λ e, effect_id e ≠ targetId p) (effects state))
  | mkCommand TOGGLE_EFFECT _ p =>
      with_effects state
        (map (λ e, if decide (effect_id e = targetId p)
                   then with_enabled e (value p reverse) else e)
             (effects state))
  | mkCommand SET_LAYER _ p =>
      with_layers state
        (map (λ l, if decide (layer_id l = targetId p)
                   then with_layer_params l (value p reverse) else l)
             (layers state))
  | mkCommand TOGGLE_LAYER _ p =>
      with_layers state
        (map (λ l, if decide (layer_id l = targetId p)
                   then with_visible l (value p reverse) else l)
             (layers state))
  | mkCommand SET_TRANSFORM _ p =>
      with_layers state
        (map (λ l, if decide (layer_id l = targetId p)
                   then with_transform l (value p reverse) else l)
             (layers state))
  | mkCommand _ _ _ => state
  end.

(** [a.slice(0, end)] on an array. *)
Definition slice0 {A} (a : list A) (end_ : Z) : list A :=
  let len := Z.of_nat (length a) in
  let final := if (end_ <? 0)%Z then Z.max (len + end_) 0 else Z.min end_ len in
  take (Z.to_nat final) a.

Record History := mkHistory {
  commands : list Command;
  currentIndex : Z;
  maxHistory : Z }.

(** [new CommandHistory()] *)
Definition empty : History := mkHistory [] (-1) 50.

Definition canUndo (h : History) : bool := bool_decide (currentIndex h >= 0).

Definition canRedo (h : History) : bool :=
  bool_decide (currentIndex h < Z.of_nat (length (commands h)) - 1).

Section WithApplied.
(** The state the [applyFn] callback closes over. *)
Context {S : Type}.

Definition execute (h : History) (command : Command)
    (applyFn : Command → S → S) (st : S) : History * S :=
  let commands1 :=
    if bool_decide (currentIndex h < Z.of_nat (length (commands h)) - 1)
    then slice0 (commands h) (currentIndex h + 1)
    else commands h in
  let commands2 := commands1 ++ [command] in
  let index2 := currentIndex h + 1 in
  let h3 :=
    if bool_decide (Z.of_nat (length commands2) > maxHistory h)
    then mkHistory (tail commands2) (index2 - 1) (maxHistory h)
    else mkHistory commands2 index2 (maxHistory h) in
  (h3, applyFn command st).

(** [this.commands[this.currentIndex]]; [None] is [undefined], which the
    callback would be handed if the index were outside the array. *)
Definition current (h : History) : option Command :=
  if bool_decide (0 ≤ currentIndex h) then commands h !! Z.to_nat (currentIndex h)
  else None.

Definition undo (h : History) (applyFn : option Command → bool → S → S)
    (st : S) : bool * History * S :=
  if negb (canUndo h) then (false, h, st)
  else
    let command := current h in
    let st' := applyFn command true st in
    (true, mkHistory (commands h) (currentIndex h - 1) (maxHistory h), st').

Definition redo (h : History) (applyFn : option Command → bool → S → S)
    (st : S) : bool * History * S :=
  if negb (canRedo h) then (false, h, st)
  else
    let h' := mkHistory (commands h) (currentIndex h + 1) (maxHistory h) in
    let command := current h' in
    (true, h', applyFn command false st).

Definition clear (h : History) : History := mkHistory [] (-1) (maxHistory h).

Definition getHistory (h : History) : list Command := commands h.
End WithApplied.

(** The histories a program can build: the fields are private. *)
Inductive reachable : History → Prop :=
| reach_new : reachable empty
| reach_execute h c : reachable h → reachable (execute h c (λ _ (u : unit), u) tt).1
| reach_undo h : reachable h → reachable (undo h (λ _ _ (u : unit), u) tt).1.2
| reach_redo h : reachable h → reachable (redo h (λ _ _ (u : unit), u) tt).1.2
| reach_clear h : reachable h → reachable (clear h).

(** The invariant of the private fields: the cursor is -1 or an index of
    the log, and the bound is the constant 50. *)
Definition cursor_ok (h : History) : Prop :=
  -1 ≤ currentIndex h < Z.of_nat (length (commands h)) ∧ maxHistory h = 50.

(** [applyCommand] as the callback handed to [undo] and [redo]; on
    [undefined] the source would throw while reading [command.payload], a case
    no reachable history produces. *)
Definition applyFn (command : option Command) (reverse : bool)
    (state : EditorState) : EditorState :=
  match command with
  | Some c => applyCommand state c reverse
  | None => state
  end.

(** What a caller owes an effect command executed on [state]: the
    payload names the effect it carries, and an effect is added under an
    id no effect of the state has yet. *)
Definition wellFormed (c : Command) (state : EditorState) : Prop :=
  match c with
  | mkCommand ADD_EFFECT _ p =>
      effect_id (newValue p) = targetId p
      ∧ targetId p ∉ effect_id <$> effects state
  | mkCommand REMOVE_EFFECT _ p => effect_id (prevValue p) = targetId p
  | mkCommand _ _ _ => True
  end.

End CommandHistory.

(** ** src/lib/editor/RenderEngine.ts *)
Module RenderEngine.
Import EditorState JsFloat.
Open Scope float_scope.

Inductive RenderQuality := preview | export.
Inductive Format := png | jpeg | webp.

Record RenderOptions := mkOptions {
  quality : RenderQuality;
  format : option Format;
  jpegQuality : option float }.

(** A number-typed parameter: a missing entry is [undefined], which the
    arithmetic below turns into NaN. *)
Definition number (p : Params) (k : string) : float :=
  match p !! k with
  | Some (JNum x) => x
  | _ => nan
  end.

Definition Math_PI : float := 0x1.921fb54442d18p+1.

(** The canvas, its 2D context and the bitmaps, as the engine uses them:
    every operation is a transformer of the drawing surface. The three
    layer painters and the shadow pass only issue context calls, so they
    are operations of the interface too. *)
Class Canvas2D (Canvas Bitmap Blob : Type) := {
  bitmap_width : Bitmap → float;
  bitmap_height : Bitmap → float;
  (** [canvas.width = w; canvas.height = h; ctx.clearRect(0, 0, w, h)] *)
  resize_and_clear : float → float → Canvas → Canvas;
  save : Canvas → Canvas;
  restore : Canvas → Canvas;
  translate : float → float → Canvas → Canvas;
  rotate : float → Canvas → Canvas;
  scale : float → float → Canvas → Canvas;
  renderBackground : Params → float → float → Canvas → Canvas;
  renderBorder : Params → float → float → Canvas → Canvas;
  renderSubject : Bitmap → option Bitmap → float → float → float → Canvas → Canvas;
  applyShadow : Params → float → float → Canvas → Canvas;
  (** [ctx.getImageData(0, 0, w, h).data] and [ctx.putImageData(d, 0, 0)] *)
  getImageData : float → float → Canvas → list byte;
  putImageData : list byte → Canvas → Canvas;
  (** [StackBlur.canvasRGBA(canvas, 0, 0, w, h, radius)] *)
  stackBlur : float → float → float → Canvas → Canvas;
  (** [canvas.toBlob(cb, "image/" + format, quality)] *)
  toBlob : Format → option float → Canvas → Blob }.

(** [data[i]] as a number; [undefined] past the end becomes NaN in the
    arithmetic. *)
Definition read (data : list byte) (i : nat) : float :=
  match data !! i with
  | Some b => of_byte b
  | None => nan
  end.

(** Body of the pixel loop of [applyFilter], for the pixel at byte [i]. *)
Definition filterPixel (brightness contrast saturation : float) (i : nat)
    (data : list byte) : list byte :=
  let r := read data i in
  let g := read data (i + 1) in
  let b := read data (i + 2) in
  (* Brightness *)
  let r := r * brightness in
  let g := g * brightness in
  let b := b * brightness in
  (* Contrast *)
  let r := ((r / 255 - 0.5) * contrast + 0.5) * 255 in
  let g := ((g / 255 - 0.5) * contrast + 0.5) * 255 in
  let b := ((b / 255 - 0.5) * contrast + 0.5) * 255 in
  (* Saturation *)
  let gray := 0.299 * r + 0.587 * g + 0.114 * b in
  let r := gray + saturation * (r - gray) in
  let g := gray + saturation * (g - gray) in
  let b := gray + saturation * (b - gray) in
  (* Clamp *)
  let d0 := <[i := toUint8Clamp (Math_max 0 (Math_min 255 r))]> data in
  let d1 := <[(i + 1)%nat := toUint8Clamp (Math_max 0 (Math_min 255 g))]> d0 in
  <[(i + 2)%nat := toUint8Clamp (Math_max 0 (Math_min 255 b))]> d1.

(** [for (let i = 0; i < data.length; i += 4)]; [length data] iterations
    are never exhausted. *)
Fixpoint filterLoop (brightness contrast saturation : float) (fuel i : nat)
    (data : list byte) : list byte :=
  match fuel with
  | O => data
  | S fuel' =>
      if bool_decide (i < length data)%nat
      then filterLoop brightness contrast saturation fuel' (i + 4)
             (filterPixel brightness contrast saturation i data)
      else data
  end.

(** [applyFilter] on the pixel buffer, between [getImageData] and
    [putImageData]. *)
Definition applyFilterData (params : Params) (data : list byte) : list byte :=
  let brightness := 1 + number params "brightness" in
  let contrast := 1 + number params "contrast" in
  let saturation := 1 + number params "saturation" in
  filterLoop brightness contrast saturation (length data) 0 data.

Section Engine.
Context {Canvas Bitmap Blob : Type} `{!Canvas2D Canvas Bitmap Blob}.

Definition renderLayer (layer : Layer) (state : EditorState)
    (originalImage : Bitmap) (alphaMask : option Bitmap)
    (width height scale_ : float) (ctx : Canvas) : Canvas :=
  let ctx := save ctx in
  let t := transform layer in
  let ctx := translate (width * translateX t) (height * translateY t) ctx in
  let ctx := rotate (rotation t * Math_PI / 180) ctx in
  let ctx := scale (scaleX t) (scaleY t) ctx in
  let ctx :=
    match layer_type layer with
    | background => renderBackground (layer_params layer) width height ctx
    | border => renderBorder (layer_params layer) width height ctx
    | subject => renderSubject originalImage alphaMask width height scale_ ctx
    | sticker => ctx
    | watermark => ctx
    end in
  restore ctx.

Definition applyFilter (params : Params) (width height : float) (ctx : Canvas) : Canvas :=
  putImageData (applyFilterData params (getImageData width height ctx)) ctx.

Definition applyBlur (params : Params) (width height : float) (ctx : Canvas) : Canvas :=
  let radius := Math_round (number params "radius" * Math_min width height) in
  if PrimFloat.leb radius 0 then ctx
  else stackBlur width height radius ctx.

Definition applyEffect (effect : EffectNode) (width height : float)
    (ctx : Canvas) : Canvas :=
  match effect_type effect with
  | shadow_effect => applyShadow (effect_params effect) width height ctx
  | filter_effect => applyFilter (effect_params effect) width height ctx
  | blur_effect => applyBlur (effect_params effect) width height ctx
  | color_effect => ctx
  | border_effect => ctx
  end.

(** [for (const layer of state.layers) { if (!layer.visible) continue; ... }] *)
Fixpoint renderLayers (ls : list Layer) (state : EditorState)
    (originalImage : Bitmap) (alphaMask : option Bitmap)
    (width height scale_ : float) (ctx : Canvas) : Canvas :=
  match ls with
  | [] => ctx
  | layer :: ls' =>
      let ctx' :=
        if negb (visible layer) then ctx
        else renderLayer layer state originalImage alphaMask width height scale_ ctx in
      renderLayers ls' state originalImage alphaMask width height scale_ ctx'
  end.

(** [for (const effect of state.effects) { if (!effect.enabled) continue; ... }] *)
Fixpoint applyEffects (es : list EffectNode) (width height : float)
    (ctx : Canvas) : Canvas :=
  match es with
  | [] => ctx
  | effect :: es' =>
      let ctx' :=
        if negb (enabled effect) then ctx
        else applyEffect effect width height ctx in
      applyEffects es' width height ctx'
  end.

Definition exportToBlob (options : RenderOptions) (ctx : Canvas) : Blob :=
  let format := default png (format options) in
  let quality :=
    match jpegQuality options with
    | Some q => if PrimFloat.eqb q 0 || isNaN q then 0.92 else q
    | None => 0.92
    end in
  toBlob format (match format with jpeg => Some quality | _ => None end) ctx.

(** [render]: the surface the engine is left with, and the blob. *)
Definition render (state : EditorState) (originalImage : Bitmap)
    (alphaMask : option Bitmap) (options : RenderOptions) (ctx : Canvas)
    : Canvas * Blob :=
  let scale_ :=
    match quality options with
    | preview =>
        Math_min 1 (previewQuality state
                    / Math_max (bitmap_width originalImage) (bitmap_height originalImage))
    | export => 1
    end in
  let width := Math_round (bitmap_width originalImage * scale_) in
  let height := Math_round (bitmap_height originalImage * scale_) in
  let ctx := resize_and_clear width height ctx in
  let ctx := renderLayers (layers state) state originalImage alphaMask
               width height scale_ ctx in
  let ctx := applyEffects (effects state) width height ctx in
  (ctx, exportToBlob options ctx).
End Engine.

(** A surface that records the operations issued on it, in order; the
    blob is the record at the time of export. *)
#[export] Instance recording : Canvas2D (list string) (float * float) (list string) := {
  bitmap_width := fst;
  bitmap_height := snd;
  resize_and_clear _ _ _ := [];
  save c := c ++ ["save"];
  restore c := c ++ ["restore"];
  translate _ _ c := c ++ ["translate"];
  rotate _ c := c ++ ["rotate"];
  scale _ _ c := c ++ ["scale"];
  renderBackground _ _ _ c := c ++ ["renderBackground"];
  renderBorder _ _ _ c := c ++ ["renderBorder"];
  renderSubject _ _ _ _ _ c := c ++ ["renderSubject"];
  applyShadow _ _ _ c := c ++ ["applyShadow"];
  getImageData _ _ _ := [];
  putImageData _ c := c ++ ["putImageData"];
  stackBlur _ _ _ c := c ++ ["stackBlur"];
  toBlob _ _ c := c }.

End RenderEngine.

(** ** Filter effects (src/unnamed/part_013) *)
Module FilterEffects.
Import JsFloat.
Open Scope float_scope.

(** Body of the first pixel loop of [applyFilters] (lines 80-117), on the
    three colour values of one pixel, given the factors computed before
    the loop; the result is what is stored, before the store's rounding. *)
Definition filterPixel
    (exposureFactor brightnessMultiplier contrastFactor saturationFactor
       temperature : float)
    (r g b : float) : float * float * float :=
  (* Exposure *)
  let r := r * exposureFactor in
  let g := g * exposureFactor in
  let b := b * exposureFactor in
  (* Brightness *)
  let r := r * brightnessMultiplier in
  let g := g * brightnessMultiplier in
  let b := b * brightnessMultiplier in
  (* Contrast *)
  let r := ((r / 255 - 0.5) * contrastFactor + 0.5) * 255 in
  let g := ((g / 255 - 0.5) * contrastFactor + 0.5) * 255 in
  let b := ((b / 255 - 0.5) * contrastFactor + 0.5) * 255 in
  (* Saturation *)
  let gray := 0.299 * r + 0.587 * g + 0.114 * b in
  let r := gray + saturationFactor * (r - gray) in
  let g := gray + saturationFactor * (g - gray) in
  let b := gray + saturationFactor * (b - gray) in
  (* Temperature (shift R/B balance) *)
  let '(r, b) :=
    if negb (PrimFloat.eqb temperature 0)
    then let tempShift := temperature * 30 in (r + tempShift, b - tempShift)
    else (r, b) in
  (* Clamp values *)
  (Math_max 0 (Math_min 255 r), Math_max 0 (Math_min 255 g),
   Math_max 0 (Math_min 255 b)).

(** The filter as section 4.3 of the specification states it, for the
    parameters a [filter] effect of the editor state carries: the factors
    [1 + brightness], [(1 + contrast)^2] (the sum times itself) and
    [1 + saturation], no exposure entry (so [exposureFactor = 2^0 = 1]), the
    loop body above, and the store's rounding. *)
Definition specFilterBytes (brightness contrast saturation temperature : float)
    (r g b : byte) : byte * byte * byte :=
  let '(r', g', b') :=
    filterPixel 1 (1 + brightness) ((1 + contrast) * (1 + contrast))
      (1 + saturation) temperature (of_byte r) (of_byte g) (of_byte b) in
  (toUint8Clamp r', toUint8Clamp g', toUint8Clamp b').

End FilterEffects.

(** ** The worker pool (second document of src/unnamed/part_015)

    The pool runs on the event loop: each call of [addJob], [cancelJob],
    each message of a worker and each settlement of a pending
    [file.arrayBuffer()] is one atomic step. What the pool does to the world
    (workers created and terminated, messages posted, callbacks of the jobs
    invoked) is recorded in [trace], in order. The callbacks belong to the
    caller; they are taken not to call back into the pool. *)
Module WorkerPool.

Abbreviation JobId := string.

(** A job: its id and its file (a handle); its four callbacks are
    identified by the job itself in the trace. *)
Record WorkerJob := mkJob { job_id : JobId; file : nat }.

(** Messages to a worker and from a worker (src/types/index.ts). *)
Inductive WorkerMessage :=
| init_msg
| process_msg (imageData : nat).

Inductive WorkerResponse :=
| ready
| progress (percent : Z) (stage : string)
| complete (resultBlob : nat)
| error (message : string) (retryable : bool).

Inductive Action :=
| NewWorker (handle : nat)
| Terminate (handle : nat)
| PostMessage (handle : nat) (m : WorkerMessage)
| OnStart (job : WorkerJob)
| OnProgress (job : WorkerJob) (percent : Z) (stage : string)
| OnComplete (job : WorkerJob) (resultBlob : nat)
| OnError (job : WorkerJob) (message : string).

Record WorkerWrapper := mkWorker {
  id : nat;
  worker : nat;
  busy : bool;
  currentJobId : option JobId }.

Definition MAX_CONCURRENCY : nat := 2.

Record Pool := mkPool {
  workers : list WorkerWrapper;
  queue : list WorkerJob;
  activeJobs : gmap JobId WorkerJob;
  initialized : bool;
  (** the calls of [processNext] suspended at [await job.file.arrayBuffer()]:
      the slot (index in [workers]) and the job each one holds *)
  reading : list (nat * WorkerJob);
  (** how many [Worker] objects were created so far *)
  created : nat;
  trace : list Action }.

(** [new WorkerPool()] *)
Definition new : Pool := mkPool [] [] ∅ false [] 0 [].

Definition with_workers (p : Pool) (ws : list WorkerWrapper) : Pool :=
  mkPool ws (queue p) (activeJobs p) (initialized p) (reading p) (created p) (trace p).
Definition with_queue (p : Pool) (q : list WorkerJob) : Pool :=
  mkPool (workers p) q (activeJobs p) (initialized p) (reading p) (created p) (trace p).
Definition with_activeJobs (p : Pool) (m : gmap JobId WorkerJob) : Pool :=
  mkPool (workers p) (queue p) m (initialized p) (reading p) (created p) (trace p).
Definition with_reading (p : Pool) (r : list (nat * WorkerJob)) : Pool :=
  mkPool (workers p) (queue p) (activeJobs p) (initialized p) r (created p) (trace p).
Definition emit (p : Pool) (a : list Action) : Pool :=
  mkPool (workers p) (queue p) (activeJobs p) (initialized p) (reading p) (created p)
    (trace p ++ a).

(** One round of the loop of [init]: create a worker, send it [init],
    push its wrapper. *)
Definition initWorker (p : Pool) (i : nat) : Pool :=
  mkPool (workers p ++ [mkWorker i (created p) false None]) (queue p) (activeJobs p)
    (initialized p) (reading p) (S (created p))
    (trace p ++ [NewWorker (created p); PostMessage (created p) init_msg]).

Definition init (p : Pool) : Pool :=
  if initialized p then p
  else
    let p' := foldl initWorker p (seq 0 MAX_CONCURRENCY) in
    mkPool (workers p') (queue p') (activeJobs p') true (reading p') (created p')
      (trace p').

(** [processNext] up to its [await]: the call is left suspended in
    [reading]. *)
Definition processNext (p : Pool) : Pool :=
  match list_find (λ w, busy w = false) (workers p), queue p with
  | Some (slot, freeWorker), job :: rest =>
      mkPool
        (<[slot := mkWorker (id freeWorker) (worker freeWorker) true (Some (job_id job))]>
           (workers p))
        rest
        (<[job_id job := job]> (activeJobs p))
        (initialized p)
        (reading p ++ [(slot, job)])
        (created p)
        (trace p ++ [OnStart job])
  | _, _ => p
  end.

Definition releaseWorker (slot : nat) (p : Pool) : Pool :=
  processNext
    (with_workers p
       (alter (λ w, mkWorker (id w) (worker w) false None) slot (workers p))).

(** The rest of [processNext], when the [arrayBuffer] promise of the
    [k]-th suspended call is fulfilled: the buffer goes to whatever worker
    the slot holds now. *)
Definition readResolved (k : nat) (p : Pool) : Pool :=
  match reading p !! k with
  | Some (slot, job) =>
      let p := with_reading p (delete k (reading p)) in
      match workers p !! slot with
      | Some freeWorker => emit p [PostMessage (worker freeWorker) (process_msg (file job))]
      | None => p
      end
  | None => p
  end.

(** ... and when it is rejected: the [catch] block. *)
Definition readRejected (k : nat) (p : Pool) : Pool :=
  match reading p !! k with
  | Some (slot, job) =>
      let p := with_reading p (delete k (reading p)) in
      releaseWorker slot (emit p [OnError job "Failed to read file"])
  | None => p
  end.

Definition addJob (job : WorkerJob) (p : Pool) : Pool :=
  let p := if initialized p then p else init p in
  processNext (with_queue p (queue p ++ [job])).

Definition cancelJob (id_ : JobId) (p : Pool) : Pool :=
  let p := with_queue p (filter (λ job, job_id job ≠ id_) (queue p)) in
  match activeJobs p !! id_ with
  | Some _ =>
      let p := with_activeJobs p (delete id_ (activeJobs p)) in
      match list_find (λ w, currentJobId w = Some id_) (workers p) with
      | Some (slot, w) =>
          let newWorker := created p in
          let p :=
            mkPool (<[slot := mkWorker (id w) newWorker false None]> (workers p))
              (queue p) (activeJobs p) (initialized p) (reading p) (S (created p))
              (trace p ++ [Terminate (worker w); NewWorker newWorker;
                           PostMessage newWorker init_msg]) in
          processNext p
      | None => p
      end
  | None => p
  end.

(** [!jobId]: [undefined] and the empty string are falsy. *)
Definition falsy (jobId : option JobId) : bool :=
  match jobId with
  | None => true
  | Some s => bool_decide (s = "")
  end.

Definition handleMessage (workerId : nat) (data : WorkerResponse) (p : Pool) : Pool :=
  match list_find (λ w, id w = workerId) (workers p) with
  | None => p
  | Some (slot, workerWrapper) =>
      if falsy (currentJobId workerWrapper) then p
      else
        let jobId := default "" (currentJobId workerWrapper) in
        match activeJobs p !! jobId with
        | None => p
        | Some job =>
            match data with
            | progress percent stage => emit p [OnProgress job percent stage]
            | complete resultBlob =>
                let p := emit p [OnComplete job resultBlob] in
                let p := with_activeJobs p (delete jobId (activeJobs p)) in
                releaseWorker slot p
            | error message _ =>
                let p := emit p [OnError job message] in
                let p := with_activeJobs p (delete jobId (activeJobs p)) in
                releaseWorker slot p
            | ready => p
            end
        end
  end.

Definition getActiveCount (p : Pool) : nat := size (activeJobs p).
Definition getQueueLength (p : Pool) : nat := length (queue p).

(** What can happen to a pool. *)
Inductive Event :=
| AddJob (job : WorkerJob)
| CancelJob (id_ : JobId)
| Message (workerId : nat) (data : WorkerResponse)
| ReadResolved (k : nat)
| ReadRejected (k : nat).

Definition step (p : Pool) (e : Event) : Pool :=
  match e with
  | AddJob job => addJob job p
  | CancelJob id_ => cancelJob id_ p
  | Message workerId data => handleMessage workerId data p
  | ReadResolved k => readResolved k p
  | ReadRejected k => readRejected k p
  end.

Definition run (es : list Event) (p : Pool) : Pool := foldl step p es.

(** The jobs in flight: the job ids the busy slots hold. *)
Definition inFlight (p : Pool) : list JobId :=
  omap (λ w, if busy w then currentJobId w else None) (workers p).

(** The invariant of the slot array: empty until [init] has run, and never
    longer than [MAX_CONCURRENCY]. *)
Definition slots_ok (p : Pool) : Prop :=
  (initialized p = false → workers p = [])
  ∧ (length (workers p) ≤ MAX_CONCURRENCY)%nat.

(** An event that frees no slot. *)
Definition holdsSlots (e : Event) : Prop :=
  match e with
  | AddJob _ | ReadResolved _ | Message _ ready | Message _ (progress _ _) => True
  | _ => False
  end.

(** [id_] is held by the map of active jobs only: no slot and no queued
    job carries it. *)
Definition leaked (id_ : JobId) (p : Pool) : Prop :=
  is_Some (activeJobs p !! id_)
  ∧ Forall (λ w, currentJobId w ≠ Some id_) (workers p)
  ∧ Forall (λ job, job_id job ≠ id_) (queue p).

(** An event that neither cancels [id_] nor submits a job under it. *)
Definition leaves (id_ : JobId) (e : Event) : Prop :=
  match e with
  | CancelJob id' => id' ≠ id_
  | AddJob job => job_id job ≠ id_
  | _ => True
  end.

End WorkerPool.

(** ** The unified processor (src/lib/imageProcessing.ts, lines 233-266) *)
Module UnifiedProcessor.
Import Js ImageProcessing.

Inductive ProcessingMode := remove_bg | remove_color | blur_bg.

Record ProcessingConfig := mkConfig {
  mode : ProcessingMode;
  colorToRemove : option string;
  colorTolerance : option Z;
  blurIntensity : option Z }.

(** [s || d] on an optional string: [undefined] and the empty string are
    falsy. *)
Definition or_string (s : option string) (d : string) : string :=
  match s with
  | Some s' => if decide (s' = "") then d else s'
  | None => d
  end.

(** [n || d] on an optional integer: [undefined] and 0 are falsy. *)
Definition or_number (n : option Z) (d : Z) : Z :=
  match n with
  | Some 0 => d
  | Some n' => n'
  | None => d
  end.

Section Processor.
(** The collaborators, on decoded pixel buffers: the AI cut-out with and
    without the compression step before it, and the canvas blur filter. *)
Variable removeBackgroundOnly : list byte → list byte.
Variable removeBackground : list byte → list byte.
Variable blur : Z → list byte → list byte.

(** [processImage] on the decoded [file], of dimensions [width] x [height]. *)
Definition processImage (file : list byte) (width height : nat)
    (config : ProcessingConfig) : list byte :=
  match mode config with
  | remove_bg => removeBackgroundOnly file
  | remove_color =>
      removeSpecificColor file
        (or_string (colorToRemove config) "#00FF00")
        (or_number (colorTolerance config) 30)
  | blur_bg =>
      blurBackgroundOnly (removeBackground file) file
        (blur (or_number (blurIntensity config) 25) file) width height
  end.
End Processor.

End UnifiedProcessor.

(** ** What a command must have recorded for its undo to restore the state *)
Module CommandRecords.
Import EditorState CommandHistory.

(** [c] was built against [state]: its [prevValue] holds what the targeted
    field holds in [state]; an added effect comes under a fresh id; a removed
    effect is the last of the list (undo appends it). *)
Definition recorded (c : Command) (state : EditorState) : Prop :=
  match c with
  | mkCommand SET_EFFECT _ p =>
      ∀ e, e ∈ effects state → effect_id e = targetId p →
           effect_params e = prevValue p
  | mkCommand TOGGLE_EFFECT _ p =>
      ∀ e, e ∈ effects state → effect_id e = targetId p → enabled e = prevValue p
  | mkCommand SET_LAYER _ p =>
      ∀ l, l ∈ layers state → layer_id l = targetId p →
           layer_params l = prevValue p
  | mkCommand TOGGLE_LAYER _ p =>
      ∀ l, l ∈ layers state → layer_id l = targetId p → visible l = prevValue p
  | mkCommand SET_TRANSFORM _ p =>
      ∀ l, l ∈ layers state → layer_id l = targetId p → transform l = prevValue p
  | mkCommand ADD_EFFECT _ p =>
      effect_id (newValue p) = targetId p
      ∧ targetId p ∉ effect_id <$> effects state
  | mkCommand REMOVE_EFFECT _ p =>
      ∃ before, effects state = before ++ [prevValue p]
                ∧ effect_id (prevValue p) = targetId p
                ∧ targetId p ∉ effect_id <$> before
  | mkCommand _ _ _ => True
  end.

(** The cursor invariant together with the bound of the log. *)
Definition within_bound (h : History) : Prop :=
  cursor_ok h ∧ (length (commands h) ≤ 50)%nat.

End CommandRecords.

(** ** What is observed of a pool: invariants and readings of the trace *)
Module WorkerPoolObservations.
Import WorkerPool.

(** The jobs whose [onStart] was called, in order. *)
Definition started (t : list Action) : list WorkerJob :=
  omap (λ a, match a with OnStart job => Some job | _ => None end) t.

(** The jobs handed to [addJob], in order. *)
Definition submitted (es : list Event) : list WorkerJob :=
  omap (λ e, match e with AddJob job => Some job | _ => None end) es.

Definition isCancel (e : Event) : bool :=
  match e with CancelJob _ => true | _ => false end.

(** The jobs in process at the end of a trace: those whose [onStart] was
    called and whose [onComplete] or [onError] was not called since, in
    the order they were started. *)
Fixpoint running_from (acc : list WorkerJob) (t : list Action) : list WorkerJob :=
  match t with
  | [] => acc
  | OnStart job :: t' => running_from (acc ++ [job]) t'
  | OnComplete job _ :: t' | OnError job _ :: t' =>
      running_from (filter (λ j, job_id j ≠ job_id job) acc) t'
  | _ :: t' => running_from acc t'
  end.

Definition running (t : list Action) : list WorkerJob := running_from [] t.

(** The files posted to workers for processing, with the worker each one
    went to. *)
Definition posted (t : list Action) : list (nat * nat) :=
  omap (λ a, match a with
             | PostMessage handle (process_msg imageData) => Some (handle, imageData)
             | _ => None
             end) t.

(** At most one slot is idle. *)
Definition one_idle (ws : list WorkerWrapper) : Prop :=
  ∀ i j wi wj, ws !! i = Some wi → ws !! j = Some wj →
               busy wi = false → busy wj = false → i = j.

(** A slot's id is its index, and the slot is busy exactly when it holds
    a job id. *)
Definition slot_ok (i : nat) (w : WorkerWrapper) : Prop :=
  id w = i ∧ (busy w = true ↔ is_Some (currentJobId w)).

(** The state machine of the slots and of the scheduler: once [init] has
    run there are [MAX_CONCURRENCY] slots, each of them [slot_ok]; nothing
    is queued before [init]; and no job waits while a slot is idle. *)
Definition sound (p : Pool) : Prop :=
  slots_ok p
  ∧ (initialized p = true → length (workers p) = MAX_CONCURRENCY)
  ∧ (∀ i w, workers p !! i = Some w → slot_ok i w)
  ∧ (initialized p = false → queue p = [])
  ∧ (queue p ≠ [] → Forall (λ w, busy w = true) (workers p)).

(** Scans a trace for a message posted to a worker terminated earlier;
    [dead] holds the handles terminated so far. *)
Fixpoint posts_to_dead (dead : list nat) (t : list Action) : bool :=
  match t with
  | [] => false
  | Terminate h :: t' => posts_to_dead (h :: dead) t'
  | PostMessage h _ :: t' => bool_decide (h ∈ dead) || posts_to_dead dead t'
  | _ :: t' => posts_to_dead dead t'
  end.

(** The handles terminated in a trace. *)
Definition terminated (t : list Action) : list nat :=
  omap (λ a, match a with Terminate h => Some h | _ => None end) t.

(** The worker each slot holds. *)
Definition handles (p : Pool) : list nat := worker <$> workers p.

(** The workers of the slots are distinct, were all created, and none of
    them was terminated. *)
Definition live (p : Pool) : Prop :=
  NoDup (handles p)
  ∧ Forall (λ h, h < created p)%nat (handles p)
  ∧ Forall (λ h, (h < created p)%nat ∧ h ∉ handles p) (terminated (trace p)).

(** An action that calls back into a job, and touches no worker. *)
Definition isCallback (a : Action) : Prop :=
  match a with
  | OnStart _ | OnProgress _ _ _ | OnComplete _ _ | OnError _ _ => True
  | _ => False
  end.

Definition safe (p : Pool) : Prop :=
  live p ∧ posts_to_dead [] (trace p) = false.

End WorkerPoolObservations.

(** ** src/lib/security.ts: the throttle and the set of processed files

    [Date.now()] is a parameter: the time in milliseconds, an integer. The
    module-level [throttleState] is passed explicitly. *)
Module Security.

Definition THROTTLE_INTERVAL_MS : Z := 3000.

Record ThrottleState := mkThrottle {
  lastProcessTime : Z;
  processedHashes : gset string }.

(** The state the module starts with, and [resetThrottleState] restores. *)
Definition initial : ThrottleState := mkThrottle 0 ∅.

Record Throttle := mkResult { throttled : bool; waitMs : option Z }.

Definition shouldThrottle (now : Z) (st : ThrottleState) : Throttle :=
  let timeSinceLastProcess := now - lastProcessTime st in
  if timeSinceLastProcess <? THROTTLE_INTERVAL_MS
  then mkResult true (Some (THROTTLE_INTERVAL_MS - timeSinceLastProcess))
  else mkResult false None.

Definition recordProcessing (now : Z) (hash : string) (st : ThrottleState) : ThrottleState :=
  mkThrottle now ({[hash]} ∪ processedHashes st).

Definition isDuplicateFile (hash : string) (st : ThrottleState) : bool :=
  bool_decide (hash ∈ processedHashes st).

Definition clearProcessedCache (st : ThrottleState) : ThrottleState :=
  mkThrottle (lastProcessTime st) ∅.

Definition resetThrottleState (st : ThrottleState) : ThrottleState := initial.

End Security.

(** ** src/lib/formatConverter.ts: [generateFilename]

    A JavaScript string is its sequence of UTF-16 code units; [split],
    [replace] with a one-character class, and [substring] all work on code
    units. *)
Module FormatConverter.

Abbreviation CodeUnit := N (only parsing).
Abbreviation JsString := (list N) (only parsing).

(** The code units of an ASCII literal. *)
Definition units (s : string) : JsString := N_of_ascii <$> list_ascii_of_string s.

Definition dot : CodeUnit := 46%N.
Definition underscore : CodeUnit := 95%N.

(** [s.split(sep)] for a one-unit separator: never empty. *)
Fixpoint split (sep : CodeUnit) (s : JsString) : list JsString :=
  match s with
  | [] => [[]]
  | c :: s' =>
      match split sep s' with
      | [] => [[c]]
      | seg :: segs => if (c =? sep)%N then [] :: seg :: segs else (c :: seg) :: segs
      end
  end.

(** [parts.join(sep)] *)
Fixpoint join (sep : CodeUnit) (parts : list JsString) : JsString :=
  match parts with
  | [] => []
  | [part] => part
  | part :: rest => part ++ sep :: join sep rest
  end.

(** The class [a-zA-Z0-9-_]. *)
Definition isSafe (c : CodeUnit) : bool :=
  ((97 <=? c) && (c <=? 122) || (65 <=? c) && (c <=? 90) || (48 <=? c) && (c <=? 57)
   || (c =? 45) || (c =? 95))%N.

(** [.replace(/[^a-zA-Z0-9-_]/g, '_')] *)
Definition sanitize (s : JsString) : JsString :=
  (λ c, if isSafe c then c else underscore) <$> s.

Inductive Format := png | jpg | jpeg.

Definition formatName (format : Format) : JsString :=
  match format with
  | png => units "png"
  | jpg => units "jpg"
  | jpeg => units "jpeg"
  end.

Definition baseName (originalName : JsString) : JsString :=
  let nameParts := split dot originalName in
  let nameParts :=
    if (1 <? length nameParts)%nat then removelast nameParts else nameParts in
  join dot nameParts.

Definition generateFilename (originalName : JsString) (format : Format)
    (suffix : JsString) : JsString :=
  let safeName := take 100 (sanitize (baseName originalName)) in
  safeName ++ suffix ++ dot :: formatName format.

(** [suffix: string = '_nobg'] *)
Definition defaultSuffix : JsString := units "_nobg".

End FormatConverter.

(** * Properties *)

(** ** Chroma key and mask compositing *)
Module ImageProcessingFacts.
Import Js ImageProcessing.

Lemma CHUNK_SIZE_pos : (0 < CHUNK_SIZE)%nat.
Proof. unfold CHUNK_SIZE. lia. Qed.

Lemma toUint8Clamp_byte (b : byte) : toUint8Clamp (Some (Z_of_byte b)) = b.
Proof.
  unfold toUint8Clamp, Z_of_byte.
  assert (Hb := Byte.to_N_bounded b).
  rewrite Z.min_r, Z.max_r by lia.
  rewrite N2Z.id, Byte.of_to_N. reflexivity.
Qed.

Section ChromaKeyFacts.
Variables targetR targetG targetB toleranceSquared : num.

#[local] Abbreviation keyPixel := (keyPixel targetR targetG targetB toleranceSquared).
#[local] Abbreviation keyPixels := (keyPixels targetR targetG targetB toleranceSquared).
#[local] Abbreviation keyChunks := (keyChunks targetR targetG targetB toleranceSquared).
#[local] Abbreviation matches := (matches targetR targetG targetB toleranceSquared).

Lemma keyPixel_length p data : length (keyPixel p data) = length data.
Proof.
  unfold ImageProcessing.keyPixel, set.
  destruct (le _ _); [apply length_insert | reflexivity].
Qed.

Lemma keyPixel_lookup p data i :
  keyPixel p data !! i =
    if bool_decide (i = p * 4 + 3)%nat && matches data p
    then (λ _, Byte.x00) <$> data !! i
    else data !! i.
Proof.
  unfold ImageProcessing.keyPixel, ImageProcessing.matches, set.
  destruct (le _ _); rewrite ?andb_true_r, ?andb_false_r; [|reflexivity].
  case_bool_decide as Hi.
  - subst i. destruct (data !! (p * 4 + 3)%nat) eqn:E.
    + rewrite list_lookup_insert_eq; [reflexivity|].
      apply lookup_lt_Some in E. exact E.
    + rewrite list_insert_ge; [rewrite E; reflexivity|].
      apply lookup_ge_None in E. exact E.
  - rewrite list_lookup_insert_ne by congruence. reflexivity.
Qed.

Lemma keyPixel_get_colour p data i :
  (i mod 4 ≠ 3)%nat → get (keyPixel p data) i = get data i.
Proof.
  intros Hi. unfold get. rewrite keyPixel_lookup.
  case_bool_decide as E; [|reflexivity].
  exfalso. apply Hi. subst i.
  rewrite Nat.add_comm, Nat.Div0.mod_add. reflexivity.
Qed.

Lemma matches_keyPixel p data q : matches (keyPixel p data) q = matches data q.
Proof.
  unfold ImageProcessing.matches.
  rewrite !keyPixel_get_colour; [reflexivity| | |].
  - rewrite Nat.add_comm, Nat.Div0.mod_add. cbn. lia.
  - rewrite Nat.add_comm, Nat.Div0.mod_add. cbn. lia.
  - replace (q * 4)%nat with (0 + q * 4)%nat by lia.
    rewrite Nat.Div0.mod_add. cbn. lia.
Qed.

Lemma keyPixels_length count : ∀ p data,
  length (keyPixels count p data) = length data.
Proof.
  induction count as [|c IH]; intros p data; cbn; [reflexivity|].
  rewrite IH. apply keyPixel_length.
Qed.

Lemma keyPixels_app a : ∀ b p data,
  keyPixels (a + b) p data = keyPixels b (p + a) (keyPixels a p data).
Proof.
  induction a as [|a IH]; intros b p data; cbn.
  - rewrite Nat.add_0_r. reflexivity.
  - rewrite IH. f_equal. lia.
Qed.

(** What the run over pixels [p .. p+count-1] leaves at index [i]. *)
Lemma keyPixels_lookup count : ∀ p data i,
  keyPixels count p data !! i =
    if bool_decide (i mod 4 = 3 ∧ p ≤ i / 4 < p + count)%nat
       && matches data (i / 4)
    then (λ _, Byte.x00) <$> data !! i
    else data !! i.
Proof.
  induction count as [|c IH]; intros p data i; cbn [ImageProcessing.keyPixels].
  - rewrite bool_decide_eq_false_2 by lia. reflexivity.
  - rewrite IH, matches_keyPixel, keyPixel_lookup.
    destruct (matches data (i / 4)) eqn:Hm; rewrite ?andb_true_r, ?andb_false_r.
    + destruct (decide (i = p * 4 + 3)%nat) as [->|Hne].
      * assert (Hd : ((p * 4 + 3) / 4 = p)%nat).
        { rewrite Nat.add_comm, Nat.div_add by lia. cbn. lia. }
        assert (Hr : ((p * 4 + 3) mod 4 = 3)%nat).
        { rewrite Nat.add_comm, Nat.Div0.mod_add. reflexivity. }
        rewrite Hd in Hm. rewrite Hd, Hr, Hm, andb_true_r.
        rewrite (bool_decide_eq_false_2 (_ ∧ S p ≤ p < _)%nat) by lia.
        rewrite (bool_decide_eq_true_2 (_ ∧ p ≤ p < _)%nat) by lia.
        rewrite bool_decide_eq_true_2 by reflexivity. reflexivity.
      * rewrite (bool_decide_eq_false_2 (i = _)) by exact Hne. cbn [andb].
        assert (Hp : (i mod 4 = 3 → i / 4 ≠ p)%nat).
        { intros Hr Hq. apply Hne.
          rewrite (Nat.div_mod_eq i 4). lia. }
        repeat case_bool_decide; try reflexivity; lia.
    + destruct (bool_decide (i = p * 4 + 3)%nat) eqn:Hi; [|reflexivity].
      apply bool_decide_eq_true in Hi. subst i.
      replace ((p * 4 + 3) / 4)%nat with p in Hm.
      * rewrite Hm. reflexivity.
      * rewrite Nat.add_comm, Nat.div_add by lia. cbn. lia.
Qed.

Lemma keyChunks_done chunk fuel start total data :
  (total ≤ start)%nat → keyChunks chunk fuel start total data = data.
Proof.
  intros H. destruct fuel; cbn; [reflexivity|].
  rewrite bool_decide_eq_false_2 by lia. reflexivity.
Qed.

(** The chunked double loop visits every pixel exactly once, in order. *)
Lemma keyChunks_keyPixels chunk fuel : ∀ start total data,
  (0 < chunk)%nat → (start ≤ total)%nat → (total - start < fuel)%nat →
  keyChunks chunk fuel start total data = keyPixels (total - start) start data.
Proof.
  induction fuel as [|fuel IH]; intros start total data Hc Hs Hf; [lia|].
  cbn [ImageProcessing.keyChunks]. case_bool_decide as Hlt.
  - destruct (decide (start + chunk < total)%nat) as [Hin|Hout].
    + rewrite Nat.min_l by lia. rewrite IH by lia.
      replace (start + chunk - start)%nat with chunk by lia.
      replace (total - start)%nat with (chunk + (total - (start + chunk)))%nat by lia.
      rewrite keyPixels_app. reflexivity.
    + rewrite Nat.min_r by lia. apply keyChunks_done. lia.
  - replace (total - start)%nat with 0%nat by lia. reflexivity.
Qed.
End ChromaKeyFacts.

Lemma pixel_index_mod (p k : nat) : (k < 4 → (p * 4 + k) mod 4 = k)%nat.
Proof.
  intros Hk. rewrite Nat.add_comm, Nat.Div0.mod_add. apply Nat.mod_small, Hk.
Qed.

Lemma pixel_index_div (p k : nat) : (k < 4 → (p * 4 + k) / 4 = p)%nat.
Proof.
  intros Hk. rewrite Nat.add_comm, Nat.div_add by lia.
  rewrite Nat.div_small by exact Hk. reflexivity.
Qed.

(** C2. Chroma-key removal: for a well-formed target colour and every
    complete pixel [(r, g, b, a)] of the buffer, [removeSpecificColor] leaves
    r, g and b as they are and makes alpha 0 exactly when
    (r-tr)^2 + (g-tg)^2 + (b-tb)^2 <= tolerance^2 * 3, keeping [a] otherwise;
    the buffer keeps its length. With tolerance 0 a pixel equal to the target
    gets alpha 0 and a pixel at squared distance 1 keeps its alpha. *)
Theorem removeSpecificColor_alpha_iff_within_tolerance
    (data : list byte) (targetColor : string) (tolerance tr tg tb : Z) :
  parseInt16 (slice targetColor 1 3) = Some tr →
  parseInt16 (slice targetColor 3 5) = Some tg →
  parseInt16 (slice targetColor 5 7) = Some tb →
  let out := removeSpecificColor data targetColor tolerance in
  length out = length data ∧
  ∀ (p : nat) (r g b a : byte),
    data !! (p * 4)%nat = Some r → data !! (p * 4 + 1)%nat = Some g →
    data !! (p * 4 + 2)%nat = Some b → data !! (p * 4 + 3)%nat = Some a →
    let d := (Z_of_byte r - tr) ^ 2 + (Z_of_byte g - tg) ^ 2
             + (Z_of_byte b - tb) ^ 2 in
    out !! (p * 4)%nat = Some r ∧ out !! (p * 4 + 1)%nat = Some g ∧
    out !! (p * 4 + 2)%nat = Some b ∧
    out !! (p * 4 + 3)%nat
      = Some (if bool_decide (d ≤ tolerance ^ 2 * 3) then Byte.x00 else a) ∧
    (tolerance = 0 → d = 0 → out !! (p * 4 + 3)%nat = Some Byte.x00) ∧
    (tolerance = 0 → d = 1 → out !! (p * 4 + 3)%nat = Some a).
Proof.
  intros Hr Hg Hb out. subst out. unfold removeSpecificColor.
  rewrite Hr, Hg, Hb.
  rewrite keyChunks_keyPixels by (try apply CHUNK_SIZE_pos; lia).
  rewrite Nat.sub_0_r. split; [apply keyPixels_length|].
  intros p r g b a H0 H1 H2 H3.
  set (d := (Z_of_byte r - tr) ^ 2 + _ + _).
  assert (Hp : (p < length data / 4)%nat).
  { apply lookup_lt_Some in H3. apply Nat.div_le_lower_bound; lia. }
  assert (Ha : keyPixels (Some tr) (Some tg) (Some tb)
                 (Some (tolerance * tolerance * 3)) (length data / 4) 0 data
                 !! (p * 4 + 3)%nat
               = Some (if bool_decide (d ≤ tolerance ^ 2 * 3) then Byte.x00 else a)).
  { rewrite keyPixels_lookup, pixel_index_mod, pixel_index_div by lia.
    rewrite bool_decide_eq_true_2 by lia. cbn [andb].
    unfold ImageProcessing.matches, get. rewrite <- (Nat.add_0_r (p * 4)) at 1.
    rewrite Nat.add_0_r, H0, H1, H2, H3. cbn.
    replace (tolerance * tolerance * 3) with (tolerance ^ 2 * 3) by lia.
    replace ((Z_of_byte r - tr) * (Z_of_byte r - tr)
             + (Z_of_byte g - tg) * (Z_of_byte g - tg)
             + (Z_of_byte b - tb) * (Z_of_byte b - tb)) with d by (subst d; lia).
    destruct (bool_decide (d ≤ tolerance ^ 2 * 3)); reflexivity. }
  split; [|split; [|split; [|split; [|split]]]].
  - rewrite keyPixels_lookup, Nat.Div0.mod_mul.
    rewrite bool_decide_eq_false_2 by lia. exact H0.
  - rewrite keyPixels_lookup, pixel_index_mod by lia.
    rewrite bool_decide_eq_false_2 by lia. exact H1.
  - rewrite keyPixels_lookup, pixel_index_mod by lia.
    rewrite bool_decide_eq_false_2 by lia. exact H2.
  - exact Ha.
  - intros -> Hd. rewrite Ha, bool_decide_eq_true_2 by lia. reflexivity.
  - intros -> Hd. rewrite Ha, bool_decide_eq_false_2 by lia. reflexivity.
Qed.

Lemma removeSpecificColor_green_screen :
  removeSpecificColor
    [Byte.x00; Byte.xff; Byte.x00; Byte.xff; Byte.x01; Byte.xff; Byte.x00; Byte.xff]
    "#00FF00" 0 !! 3%nat = Some Byte.x00
  ∧ removeSpecificColor
      [Byte.x00; Byte.xff; Byte.x00; Byte.xff; Byte.x01; Byte.xff; Byte.x00; Byte.xff]
      "#00FF00" 0 !! 7%nat = Some Byte.xff.
Proof.
  pose proof (removeSpecificColor_alpha_iff_within_tolerance
    [Byte.x00; Byte.xff; Byte.x00; Byte.xff; Byte.x01; Byte.xff; Byte.x00; Byte.xff]
    "#00FF00" 0 0 255 0 eq_refl eq_refl eq_refl) as [_ H].
  split.
  - exact (proj1 (proj2 (proj2 (proj2 (proj2
      (H 0%nat Byte.x00 Byte.xff Byte.x00 Byte.xff eq_refl eq_refl eq_refl eq_refl)))))
      eq_refl eq_refl).
  - exact (proj2 (proj2 (proj2 (proj2 (proj2
      (H 1%nat Byte.x01 Byte.xff Byte.x00 Byte.xff eq_refl eq_refl eq_refl eq_refl)))))
      eq_refl eq_refl).
Defined.

(** With tolerance 10 the pixel (5, 250, 3) is within the threshold of
    #00FF00 (59 <= 300) and becomes transparent. *)
Example removeSpecificColor_tolerance_10 :
  removeSpecificColor [Byte.x05; Byte.xfa; Byte.x03; Byte.xff] "#00FF00" 10
  = [Byte.x05; Byte.xfa; Byte.x03; Byte.x00].
Proof. vm_compute. reflexivity. Qed.

(** A target that is no hex colour parses to NaN; every comparison is then
    false and nothing is removed. *)
Example removeSpecificColor_nan_target :
  removeSpecificColor [Byte.x00; Byte.xff; Byte.x00; Byte.xff] "green" 255
  = [Byte.x00; Byte.xff; Byte.x00; Byte.xff].
Proof. vm_compute. reflexivity. Qed.

Section CompositeFacts.
Variables maskData sharpData blurredData : list byte.

#[local] Abbreviation compositePixel := (compositePixel maskData sharpData blurredData).
#[local] Abbreviation compositePixels := (compositePixels maskData sharpData blurredData).
#[local] Abbreviation compositeChunks := (compositeChunks maskData sharpData blurredData).

Lemma compositePixel_length p f : length (compositePixel p f) = length f.
Proof.
  unfold ImageProcessing.compositePixel, set.
  destruct (gt _ _); rewrite !length_insert; reflexivity.
Qed.

Lemma compositePixels_length count : ∀ p f,
  length (compositePixels count p f) = length f.
Proof.
  induction count as [|c IH]; intros p f; cbn; [reflexivity|].
  rewrite IH. apply compositePixel_length.
Qed.

Lemma compositePixel_other p f i :
  (i / 4 ≠ p)%nat → compositePixel p f !! i = f !! i.
Proof.
  intros Hi. unfold ImageProcessing.compositePixel, set.
  assert (∀ k, k < 4 → p * 4 + k ≠ i)%nat as Hk.
  { intros k Hk <-. apply Hi, pixel_index_div, Hk. }
  assert (p * 4 ≠ i)%nat as H0.
  { specialize (Hk 0%nat). rewrite Nat.add_0_r in Hk. apply Hk. lia. }
  destruct (gt _ _);
    rewrite !list_lookup_insert_ne by (try apply Hk; try exact H0; lia);
    reflexivity.
Qed.

(** The four bytes written for pixel [p]: colour from the sharp buffer when
    the mask alpha exceeds 128, from the blurred one otherwise; alpha 255. *)
Lemma compositePixel_at p f k :
  (k < 4)%nat → (p * 4 + k < length f)%nat →
  compositePixel p f !! (p * 4 + k)%nat =
    Some (if bool_decide (k = 3)%nat then Byte.xff
          else toUint8Clamp
                 (get (if gt (get maskData (p * 4 + 3)) (Some 128)
                       then sharpData else blurredData) (p * 4 + k))).
Proof.
  intros Hk Hlen. unfold ImageProcessing.compositePixel, set.
  destruct (gt _ _);
    (destruct k as [|[|[|[|k]]]]; [| | | |lia]; rewrite ?Nat.add_0_r in *;
     repeat first
       [ rewrite list_lookup_insert_eq by (rewrite ?length_insert; lia)
       | rewrite list_lookup_insert_ne by lia ];
     reflexivity).
Qed.

Lemma compositePixels_other count : ∀ p f i,
  ¬ (p ≤ i / 4 < p + count)%nat → compositePixels count p f !! i = f !! i.
Proof.
  induction count as [|c IH]; intros p f i Hi; cbn; [reflexivity|].
  rewrite IH by lia. apply compositePixel_other. lia.
Qed.

Lemma compositePixels_at count : ∀ p f q k,
  (p ≤ q < p + count)%nat → (k < 4)%nat → (q * 4 + k < length f)%nat →
  compositePixels count p f !! (q * 4 + k)%nat =
    Some (if bool_decide (k = 3)%nat then Byte.xff
          else toUint8Clamp
                 (get (if gt (get maskData (q * 4 + 3)) (Some 128)
                       then sharpData else blurredData) (q * 4 + k))).
Proof.
  induction count as [|c IH]; intros p f q k Hq Hk Hlen; [lia|].
  cbn [ImageProcessing.compositePixels].
  destruct (decide (q = p)) as [->|Hne].
  - rewrite compositePixels_other by (rewrite pixel_index_div by exact Hk; lia).
    apply compositePixel_at; assumption.
  - apply IH; [lia|exact Hk|]. rewrite compositePixel_length. exact Hlen.
Qed.

Lemma compositePixels_app a : ∀ b p f,
  compositePixels (a + b) p f = compositePixels b (p + a) (compositePixels a p f).
Proof.
  induction a as [|a IH]; intros b p f; cbn.
  - rewrite Nat.add_0_r. reflexivity.
  - rewrite IH. f_equal. lia.
Qed.

Lemma compositeChunks_done chunk fuel start total f :
  (total ≤ start)%nat → compositeChunks chunk fuel start total f = f.
Proof.
  intros H. destruct fuel; cbn; [reflexivity|].
  rewrite bool_decide_eq_false_2 by lia. reflexivity.
Qed.

Lemma compositeChunks_compositePixels chunk fuel : ∀ start total f,
  (0 < chunk)%nat → (start ≤ total)%nat → (total - start < fuel)%nat →
  compositeChunks chunk fuel start total f = compositePixels (total - start) start f.
Proof.
  induction fuel as [|fuel IH]; intros start total f Hc Hs Hf; [lia|].
  cbn [ImageProcessing.compositeChunks]. case_bool_decide as Hlt.
  - destruct (decide (start + chunk < total)%nat) as [Hin|Hout].
    + rewrite Nat.min_l by lia. rewrite IH by lia.
      replace (start + chunk - start)%nat with chunk by lia.
      replace (total - start)%nat with (chunk + (total - (start + chunk)))%nat by lia.
      rewrite compositePixels_app. reflexivity.
    + rewrite Nat.min_r by lia. apply compositeChunks_done. lia.
  - replace (total - start)%nat with 0%nat by lia. reflexivity.
Qed.
End CompositeFacts.

Lemma clamped_read (src : list byte) (i : nat) :
  (i < length src)%nat → Some (toUint8Clamp (get src i)) = src !! i.
Proof.
  intros Hi. unfold get. destruct (lookup_lt_is_Some_2 src i Hi) as [v Hv].
  rewrite Hv. change (Some (toUint8Clamp (Some (Z_of_byte v))) = Some v).
  rewrite toUint8Clamp_byte. reflexivity.
Qed.

(** C3. Sharp/blur mask compositing: with the mask, the original and the
    blurred copy all of the original's dimensions, every pixel of the output
    takes its R, G and B from the original when the mask alpha at that pixel
    is strictly greater than 128 and from the blurred copy otherwise, and
    its alpha is 255 in both cases; alpha 129 selects the original, alpha
    128 the blurred copy. *)
Theorem blurBackgroundOnly_hard_threshold
    (maskData sharpData blurredData : list byte) (width height : nat) :
  length maskData = (width * height * 4)%nat →
  length sharpData = (width * height * 4)%nat →
  length blurredData = (width * height * 4)%nat →
  let out := blurBackgroundOnly maskData sharpData blurredData width height in
  length out = (width * height * 4)%nat ∧
  ∀ (p : nat) (alpha : byte),
    maskData !! (p * 4 + 3)%nat = Some alpha →
    let src := if bool_decide (Z_of_byte alpha > 128) then sharpData else blurredData in
    (out !! (p * 4)%nat = src !! (p * 4)%nat ∧
     out !! (p * 4 + 1)%nat = src !! (p * 4 + 1)%nat ∧
     out !! (p * 4 + 2)%nat = src !! (p * 4 + 2)%nat ∧
     out !! (p * 4 + 3)%nat = Some Byte.xff) ∧
    (Z_of_byte alpha = 129 → src = sharpData) ∧
    (Z_of_byte alpha = 128 → src = blurredData).
Proof.
  intros Hm Hs Hb out. subst out. unfold blurBackgroundOnly.
  rewrite compositeChunks_compositePixels by (try apply CHUNK_SIZE_pos; lia).
  rewrite Nat.sub_0_r. split.
  { rewrite compositePixels_length. apply length_replicate. }
  intros p alpha Ha.
  assert (Hlt : (p * 4 + 3 < width * height * 4)%nat).
  { apply lookup_lt_Some in Ha. lia. }
  assert (Hp : (p < length maskData / 4)%nat).
  { apply Nat.div_le_lower_bound; lia. }
  assert (Hsel : (if gt (get maskData (p * 4 + 3)) (Some 128) then sharpData else blurredData)
                 = (if bool_decide (Z_of_byte alpha > 128) then sharpData else blurredData)).
  { unfold get. rewrite Ha. reflexivity. }
  assert (Hsrc : length (if bool_decide (Z_of_byte alpha > 128)
                         then sharpData else blurredData) = (width * height * 4)%nat).
  { destruct (bool_decide _); assumption. }
  cbv zeta. split; [|split].
  - pose proof (λ k Hk Hl, compositePixels_at maskData sharpData blurredData
        (length maskData / 4) 0 (replicate (width * height * 4) Byte.x00) p k
        (conj (Nat.le_0_l p) Hp) Hk Hl) as Hat.
    rewrite length_replicate in Hat. rewrite Hsel in Hat.
    split; [|split; [|split]].
    + rewrite <- (Nat.add_0_r (p * 4)) at 1. rewrite Hat by lia.
      rewrite Nat.add_0_r. apply clamped_read. lia.
    + rewrite Hat by lia. apply clamped_read. lia.
    + rewrite Hat by lia. apply clamped_read. lia.
    + rewrite Hat by lia. reflexivity.
  - intros H. rewrite bool_decide_eq_true_2 by lia. reflexivity.
  - intros H. rewrite bool_decide_eq_false_2 by lia. reflexivity.
Qed.

Lemma blurBackgroundOnly_boundary :
  blurBackgroundOnly
    [Byte.x00; Byte.x00; Byte.x00; Byte.x81; Byte.x00; Byte.x00; Byte.x00; Byte.x80]
    [Byte.x0a; Byte.x0b; Byte.x0c; Byte.x0d; Byte.x0a; Byte.x0b; Byte.x0c; Byte.x0d]
    [Byte.x01; Byte.x02; Byte.x03; Byte.x04; Byte.x01; Byte.x02; Byte.x03; Byte.x04]
    2 1 !! 0%nat = Some Byte.x0a.
Proof.
  pose proof (blurBackgroundOnly_hard_threshold
    [Byte.x00; Byte.x00; Byte.x00; Byte.x81; Byte.x00; Byte.x00; Byte.x00; Byte.x80]
    [Byte.x0a; Byte.x0b; Byte.x0c; Byte.x0d; Byte.x0a; Byte.x0b; Byte.x0c; Byte.x0d]
    [Byte.x01; Byte.x02; Byte.x03; Byte.x04; Byte.x01; Byte.x02; Byte.x03; Byte.x04]
    2 1 eq_refl eq_refl eq_refl) as [_ H].
  exact (proj1 (proj1 (H 0%nat Byte.x81 eq_refl))).
Defined.

Example blurBackgroundOnly_129_128 :
  blurBackgroundOnly
    [Byte.x00; Byte.x00; Byte.x00; Byte.x81; Byte.x00; Byte.x00; Byte.x00; Byte.x80]
    [Byte.x0a; Byte.x0b; Byte.x0c; Byte.x0d; Byte.x0a; Byte.x0b; Byte.x0c; Byte.x0d]
    [Byte.x01; Byte.x02; Byte.x03; Byte.x04; Byte.x01; Byte.x02; Byte.x03; Byte.x04]
    2 1
  = [Byte.x0a; Byte.x0b; Byte.x0c; Byte.xff; Byte.x01; Byte.x02; Byte.x03; Byte.xff].
Proof. vm_compute. reflexivity. Qed.

End ImageProcessingFacts.


(** ** Command history *)
Module CommandHistoryFacts.
Import EditorState CommandHistory.

Lemma with_effects_twice s a b : with_effects (with_effects s a) b = with_effects s b.
Proof. reflexivity. Qed.

Lemma with_layers_twice s a b : with_layers (with_layers s a) b = with_layers s b.
Proof. reflexivity. Qed.

(** Setting one field of the elements with a given key, three times over
    with values [new], [prev], [new], is setting it to [new] once. *)
Lemma map_set_round_trip {A V} (key : A → string) (upd : A → V → A)
    (t : string) (prev new : V) (l : list A) :
  (∀ a v, key (upd a v) = key a) →
  (∀ a v w, upd (upd a v) w = upd a w) →
  let g v := λ a, if decide (key a = t) then upd a v else a in
  map (g new) (map (g prev) (map (g new) l)) = map (g new) l.
Proof.
  intros Hkey Hupd g.
  assert (Hyes : ∀ v x, key x = t → g v x = upd x v).
  { intros v x Hx. unfold g. rewrite decide_True by exact Hx. reflexivity. }
  assert (Hno : ∀ v x, key x ≠ t → g v x = x).
  { intros v x Hx. unfold g. rewrite decide_False by exact Hx. reflexivity. }
  rewrite !map_map. apply map_ext. intros a.
  destruct (decide (key a = t)) as [Ha|Ha].
  - rewrite (Hyes new a Ha).
    rewrite (Hyes prev) by (rewrite Hkey; exact Ha).
    rewrite (Hyes new) by (rewrite !Hkey; exact Ha).
    rewrite !Hupd. reflexivity.
  - rewrite (Hno new a Ha), (Hno prev a Ha), (Hno new a Ha). reflexivity.
Qed.

Lemma filter_other_id_all (t : string) (es : list EffectNode) :
  t ∉ effect_id <$> es → filter (λ e, effect_id e ≠ t) es = es.
Proof.
  induction es as [|e es IH]; intros Hnot; [reflexivity|].
  rewrite fmap_cons in Hnot. apply not_elem_of_cons in Hnot as [Hne Hnot].
  rewrite filter_cons_True by congruence. rewrite IH by exact Hnot. reflexivity.
Qed.

Lemma filter_other_id_idem (t : string) (es : list EffectNode) :
  filter (λ e, effect_id e ≠ t) (filter (λ e, effect_id e ≠ t) es)
  = filter (λ e, effect_id e ≠ t) es.
Proof.
  induction es as [|e es IH]; [reflexivity|].
  destruct (decide (effect_id e ≠ t)) as [Hne|Heq].
  - rewrite (filter_cons_True _ e es) by exact Hne.
    rewrite filter_cons_True by exact Hne. rewrite IH. reflexivity.
  - rewrite (filter_cons_False _ e es) by exact Heq. exact IH.
Qed.

(** C9. The three command types [ADD_LAYER], [REMOVE_LAYER] and
    [SET_BACKGROUND] fall through to the [default] branch: for every state,
    every such command and either direction, [applyCommand] returns the
    state unchanged, so executing, undoing or redoing one through the
    history leaves the editor state as it was. *)
Theorem applyCommand_ignores_layer_list_and_background
    (s : EditorState) (c : Command) (reverse : bool) :
  type c = ADD_LAYER ∨ type c = REMOVE_LAYER ∨ type c = SET_BACKGROUND →
  applyCommand s c reverse = s
  ∧ (∀ h, (execute h c (λ cmd st, applyCommand st cmd false) s).2 = s)
  ∧ applyFn (Some c) reverse s = s.
Proof.
  intros Ht. assert (H : applyCommand s c reverse = s).
  { destruct c as [ty ts p]. cbn in Ht.
    destruct ty; try reflexivity; destruct Ht as [?|[?|?]]; discriminate. }
  split; [exact H|]. split; [|exact H].
  intros h. cbn. destruct c as [ty ts p]. cbn in Ht.
  destruct ty; try reflexivity; destruct Ht as [?|[?|?]]; discriminate.
Qed.

Lemma applyCommand_add_layer_ignored :
  applyCommand (createDefaultEditorState "img" "key")
    (createCommand 0 ADD_LAYER "sticker-1"
       (mkLayer "sticker-1" sticker true false DEFAULT_TRANSFORM ∅)
       (mkLayer "sticker-1" sticker true false DEFAULT_TRANSFORM ∅)) false
  = createDefaultEditorState "img" "key".
Proof.
  exact (proj1 (applyCommand_ignores_layer_list_and_background
    (createDefaultEditorState "img" "key")
    (createCommand 0 ADD_LAYER "sticker-1"
       (mkLayer "sticker-1" sticker true false DEFAULT_TRANSFORM ∅)
       (mkLayer "sticker-1" sticker true false DEFAULT_TRANSFORM ∅))
    false (or_introl eq_refl))).
Defined.

(** In a state that holds two effects with one id, undoing the
    [ADD_EFFECT] that added the second removes both, and the redo brings
    back only the second. *)
Lemma undo_redo_loses_effect_sharing_id :
  let e1 := mkEffect "fx" blur_effect ∅ true in
  let e2 := mkEffect "fx" shadow_effect ∅ true in
  let s0 := with_effects (createDefaultEditorState "img" "key") [e1] in
  let c := createCommand 0 ADD_EFFECT "fx" e2 e2 in
  let s := applyCommand s0 c false in
  effects s = [e1; e2]
  ∧ effects (applyCommand (applyCommand s c true) c false) = [e2]
  ∧ applyCommand (applyCommand s c true) c false ≠ s.
Proof.
  cbv zeta. split; [reflexivity|]. split; [reflexivity|].
  intros H. apply (f_equal (λ st, length (effects st))) in H.
  vm_compute in H. discriminate H.
Qed.

(** Right after a command was executed, undo then redo restores the
    state: for every command [c] executed on a state [s0], where an
    [ADD_EFFECT] adds its effect under the target id and no effect of [s0]
    has that id yet, and a [REMOVE_EFFECT] saved the effect under the target
    id, the state [s] that executing [c] gives satisfies
    [applyCommand (applyCommand s c true) c false = s]. It says nothing of
    a state reached by undoing later commands, where the round trip can
    fail. *)
Lemma undo_redo_round_trip (s0 : EditorState) (c : Command) :
  wellFormed c s0 →
  let s := applyCommand s0 c false in
  applyCommand (applyCommand s c true) c false = s.
Proof.
  intros Hwf s. subst s. destruct c as [ty ts [t prev new]].
  destruct ty; cbn in *; try reflexivity.
  - (* SET_EFFECT *)
    unfold with_effects; cbn. f_equal.
    apply (map_set_round_trip effect_id with_effect_params t prev new);
      reflexivity.
  - (* ADD_EFFECT *)
    destruct Hwf as [Hid Hfresh].
    unfold with_effects; cbn. f_equal.
    rewrite filter_app, filter_cons_False, filter_nil, app_nil_r
      by (intros H; apply H; exact Hid).
    rewrite filter_other_id_all by exact Hfresh. reflexivity.
  - (* REMOVE_EFFECT *)
    unfold with_effects; cbn. f_equal.
    rewrite filter_app, filter_cons_False, filter_nil, app_nil_r
      by (intros H; apply H; exact Hwf).
    apply filter_other_id_idem.
  - (* TOGGLE_EFFECT *)
    unfold with_effects; cbn. f_equal.
    apply (map_set_round_trip effect_id with_enabled t prev new); reflexivity.
  - (* SET_LAYER *)
    unfold with_layers; cbn. f_equal.
    apply (map_set_round_trip layer_id with_layer_params t prev new); reflexivity.
  - (* TOGGLE_LAYER *)
    unfold with_layers; cbn. f_equal.
    apply (map_set_round_trip layer_id with_visible t prev new); reflexivity.
  - (* SET_TRANSFORM *)
    unfold with_layers; cbn. f_equal.
    apply (map_set_round_trip layer_id with_transform t prev new); reflexivity.
Qed.

Lemma undo_redo_round_trip_add_effect :
  let e := mkEffect "fx" blur_effect {[ "radius" := JNum 0.25%float ]} true in
  let c := createCommand 0 ADD_EFFECT "fx" e e in
  let s := applyCommand (createDefaultEditorState "img" "key") c false in
  applyCommand (applyCommand s c true) c false = s.
Proof.
  cbv zeta.
  apply (undo_redo_round_trip (createDefaultEditorState "img" "key")
           (createCommand 0 ADD_EFFECT "fx"
              (mkEffect "fx" blur_effect {[ "radius" := JNum 0.25%float ]} true)
              (mkEffect "fx" blur_effect {[ "radius" := JNum 0.25%float ]} true))).
  split; [reflexivity|]. apply not_elem_of_nil.
Defined.

(** C5 fails on the code. The reverse of [REMOVE_EFFECT] appends the
    effect instead of putting it back in its place, so a state reached by an
    undo need not be one that executing the command under the cursor gives.
    With distinct effect ids throughout: on a state whose effects are
    [before ++ e0 :: after], execute the addition of a fresh effect [e1],
    execute the removal of [e0], and undo the removal. The history is then
    positioned on the addition, with undo enabled, and the effects are
    [before ++ after ++ [e1; e0]]. Undo followed by redo both succeed and
    put the history back where it was, but leave the effects as
    [before ++ after ++ [e0; e1]]: the state prior to the undo is not
    restored. *)
Theorem undo_redo_reorders_effects
    (s0 : EditorState) (before after : list EffectNode) (e0 e1 : EffectNode)
    (t1 t2 : Z) :
  effects s0 = before ++ e0 :: after →
  NoDup (effect_id <$> effects s0) →
  effect_id e1 ∉ effect_id <$> effects s0 →
  let add := createCommand t1 ADD_EFFECT (effect_id e1) e1 e1 in
  let remove := createCommand t2 REMOVE_EFFECT (effect_id e0) e0 e0 in
  let forward := λ c st, applyCommand st c false in
  let r1 := execute empty add forward s0 in
  let r2 := execute r1.1 remove forward r1.2 in
  let r3 := undo r2.1 applyFn r2.2 in
  let h := r3.1.2 in
  let s := r3.2 in
  let r4 := undo h applyFn s in
  let r5 := redo r4.1.2 applyFn r4.2 in
  (wellFormed add s0 ∧ wellFormed remove r1.2)
  ∧ (canUndo h = true ∧ current h = Some add)
  ∧ (r4.1.1 = true ∧ canRedo r4.1.2 = true ∧ r5.1.1 = true ∧ r5.1.2 = h)
  ∧ r5.2 = applyCommand (applyCommand s add true) add false
  ∧ effects s = before ++ after ++ [e1; e0]
  ∧ effects r5.2 = before ++ after ++ [e0; e1]
  ∧ r5.2 ≠ s.
Proof.
  intros Heq Hnd Hfresh. cbv zeta.
  assert (Hne : effect_id e0 ≠ effect_id e1).
  { intros E. apply Hfresh. rewrite Heq, <- E, fmap_app, fmap_cons.
    apply elem_of_app. right. left. }
  rewrite Heq, fmap_app, fmap_cons in Hnd, Hfresh.
  assert (Hf1 : effect_id e1 ∉ effect_id <$> before)
    by (intros H; apply Hfresh, elem_of_app; left; exact H).
  assert (Hf2 : effect_id e1 ∉ effect_id <$> after)
    by (intros H; apply Hfresh, elem_of_app; right; right; exact H).
  apply NoDup_app in Hnd as (_ & Hdis & Hnd').
  apply NoDup_cons in Hnd' as [Hafter _].
  assert (Hbefore : effect_id e0 ∉ effect_id <$> before).
  { intros Hin. apply (Hdis _ Hin). apply list_elem_of_here. }
  set (keep0 := λ x : EffectNode, effect_id x ≠ effect_id e0).
  set (keep1 := λ x : EffectNode, effect_id x ≠ effect_id e1).
  assert (H2 : filter keep0 ((before ++ e0 :: after) ++ [e1]) = before ++ after ++ [e1]).
  { subst keep0. rewrite !filter_app, filter_cons_False by (intros H; apply H; reflexivity).
    rewrite (filter_cons_True _ e1) by (cbn; congruence).
    rewrite filter_nil, !filter_other_id_all by assumption.
    rewrite <- app_assoc. reflexivity. }
  assert (H4 : filter keep1 ((before ++ after ++ [e1]) ++ [e0]) = before ++ after ++ [e0]).
  { subst keep1. rewrite !filter_app, filter_cons_False by (intros H; apply H; reflexivity).
    rewrite (filter_cons_True _ e0) by (cbn; congruence).
    rewrite !filter_nil, !filter_other_id_all by assumption.
    rewrite app_nil_r, <- app_assoc. reflexivity. }
  assert (Hs : effects
                 (applyCommand
                    (applyCommand (applyCommand s0
                       (createCommand t1 ADD_EFFECT (effect_id e1) e1 e1) false)
                       (createCommand t2 REMOVE_EFFECT (effect_id e0) e0 e0) false)
                    (createCommand t2 REMOVE_EFFECT (effect_id e0) e0 e0) true)
               = before ++ after ++ [e1; e0]).
  { cbn. rewrite Heq. fold keep0. rewrite H2, <- !app_assoc. reflexivity. }
  assert (H5 : ∀ s, effects s = before ++ after ++ [e1; e0] →
                    effects (applyCommand
                               (applyCommand s
                                  (createCommand t1 ADD_EFFECT (effect_id e1) e1 e1) true)
                               (createCommand t1 ADD_EFFECT (effect_id e1) e1 e1) false)
                    = before ++ after ++ [e0; e1]).
  { intros s E. cbn. rewrite E. fold keep1.
    replace (before ++ after ++ [e1; e0]) with ((before ++ after ++ [e1]) ++ [e0])
      by (rewrite <- !app_assoc; reflexivity).
    rewrite H4, <- !app_assoc. reflexivity. }
  split; [split; [split; [reflexivity|]|reflexivity]|].
  { rewrite Heq, fmap_app, fmap_cons. exact Hfresh. }
  split; [split; reflexivity|]. split; [repeat split; reflexivity|].
  split; [reflexivity|]. split; [exact Hs|].
  split; [exact (H5 _ Hs)|].
  intros E. apply (f_equal effects) in E.
  change (effects (applyCommand (applyCommand
            (applyCommand
               (applyCommand (applyCommand s0
                  (createCommand t1 ADD_EFFECT (effect_id e1) e1 e1) false)
                  (createCommand t2 REMOVE_EFFECT (effect_id e0) e0 e0) false)
               (createCommand t2 REMOVE_EFFECT (effect_id e0) e0 e0) true)
            (createCommand t1 ADD_EFFECT (effect_id e1) e1 e1) true)
            (createCommand t1 ADD_EFFECT (effect_id e1) e1 e1) false)
          = effects
              (applyCommand
                 (applyCommand (applyCommand s0
                    (createCommand t1 ADD_EFFECT (effect_id e1) e1 e1) false)
                    (createCommand t2 REMOVE_EFFECT (effect_id e0) e0 e0) false)
                 (createCommand t2 REMOVE_EFFECT (effect_id e0) e0 e0) true)) in E.
  rewrite (H5 _ Hs), Hs in E.
  do 2 apply app_inv_head in E. injection E as E _. congruence.
Qed.

Lemma undo_redo_reorders_blur_and_shadow :
  let blur := mkEffect "blur-1" blur_effect ∅ true in
  let shadow := mkEffect "shadow-1" shadow_effect ∅ true in
  let s0 := with_effects (createDefaultEditorState "img" "key") [blur] in
  let add := createCommand 1 ADD_EFFECT "shadow-1" shadow shadow in
  let remove := createCommand 2 REMOVE_EFFECT "blur-1" blur blur in
  let forward := λ c st, applyCommand st c false in
  let r1 := execute empty add forward s0 in
  let r2 := execute r1.1 remove forward r1.2 in
  let r3 := undo r2.1 applyFn r2.2 in
  let r4 := undo r3.1.2 applyFn r3.2 in
  let r5 := redo r4.1.2 applyFn r4.2 in
  (canUndo r3.1.2 = true ∧ current r3.1.2 = Some add)
  ∧ (r4.1.1 = true ∧ canRedo r4.1.2 = true ∧ r5.1.1 = true ∧ r5.1.2 = r3.1.2)
  ∧ effects r3.2 = [shadow; blur]
  ∧ effects r5.2 = [blur; shadow]
  ∧ r5.2 ≠ r3.2.
Proof.
  cbv zeta.
  destruct (undo_redo_reorders_effects
    (with_effects (createDefaultEditorState "img" "key")
       [mkEffect "blur-1" blur_effect ∅ true])
    [] [] (mkEffect "blur-1" blur_effect ∅ true)
    (mkEffect "shadow-1" shadow_effect ∅ true) 1 2 eq_refl)
    as (_ & H2 & H3 & _ & H5 & H6 & H7).
  - apply (bool_decide_unpack _). vm_compute. exact I.
  - apply (bool_decide_unpack _). vm_compute. exact I.
  - cbv zeta in *. split; [exact H2|]. split; [exact H3|].
    split; [exact H5|]. split; [exact H6|exact H7].
Defined.

(** *** The history cursor *)

Section HistoryFacts.
Context {S : Type}.

(** The array and the cursor [execute] leaves, written without the branch
    on the redo tail. *)
Lemma execute_history (h : History) (c : Command) (f : Command → S → S) (st : S) :
  cursor_ok h →
  let l := take (Z.to_nat (currentIndex h + 1)) (commands h) ++ [c] in
  (execute h c f st).1 =
    if bool_decide (Z.of_nat (length l) > 50)
    then mkHistory (tail l) (currentIndex h) 50
    else mkHistory l (currentIndex h + 1) 50.
Proof.
  intros [Hi Hm] l. unfold execute. cbn [fst]. rewrite Hm.
  assert (Hc : (if bool_decide (currentIndex h < Z.of_nat (length (commands h)) - 1)
                then slice0 (commands h) (currentIndex h + 1)
                else commands h)
               = take (Z.to_nat (currentIndex h + 1)) (commands h)).
  { case_bool_decide as Hlt.
    - unfold slice0. destruct (Z.ltb_spec (currentIndex h + 1) 0) as [?|_]; [lia|].
      rewrite Z.min_l by lia. reflexivity.
    - rewrite take_ge by lia. reflexivity. }
  rewrite Hc. fold l.
  replace (currentIndex h + 1 - 1) with (currentIndex h) by lia. reflexivity.
Qed.

Lemma execute_cursor_ok (h : History) (c : Command) (f : Command → S → S) (st : S) :
  cursor_ok h →
  cursor_ok (execute h c f st).1
  ∧ currentIndex (execute h c f st).1
    = Z.of_nat (length (commands (execute h c f st).1)) - 1.
Proof.
  intros Hok. rewrite (execute_history h c f st Hok). destruct Hok as [Hi Hm].
  assert (Hl : Z.of_nat (length (take (Z.to_nat (currentIndex h + 1)) (commands h) ++ [c]))
               = currentIndex h + 2).
  { rewrite length_app, length_take. cbn. lia. }
  case_bool_decide as Hbig; unfold cursor_ok; cbn.
  - rewrite List.length_tl. lia.
  - lia.
Qed.

Lemma undo_cursor_ok (h : History) (f : option Command → bool → S → S) (st : S) :
  cursor_ok h → cursor_ok (undo h f st).1.2.
Proof.
  intros [Hi Hm]. unfold undo, canUndo.
  case_bool_decide as Hu; unfold cursor_ok; cbn; lia.
Qed.

Lemma redo_cursor_ok (h : History) (f : option Command → bool → S → S) (st : S) :
  cursor_ok h → cursor_ok (redo h f st).1.2.
Proof.
  intros [Hi Hm]. unfold redo, canRedo.
  case_bool_decide as Hr; unfold cursor_ok; cbn; lia.
Qed.
End HistoryFacts.

Lemma reachable_cursor_ok (h : History) : reachable h → cursor_ok h.
Proof.
  induction 1 as [|h c _ IH|h _ IH|h _ IH|h _ IH].
  - unfold cursor_ok; cbn; lia.
  - apply execute_cursor_ok, IH.
  - apply undo_cursor_ok, IH.
  - apply redo_cursor_ok, IH.
  - destruct IH as [_ Hm]. unfold cursor_ok, clear; cbn. lia.
Qed.

(** C6. Redo-branch truncation: for every history a program can build and
    every new command, [execute] keeps the commands up to the cursor, drops
    every command after it, appends the new one (shifting the oldest out
    when the log would exceed 50 entries), and right after it [canRedo] is
    false, whatever the callback does. *)
Theorem execute_discards_redo_branch
    {S : Type} (h : History) (c : Command) (f : Command → S → S) (st : S) :
  reachable h →
  let h' := (execute h c f st).1 in
  let kept := take (Z.to_nat (currentIndex h + 1)) (commands h) ++ [c] in
  canRedo h' = false
  ∧ commands h' = (if bool_decide (Z.of_nat (length kept) > 50) then tail kept else kept)
  ∧ (execute h c f st).2 = f c st.
Proof.
  intros Hr h' kept. apply reachable_cursor_ok in Hr.
  destruct (execute_cursor_ok h c f st Hr) as [_ Hlast].
  split; [|split].
  - unfold canRedo. fold h' in Hlast. rewrite Hlast.
    apply bool_decide_eq_false_2. lia.
  - subst h'. rewrite (execute_history h c f st Hr). fold kept.
    case_bool_decide; reflexivity.
  - reflexivity.
Qed.

(** [undo(); redo()] on a history whose cursor stands on command [c]: both
    succeed, the history is back where it was, and the editor state went
    through [applyCommand _ c true] and then [applyCommand _ c false]. *)
Lemma undo_then_redo (h : History) (c : Command) (s : EditorState) :
  cursor_ok h → current h = Some c →
  undo h applyFn s = (true, mkHistory (commands h) (currentIndex h - 1) (maxHistory h),
                      applyCommand s c true)
  ∧ redo (mkHistory (commands h) (currentIndex h - 1) (maxHistory h)) applyFn
      (applyCommand s c true)
    = (true, h, applyCommand (applyCommand s c true) c false).
Proof.
  intros [Hi Hm] Hc.
  assert (H0 : 0 ≤ currentIndex h).
  { unfold current in Hc. case_bool_decide; [assumption|discriminate]. }
  split.
  - unfold undo, canUndo. rewrite bool_decide_eq_true_2 by lia. cbn.
    rewrite Hc. reflexivity.
  - unfold redo, canRedo. cbn. rewrite bool_decide_eq_true_2 by lia. cbn.
    replace (currentIndex h - 1 + 1) with (currentIndex h) by lia.
    assert (Hcur : current (mkHistory (commands h) (currentIndex h) (maxHistory h))
                   = Some c) by exact Hc.
    rewrite Hcur. destruct h; reflexivity.
Qed.

Lemma execute_after_undo_cannot_redo :
  let c := createCommand 0 TOGGLE_EFFECT "fx" true false in
  let f := λ (_ : Command) (u : unit), u in
  let g := λ (_ : option Command) (_ : bool) (u : unit), u in
  let h := (undo (execute (execute empty c f tt).1 c f tt).1 g tt).1.2 in
  canRedo h = true
  ∧ canRedo (execute h c f tt).1 = false
  ∧ commands (execute h c f tt).1 = [c; c].
Proof.
  cbv zeta. split; [reflexivity|].
  destruct (execute_discards_redo_branch
    (undo (execute (execute empty (createCommand 0 TOGGLE_EFFECT "fx" true false)
                      (λ _ (u : unit), u) tt).1
             (createCommand 0 TOGGLE_EFFECT "fx" true false) (λ _ (u : unit), u) tt).1
       (λ _ _ (u : unit), u) tt).1.2
    (createCommand 0 TOGGLE_EFFECT "fx" true false) (λ _ (u : unit), u) tt
    (reach_undo _ (reach_execute _ _ (reach_execute _ _ reach_new))))
    as (Hredo & Hcmds & _).
  split; [exact Hredo|]. rewrite Hcmds. reflexivity.
Defined.

End CommandHistoryFacts.


(** ** Render engine *)
Module RenderEngineFacts.
Import EditorState RenderEngine JsFloat.

Section EngineFacts.
Context {Canvas Bitmap Blob : Type} `{!Canvas2D Canvas Bitmap Blob}.

Lemma applyEffects_app (es1 es2 : list EffectNode) (w h : float) : ∀ ctx : Canvas,
  applyEffects (es1 ++ es2) w h ctx = applyEffects es2 w h (applyEffects es1 w h ctx).
Proof.
  induction es1 as [|e es1 IH]; intros ctx; cbn; [reflexivity|]. apply IH.
Qed.

Lemma applyEffects_skip_disabled (es1 es2 : list EffectNode) (e : EffectNode)
    (w h : float) (ctx : Canvas) :
  enabled e = false →
  applyEffects (es1 ++ e :: es2) w h ctx = applyEffects (es1 ++ es2) w h ctx.
Proof.
  intros He. rewrite !applyEffects_app. cbn. rewrite He. reflexivity.
Qed.

(** Toggling off every effect with an id, all enabled so far, renders as
    removing them does. *)
Lemma applyEffects_toggle_as_remove (effectId : string) (w h : float) :
  ∀ (es : list EffectNode) (ctx : Canvas),
  (∀ e, e ∈ es → effect_id e = effectId → enabled e = true) →
  applyEffects
    (map (λ e, if decide (effect_id e = effectId)
               then with_enabled e (negb (enabled e)) else e) es) w h ctx
  = applyEffects (filter (λ e, effect_id e ≠ effectId) es) w h ctx.
Proof.
  induction es as [|e es IH]; intros ctx Hall; [reflexivity|].
  assert (Hrest : ∀ e', e' ∈ es → effect_id e' = effectId → enabled e' = true).
  { intros e' Hin. apply Hall. apply list_elem_of_further, Hin. }
  cbn [map]. destruct (decide (effect_id e = effectId)) as [Heq|Hne].
  - rewrite filter_cons_False by (intros Hn; apply Hn, Heq).
    cbn. rewrite (Hall e (list_elem_of_here _ _) Heq). cbn. apply IH, Hrest.
  - rewrite filter_cons_True by exact Hne. cbn.
    destruct (enabled e); cbn; apply IH, Hrest.
Qed.

(** Effects that are off may as well not be in the list. *)
Lemma applyEffects_filter_disabled (effectId : string) (w h : float) :
  ∀ (es : list EffectNode) (ctx : Canvas),
  (∀ e, e ∈ es → effect_id e = effectId → enabled e = false) →
  applyEffects (filter (λ e, effect_id e ≠ effectId) es) w h ctx
  = applyEffects es w h ctx.
Proof.
  induction es as [|e es IH]; intros ctx Hall; [reflexivity|].
  assert (Hrest : ∀ e', e' ∈ es → effect_id e' = effectId → enabled e' = false).
  { intros e' Hin. apply Hall. apply list_elem_of_further, Hin. }
  destruct (decide (effect_id e = effectId)) as [Heq|Hne].
  - rewrite filter_cons_False by (intros Hn; apply Hn, Heq).
    cbn. rewrite (Hall e (list_elem_of_here _ _) Heq). cbn. apply IH, Hrest.
  - rewrite filter_cons_True by exact Hne. cbn.
    destruct (enabled e); cbn; apply IH, Hrest.
Qed.

(** No layer painter looks at the effect list: [renderLayer] receives the
    state but reads only the layer. *)
Lemma renderLayers_with_effects (ls : list Layer) (s : EditorState)
    (es : list EffectNode) (originalImage : Bitmap) (alphaMask : option Bitmap)
    (w h sc : float) : ∀ ctx : Canvas,
  renderLayers ls (with_effects s es) originalImage alphaMask w h sc ctx
  = renderLayers ls s originalImage alphaMask w h sc ctx.
Proof.
  induction ls as [|l ls IH]; intros ctx; cbn; [reflexivity|]. apply IH.
Qed.

Lemma render_toggle_as_remove (s : EditorState) (effectId : string)
    (originalImage : Bitmap) (alphaMask : option Bitmap)
    (options : RenderOptions) (ctx : Canvas) :
  (∀ e, e ∈ effects s → effect_id e = effectId → enabled e = true) →
  render (toggleEffect s effectId) originalImage alphaMask options ctx
  = render (removeEffect s effectId) originalImage alphaMask options ctx.
Proof.
  intros Hall. unfold render, toggleEffect, removeEffect.
  cbn [effects layers previewQuality with_effects].
  rewrite !renderLayers_with_effects.
  rewrite (applyEffects_toggle_as_remove effectId _ _ (effects s)) by exact Hall.
  reflexivity.
Qed.

Lemma render_removeEffect_disabled (s : EditorState) (effectId : string)
    (originalImage : Bitmap) (alphaMask : option Bitmap)
    (options : RenderOptions) (ctx : Canvas) :
  (∀ e, e ∈ effects s → effect_id e = effectId → enabled e = false) →
  render (removeEffect s effectId) originalImage alphaMask options ctx
  = render s originalImage alphaMask options ctx.
Proof.
  intros Hall. unfold render, removeEffect.
  cbn [effects layers previewQuality with_effects].
  rewrite renderLayers_with_effects.
  rewrite (applyEffects_filter_disabled effectId _ _ (effects s)) by exact Hall.
  reflexivity.
Qed.

(** C8. Disabled effects are no-ops: if the effect list of [s] holds a
    disabled effect [e], rendering [s] gives the same surface and the same
    blob as rendering the state with [e] taken out of the list, for every
    source bitmap, mask, options and canvas; and [toggleEffect] keeps every
    effect in place, flipping [enabled] on those with the given id and
    leaving every other field and effect as it was. *)
Theorem disabled_effect_is_noop (s : EditorState) (es1 es2 : list EffectNode)
    (e : EffectNode) (originalImage : Bitmap) (alphaMask : option Bitmap)
    (options : RenderOptions) (ctx : Canvas) :
  effects s = es1 ++ e :: es2 →
  enabled e = false →
  render s originalImage alphaMask options ctx
  = render (with_effects s (es1 ++ es2)) originalImage alphaMask options ctx
  ∧ ∀ effectId : string,
      length (effects (toggleEffect s effectId)) = length (effects s)
      ∧ layers (toggleEffect s effectId) = layers s
      ∧ ∀ (i : nat) (x : EffectNode), effects s !! i = Some x →
          effects (toggleEffect s effectId) !! i
          = Some (if decide (effect_id x = effectId)
                  then mkEffect (effect_id x) (effect_type x) (effect_params x)
                         (negb (enabled x))
                  else x).
Proof.
  intros Hes He. split.
  - unfold render. cbn [effects layers previewQuality with_effects].
    rewrite renderLayers_with_effects.
    rewrite Hes, (applyEffects_skip_disabled es1 es2 e) by exact He.
    reflexivity.
  - intros effectId. unfold toggleEffect. cbn. split; [apply length_map|].
    split; [reflexivity|]. intros i x Hx.
    change (map ?f ?l) with (f <$> l). rewrite list_lookup_fmap, Hx. reflexivity.
Qed.
End EngineFacts.

Lemma disabled_blur_is_noop :
  let e := mkEffect "fx" blur_effect {[ "radius" := JNum 0.25%float ]} false in
  let s := with_effects (createDefaultEditorState "img" "key") [e] in
  render s (640%float, 480%float) None (mkOptions preview (Some png) None) []
  = render (with_effects s []) (640%float, 480%float) None
      (mkOptions preview (Some png) None) [].
Proof.
  cbv zeta.
  exact (proj1 (disabled_effect_is_noop
    (with_effects (createDefaultEditorState "img" "key")
       [mkEffect "fx" blur_effect {[ "radius" := JNum 0.25%float ]} false])
    [] [] (mkEffect "fx" blur_effect {[ "radius" := JNum 0.25%float ]} false)
    (640%float, 480%float) None (mkOptions preview (Some png) None) []
    eq_refl eq_refl)).
Defined.

(** The default state renders the background and the subject, in that
    order, and an enabled blur then runs the stack blur. *)
Example render_default_with_blur :
  (render
     (with_effects (createDefaultEditorState "img" "key")
        [mkEffect "fx" blur_effect {[ "radius" := JNum 0.25%float ]} true])
     (640%float, 480%float) None (mkOptions preview (Some png) None) []).2
  = ["save"; "translate"; "rotate"; "scale"; "renderBackground"; "restore";
     "save"; "translate"; "rotate"; "scale"; "renderSubject"; "restore";
     "stackBlur"].
Proof. vm_compute. reflexivity. Qed.

(** *** The filter pass *)

Lemma number_insert_other (params : Params) (k k' : string) (v : JsValue) :
  k ≠ k' → number (<[k := v]> params) k' = number params k'.
Proof. intros Hk. unfold number. rewrite lookup_insert_ne by exact Hk. reflexivity. Qed.

(** The engine's filter never reads the [temperature] parameter. *)
Lemma applyFilterData_ignores_temperature (params : Params) (t : JsValue)
    (data : list byte) :
  applyFilterData (<["temperature" := t]> params) data = applyFilterData params data.
Proof.
  unfold applyFilterData. rewrite !number_insert_other by discriminate. reflexivity.
Qed.

Section FilterLoopFacts.
Variables brightness contrast saturation : float.

#[local] Abbreviation filterPixel := (filterPixel brightness contrast saturation).
#[local] Abbreviation filterLoop := (filterLoop brightness contrast saturation).

Lemma filterPixel_length i data : length (filterPixel i data) = length data.
Proof. unfold RenderEngine.filterPixel. rewrite !length_insert. reflexivity. Qed.

Lemma filterPixel_other i data j :
  (j < i ∨ i + 3 ≤ j)%nat → filterPixel i data !! j = data !! j.
Proof.
  intros Hj. unfold RenderEngine.filterPixel.
  rewrite !list_lookup_insert_ne by lia. reflexivity.
Qed.

(** The bytes written for a pixel depend on that pixel's bytes only. *)
Lemma filterPixel_local i X Y k :
  length X = length Y → (∀ j, (i ≤ j)%nat → X !! j = Y !! j) →
  filterPixel i X !! (i + k)%nat = filterPixel i Y !! (i + k)%nat.
Proof.
  intros Hlen Hsame. unfold RenderEngine.filterPixel, read.
  rewrite !(Hsame i), !(Hsame (i + 1)%nat), !(Hsame (i + 2)%nat) by lia.
  rewrite !list_lookup_insert, !length_insert, Hlen, (Hsame (i + k)%nat) by lia.
  reflexivity.
Qed.

Lemma filterLoop_length fuel : ∀ i data, length (filterLoop fuel i data) = length data.
Proof.
  induction fuel as [|fuel IH]; intros i data; cbn; [reflexivity|].
  case_bool_decide; [|reflexivity]. rewrite IH. apply filterPixel_length.
Qed.

Lemma filterLoop_before fuel : ∀ i data j,
  (j < i)%nat → filterLoop fuel i data !! j = data !! j.
Proof.
  induction fuel as [|fuel IH]; intros i data j Hj; cbn; [reflexivity|].
  case_bool_decide; [|reflexivity].
  rewrite IH by lia. apply filterPixel_other. lia.
Qed.

(** The loop transforms the pixel [m] places after its start by the loop
    body applied to the buffer it started from. *)
Lemma filterLoop_pixel fuel : ∀ i data m k,
  (m < fuel)%nat → (k < 4)%nat → (i + 4 * m + 3 < length data)%nat →
  filterLoop fuel i data !! (i + 4 * m + k)%nat
  = filterPixel (i + 4 * m) data !! (i + 4 * m + k)%nat.
Proof.
  induction fuel as [|fuel IH]; intros i data m k Hm Hk Hlen; [lia|].
  cbn [RenderEngine.filterLoop]. rewrite bool_decide_eq_true_2 by lia.
  destruct m as [|m].
  - rewrite Nat.mul_0_r, Nat.add_0_r. apply filterLoop_before. lia.
  - replace (i + 4 * S m)%nat with (i + 4 + 4 * m)%nat by lia.
    rewrite IH by (rewrite ?filterPixel_length; lia).
    apply filterPixel_local; [apply filterPixel_length|].
    intros j Hj. apply filterPixel_other. lia.
Qed.
End FilterLoopFacts.

(** What the engine's filter pass does to a buffer of whole pixels: every
    pixel is transformed on its own by the loop body (brightness, linear
    contrast, saturation, clamp), which leaves the alpha byte alone. *)
Lemma applyFilterData_pixel (params : Params) (data : list byte) (p k : nat) :
  (p * 4 + 3 < length data)%nat → (k < 4)%nat →
  applyFilterData params data !! (p * 4 + k)%nat
  = RenderEngine.filterPixel (1 + number params "brightness")
      (1 + number params "contrast") (1 + number params "saturation")
      (p * 4) data !! (p * 4 + k)%nat
  ∧ applyFilterData params data !! (p * 4 + 3)%nat = data !! (p * 4 + 3)%nat.
Proof.
  intros Hp Hk. unfold applyFilterData.
  pose proof (filterLoop_pixel (1 + number params "brightness")
    (1 + number params "contrast") (1 + number params "saturation")
    (length data) 0 data p) as H.
  replace (0 + 4 * p)%nat with (p * 4)%nat in H by lia.
  split.
  - apply H; lia.
  - rewrite H by lia. apply filterPixel_other. lia.
Qed.

(** C7 fails on the render engine. Its filter pass multiplies by
    [1 + contrast], not by the square, and has no temperature step: with
    temperature 1 the grey pixel (100, 100, 100) stays as it is where the
    stated formulas give (130, 100, 70), and with contrast 1 the pixel
    (160, 160, 160) becomes (192, 192, 192) where they give white. *)
Theorem applyFilter_linear_contrast_and_no_temperature :
  (∀ params t data,
     applyFilterData (<["temperature" := t]> params) data
     = applyFilterData params data)
  ∧ applyFilterData
      {[ "brightness" := JNum 0; "contrast" := JNum 0; "saturation" := JNum 0;
         "temperature" := JNum 1 ]}
      ["100"; "100"; "100"; "255"]%byte
    = ["100"; "100"; "100"; "255"]%byte
  ∧ FilterEffects.specFilterBytes 0 0 0 1 "100" "100" "100"
    = ("130", "100", "070")%byte
  ∧ applyFilterData
      {[ "brightness" := JNum 0; "contrast" := JNum 1; "saturation" := JNum 0;
         "temperature" := JNum 0 ]}
      ["160"; "160"; "160"; "255"]%byte
    = ["192"; "192"; "192"; "255"]%byte
  ∧ FilterEffects.specFilterBytes 0 1 0 0 "160" "160" "160"
    = ("255", "255", "255")%byte.
Proof.
  split; [exact applyFilterData_ignores_temperature|].
  repeat split; vm_compute; reflexivity.
Qed.

End RenderEngineFacts.


(** ** Worker pool *)
Module WorkerPoolFacts.
Import WorkerPool.

(** *** The slot array keeps its shape *)

Lemma processNext_shape (p : Pool) :
  length (workers (processNext p)) = length (workers p)
  ∧ initialized (processNext p) = initialized p.
Proof.
  unfold processNext. repeat case_match; cbn; rewrite ?length_insert; auto.
Qed.

Lemma releaseWorker_shape (slot : nat) (p : Pool) :
  length (workers (releaseWorker slot p)) = length (workers p)
  ∧ initialized (releaseWorker slot p) = initialized p.
Proof.
  unfold releaseWorker.
  destruct (processNext_shape
    (with_workers p (alter (λ w, mkWorker (id w) (worker w) false None) slot (workers p))))
    as [Hl Hi].
  rewrite Hl, Hi. cbn. rewrite length_alter. auto.
Qed.

Lemma readResolved_shape (k : nat) (p : Pool) :
  length (workers (readResolved k p)) = length (workers p)
  ∧ initialized (readResolved k p) = initialized p.
Proof. unfold readResolved. repeat case_match; cbn; auto. Qed.

Lemma readRejected_shape (k : nat) (p : Pool) :
  length (workers (readRejected k p)) = length (workers p)
  ∧ initialized (readRejected k p) = initialized p.
Proof.
  unfold readRejected. repeat case_match; auto.
  match goal with |- context [releaseWorker ?s ?q] =>
    destruct (releaseWorker_shape s q) as [Hl Hi] end.
  rewrite Hl, Hi. cbn. auto.
Qed.

Lemma cancelJob_shape (id_ : JobId) (p : Pool) :
  length (workers (cancelJob id_ p)) = length (workers p)
  ∧ initialized (cancelJob id_ p) = initialized p.
Proof.
  unfold cancelJob. cbn. repeat case_match; cbn; auto.
  match goal with |- context [processNext ?q] =>
    destruct (processNext_shape q) as [Hl Hi] end.
  rewrite Hl, Hi. cbn. rewrite length_insert. auto.
Qed.

Lemma handleMessage_shape (workerId : nat) (data : WorkerResponse) (p : Pool) :
  length (workers (handleMessage workerId data p)) = length (workers p)
  ∧ initialized (handleMessage workerId data p) = initialized p.
Proof.
  unfold handleMessage. repeat case_match; cbn; auto;
    match goal with |- context [releaseWorker ?s ?q] =>
      destruct (releaseWorker_shape s q) as [Hl Hi] end;
    rewrite Hl, Hi; cbn; auto.
Qed.

Lemma init_slots_ok (p : Pool) : slots_ok p → slots_ok (init p) ∧ initialized (init p) = true.
Proof.
  intros [Hempty Hlen]. unfold init.
  destruct (initialized p) eqn:Hi.
  - split; [split; [congruence|exact Hlen]|exact Hi].
  - rewrite (Hempty eq_refl) in *.
    split; [split; [discriminate|]|reflexivity].
    cbn. rewrite (Hempty eq_refl). cbn. unfold MAX_CONCURRENCY. lia.
Qed.

Lemma addJob_slots_ok (job : WorkerJob) (p : Pool) : slots_ok p → slots_ok (addJob job p).
Proof.
  intros Hok. unfold addJob.
  assert (Hq : slots_ok (if initialized p then p else init p)
               ∧ initialized (if initialized p then p else init p) = true).
  { destruct (initialized p) eqn:Hi; [split; assumption|].
    assert (H := init_slots_ok p Hok). unfold init in *. rewrite Hi in *. exact H. }
  destruct Hq as [[_ Hlen] Hi].
  match goal with |- slots_ok (processNext ?q) =>
    destruct (processNext_shape q) as [Hl Hi'] end.
  split.
  - rewrite Hi'. cbn. rewrite Hi. discriminate.
  - rewrite Hl. exact Hlen.
Qed.

Lemma step_slots_ok (p : Pool) (e : Event) : slots_ok p → slots_ok (step p e).
Proof.
  intros Hok. destruct e as [job|id_|workerId data|k|k]; cbn [step].
  - apply addJob_slots_ok, Hok.
  - destruct (cancelJob_shape id_ p) as [Hl Hi], Hok as [He Hlen].
    split; [rewrite Hi; intros H; apply length_zero_iff_nil;
            rewrite Hl, (He H); reflexivity|rewrite Hl; exact Hlen].
  - destruct (handleMessage_shape workerId data p) as [Hl Hi], Hok as [He Hlen].
    split; [rewrite Hi; intros H; apply length_zero_iff_nil;
            rewrite Hl, (He H); reflexivity|rewrite Hl; exact Hlen].
  - destruct (readResolved_shape k p) as [Hl Hi], Hok as [He Hlen].
    split; [rewrite Hi; intros H; apply length_zero_iff_nil;
            rewrite Hl, (He H); reflexivity|rewrite Hl; exact Hlen].
  - destruct (readRejected_shape k p) as [Hl Hi], Hok as [He Hlen].
    split; [rewrite Hi; intros H; apply length_zero_iff_nil;
            rewrite Hl, (He H); reflexivity|rewrite Hl; exact Hlen].
Qed.

Lemma run_snoc (es : list Event) (e : Event) (p : Pool) :
  run (es ++ [e]) p = step (run es p) e.
Proof. unfold run. rewrite foldl_snoc. reflexivity. Qed.

Lemma run_slots_ok (es : list Event) : slots_ok (run es new).
Proof.
  induction es as [|e es IH] using rev_ind.
  - split; [reflexivity|cbn; lia].
  - rewrite run_snoc. apply step_slots_ok, IH.
Qed.

Lemma inFlight_le_slots (p : Pool) : (length (inFlight p) ≤ length (workers p))%nat.
Proof.
  unfold inFlight. induction (workers p) as [|w ws IH]; cbn; [lia|].
  destruct (if busy w then currentJobId w else None); cbn; lia.
Qed.

(** *** With every slot busy nothing is dispatched *)

Lemma no_idle_slot (ws : list WorkerWrapper) :
  Forall (λ w, busy w = true) ws → list_find (λ w, busy w = false) ws = None.
Proof.
  intros H. apply list_find_None. eapply Forall_impl; [exact H|].
  intros w Hw. cbn in *. congruence.
Qed.

Lemma processNext_full (p : Pool) :
  Forall (λ w, busy w = true) (workers p) → processNext p = p.
Proof. intros H. unfold processNext. rewrite (no_idle_slot _ H). reflexivity. Qed.

Lemma addJob_full (job : WorkerJob) (p : Pool) :
  initialized p = true → Forall (λ w, busy w = true) (workers p) →
  addJob job p = with_queue p (queue p ++ [job]).
Proof.
  intros Hi Hb. unfold addJob. rewrite Hi. apply processNext_full. exact Hb.
Qed.

Lemma step_holds_slots (p : Pool) (e : Event) :
  initialized p = true → Forall (λ w, busy w = true) (workers p) → holdsSlots e →
  workers (step p e) = workers p
  ∧ initialized (step p e) = true
  ∧ ∃ more, queue (step p e) = queue p ++ more.
Proof.
  intros Hi Hb He. destruct e as [job|id_|workerId data|k|k]; cbn in He; try contradiction.
  - cbn [step]. rewrite (addJob_full job p Hi Hb). cbn. eauto.
  - destruct data; try contradiction; cbn [step]; unfold handleMessage;
      repeat case_match; cbn; (split; [reflexivity|split; [exact Hi|]]);
      exists []; rewrite app_nil_r; reflexivity.
  - cbn [step]. unfold readResolved.
    repeat case_match; cbn; (split; [reflexivity|split; [exact Hi|]]);
      exists []; rewrite app_nil_r; reflexivity.
Qed.

Lemma run_addJobs_full (jobs : list WorkerJob) : ∀ p : Pool,
  initialized p = true → Forall (λ w, busy w = true) (workers p) →
  workers (run (AddJob <$> jobs) p) = workers p
  ∧ queue (run (AddJob <$> jobs) p) = queue p ++ jobs.
Proof.
  induction jobs as [|job jobs IH]; intros p Hi Hb.
  - cbn. rewrite app_nil_r. auto.
  - cbn [fmap list_fmap run foldl step]. rewrite (addJob_full job p Hi Hb).
    destruct (IH (with_queue p (queue p ++ [job])) Hi Hb) as [Hw Hq].
    unfold run in Hw, Hq. rewrite Hw, Hq. cbn. rewrite <- app_assoc. auto.
Qed.

(** The scheduler hands the head of the queue to the first idle slot. *)
Lemma processNext_fifo (p : Pool) (slot : nat) (w : WorkerWrapper)
    (job : WorkerJob) (rest : list WorkerJob) :
  list_find (λ w, busy w = false) (workers p) = Some (slot, w) →
  queue p = job :: rest →
  queue (processNext p) = rest
  ∧ workers (processNext p) !! slot
    = Some (mkWorker (id w) (worker w) true (Some (job_id job)))
  ∧ activeJobs (processNext p) !! job_id job = Some job.
Proof.
  intros Hf Hq. unfold processNext. rewrite Hf, Hq. cbn.
  split; [reflexivity|]. split; [|apply lookup_insert_eq].
  apply list_find_Some in Hf as (Hlk & _ & _).
  apply list_lookup_insert_eq. eapply lookup_lt_Some, Hlk.
Qed.

(** Submitting a batch to a fresh pool: the first [MAX_CONCURRENCY] jobs
    take the slots, in order, and the rest wait in submission order. *)
Lemma run_addJobs_new (jobs : list WorkerJob) :
  inFlight (run (AddJob <$> jobs) new) = job_id <$> take MAX_CONCURRENCY jobs
  ∧ queue (run (AddJob <$> jobs) new) = drop MAX_CONCURRENCY jobs.
Proof.
  destruct jobs as [|j1 [|j2 rest]]; [split; reflexivity..|].
  change (AddJob <$> j1 :: j2 :: rest) with ([AddJob j1; AddJob j2] ++ (AddJob <$> rest)).
  unfold run. rewrite foldl_app.
  set (p2 := foldl step new [AddJob j1; AddJob j2]).
  assert (Hw : workers p2 = [mkWorker 0 0 true (Some (job_id j1));
                             mkWorker 1 1 true (Some (job_id j2))]) by reflexivity.
  assert (Hq : queue p2 = []) by reflexivity.
  assert (Hi : initialized p2 = true) by reflexivity.
  assert (Hb : Forall (λ w, busy w = true) (workers p2)).
  { rewrite Hw. repeat constructor. }
  destruct (run_addJobs_full rest p2 Hi Hb) as [Hw' Hq'].
  unfold run in Hw', Hq'. unfold inFlight. rewrite Hw', Hq', Hw, Hq.
  split; reflexivity.
Qed.

(** What the slot records show: after every sequence of [addJob] and
    [cancelJob] calls, worker messages and settled file reads, the job ids
    held by busy slot records number at most [MAX_CONCURRENCY] = 2; a batch
    submitted to a fresh pool fills the slots with its first two jobs and
    queues the rest in submission order; and while every slot is busy, an
    event that frees no slot leaves the slots as they are and takes nothing
    out of the queue; when a slot is idle, the scheduler gives it the job
    at the head of the queue. A slot record can be marked idle while the
    job it was given is still in process, so this does not bound the jobs
    in process. *)
Lemma slot_records_bounded_by_MAX_CONCURRENCY :
  MAX_CONCURRENCY = 2%nat
  ∧ (∀ events, (length (inFlight (run events new)) ≤ MAX_CONCURRENCY)%nat)
  ∧ (∀ jobs,
       inFlight (run (AddJob <$> jobs) new) = job_id <$> take MAX_CONCURRENCY jobs
       ∧ queue (run (AddJob <$> jobs) new) = drop MAX_CONCURRENCY jobs)
  ∧ (∀ p e,
       initialized p = true → Forall (λ w, busy w = true) (workers p) →
       holdsSlots e →
       workers (step p e) = workers p
       ∧ ∃ more, queue (step p e) = queue p ++ more)
  ∧ (∀ p slot w job rest,
       list_find (λ w, busy w = false) (workers p) = Some (slot, w) →
       queue p = job :: rest →
       queue (processNext p) = rest
       ∧ workers (processNext p) !! slot
         = Some (mkWorker (id w) (worker w) true (Some (job_id job)))).
Proof.
  split; [reflexivity|]. split; [|split; [|split]].
  - intros events. etransitivity; [apply inFlight_le_slots|].
    apply run_slots_ok.
  - apply run_addJobs_new.
  - intros p e Hi Hb He.
    destruct (step_holds_slots p e Hi Hb He) as (Hw & _ & Hq). auto.
  - intros p slot w job rest Hf Hq.
    destruct (processNext_fifo p slot w job rest Hf Hq) as (H1 & H2 & _). auto.
Qed.

(** C1 fails on the code. Submit four jobs and cancel the first while
    its file is still being read: the third takes the reset slot 0 and the
    fourth waits. When the read of the cancelled job then fails, the
    suspended [processNext] releases slot 0, which by then belongs to the
    third job, and the scheduler starts the fourth on it. No job has
    completed or failed, yet the queue is empty: three jobs, none of them
    cancelled, are started and unfinished, one more than [MAX_CONCURRENCY];
    [getActiveCount] is 3 while the slot records show 2. Once the reads
    settle all three files are posted to workers, two of them to the worker
    of slot 0. *)
Theorem backpressure_broken_by_failed_read_of_cancelled_job :
  let A := mkJob "A" 1 in
  let B := mkJob "B" 2 in
  let C := mkJob "C" 3 in
  let D := mkJob "D" 4 in
  let before := run [AddJob A; AddJob B; AddJob C; AddJob D; CancelJob "A"] new in
  let p := step before (ReadRejected 0) in
  let q := run [ReadResolved 0; ReadResolved 0; ReadResolved 0] p in
  (inFlight before = ["C"; "B"] ∧ queue before = [D]
   ∧ reading before = [(0, A); (1, B); (0, C)]%nat
   ∧ activeJobs before !! "A" = None)
  ∧ trace p = trace before ++ [OnError A "Failed to read file"; OnStart D]
  ∧ (queue p = [] ∧ inFlight p = ["D"; "B"])
  ∧ (WorkerPoolObservations.running (trace p) = [B; C; D]
     ∧ (MAX_CONCURRENCY < length (WorkerPoolObservations.running (trace p)))%nat)
  ∧ (activeJobs p !! "B" = Some B ∧ activeJobs p !! "C" = Some C
     ∧ activeJobs p !! "D" = Some D
     ∧ getActiveCount p = 3%nat ∧ (MAX_CONCURRENCY < getActiveCount p)%nat)
  ∧ (WorkerPoolObservations.posted (trace q) = [(1, 2); (2, 3); (2, 4)]%nat
     ∧ WorkerPoolObservations.running (trace q) = [B; C; D]
     ∧ WorkerPoolObservations.handles q = [2; 1]%nat).
Proof.
  cbv zeta. unfold MAX_CONCURRENCY.
  repeat match goal with |- _ ∧ _ => split end;
    first [vm_compute; reflexivity | vm_compute; lia].
Qed.

(** *** Cancellation *)

Lemma Forall_filter_other_id (id_ : JobId) (q : list WorkerJob) :
  Forall (λ job, job_id job ≠ id_) (filter (λ job, job_id job ≠ id_) q).
Proof. apply Forall_forall. intros job Hin. apply list_elem_of_filter in Hin. tauto. Qed.

Lemma processNext_keeps_out (id_ : JobId) (p : Pool) :
  activeJobs p !! id_ = None →
  Forall (λ job, job_id job ≠ id_) (queue p) →
  activeJobs (processNext p) !! id_ = None
  ∧ Forall (λ job, job_id job ≠ id_) (queue (processNext p)).
Proof.
  intros Ha Hq. unfold processNext.
  destruct (list_find _ _) as [[slot w]|]; [|auto].
  destruct (queue p) as [|job rest] eqn:E; [rewrite E; auto|].
  apply Forall_cons in Hq as [Hj Hq]. cbn. split; [|exact Hq].
  rewrite lookup_insert_ne by exact Hj. exact Ha.
Qed.

(** After [cancelJob id] returns, no queued job and no active job carries
    the id. *)
Lemma cancelJob_removes (id_ : JobId) (p : Pool) :
  activeJobs (cancelJob id_ p) !! id_ = None
  ∧ Forall (λ job, job_id job ≠ id_) (queue (cancelJob id_ p)).
Proof.
  unfold cancelJob. cbn.
  destruct (activeJobs p !! id_) eqn:Ha; cbn;
    [|split; [exact Ha|apply Forall_filter_other_id]].
  destruct (list_find _ _) as [[slot found]|]; cbn.
  - apply processNext_keeps_out; cbn;
      [apply lookup_delete_eq|apply Forall_filter_other_id].
  - split; [apply lookup_delete_eq|apply Forall_filter_other_id].
Qed.

(** Cancelling a job that a slot holds tears the slot's worker down,
    creates a fresh one, leaves the slot idle and runs the scheduler. *)
Lemma cancelJob_resets_slot (id_ : JobId) (p : Pool) (job : WorkerJob)
    (slot : nat) (w : WorkerWrapper) :
  activeJobs p !! id_ = Some job →
  list_find (λ w, currentJobId w = Some id_) (workers p) = Some (slot, w) →
  ∃ p', cancelJob id_ p = processNext p'
    ∧ workers p' = <[slot := mkWorker (id w) (created p) false None]> (workers p)
    ∧ trace p' = trace p ++ [Terminate (worker w); NewWorker (created p);
                             PostMessage (created p) init_msg].
Proof.
  intros Ha Hf. unfold cancelJob. cbn. rewrite Ha. cbn. rewrite Hf.
  eexists. split; [reflexivity|]. cbn. auto.
Qed.

(** A message from a slot that holds no job, or whose job is no longer
    active, is dropped. *)
Lemma handleMessage_stray (workerId : nat) (data : WorkerResponse) (p : Pool)
    (slot : nat) (w : WorkerWrapper) :
  list_find (λ w, id w = workerId) (workers p) = Some (slot, w) →
  currentJobId w = None ∨ (∃ j, currentJobId w = Some j ∧ activeJobs p !! j = None) →
  handleMessage workerId data p = p.
Proof.
  intros Hf Hw. unfold handleMessage. rewrite Hf.
  destruct Hw as [Hn|(j & Hj & Ha)].
  - rewrite Hn. reflexivity.
  - rewrite Hj. cbn. case_bool_decide; [reflexivity|]. rewrite Ha. reflexivity.
Qed.

(** C4 fails on the code. A job cancelled while its file is still being
    read is gone from the queue, the map and the slots, and its slot was
    reset; but the suspended [processNext] still runs for it. If the read
    fails, the job's error callback fires after the cancellation. If it
    succeeds, the buffer goes to the fresh worker of the slot, which by
    then runs the next job: the result that comes back is reported as that
    job's. *)
Theorem cancelled_job_callback_after_cancel :
  let A := mkJob "A" 1 in
  let B := mkJob "B" 2 in
  let C := mkJob "C" 3 in
  let p1 := run [AddJob A; CancelJob "A"] new in
  let p2 := run [AddJob A; AddJob B; AddJob C; CancelJob "A"] new in
  (activeJobs p1 !! "A" = None ∧ queue p1 = [] ∧ inFlight p1 = []
   ∧ trace p1 = [NewWorker 0; PostMessage 0 init_msg;
                 NewWorker 1; PostMessage 1 init_msg;
                 OnStart A;
                 Terminate 0; NewWorker 2; PostMessage 2 init_msg])
  ∧ trace (step p1 (ReadRejected 0))
    = trace p1 ++ [OnError A "Failed to read file"]
  ∧ (inFlight p2 = ["C"; "B"] ∧ reading p2 = [(0, A); (1, B); (0, C)]%nat)
  ∧ trace (run [ReadResolved 0; Message 0 (complete 77)] p2)
    = trace p2 ++ [PostMessage 2 (process_msg (file A)); OnComplete C 77].
Proof. cbv zeta. repeat split; vm_compute; reflexivity. Qed.

(** *** A failed read *)

Lemma processNext_leaked (id_ : JobId) (p : Pool) :
  leaked id_ p → leaked id_ (processNext p).
Proof.
  intros (Ha & Hw & Hq). unfold processNext.
  destruct (list_find _ _) as [[slot w]|]; [|repeat split; assumption].
  destruct (queue p) as [|job rest] eqn:E; [repeat split; rewrite ?E; assumption|].
  apply Forall_cons in Hq as [Hj Hq]. repeat split; cbn.
  - rewrite lookup_insert_ne by exact Hj. exact Ha.
  - apply Forall_insert; [exact Hw|]. cbn. congruence.
  - exact Hq.
Qed.

Lemma releaseWorker_leaked (id_ : JobId) (slot : nat) (p : Pool) :
  leaked id_ p → leaked id_ (releaseWorker slot p).
Proof.
  intros (Ha & Hw & Hq). apply processNext_leaked. repeat split; cbn; auto.
  apply Forall_alter; [exact Hw|]. intros; cbn; discriminate.
Qed.

Lemma init_leaked (id_ : JobId) (p : Pool) : leaked id_ p → leaked id_ (init p).
Proof.
  intros (Ha & Hw & Hq). unfold init. destruct (initialized p); [repeat split; assumption|].
  repeat split; cbn; auto.
  repeat (apply Forall_app_2; [|repeat constructor; cbn; discriminate]). exact Hw.
Qed.

Lemma step_leaked (id_ : JobId) (p : Pool) (e : Event) :
  leaves id_ e → leaked id_ p → leaked id_ (step p e).
Proof.
  intros He Hl. destruct e as [job|id'|workerId data|k|k]; cbn [step]; cbn in He.
  - unfold addJob. apply processNext_leaked.
    assert (Hl' : leaked id_ (if initialized p then p else init p)).
    { destruct (initialized p) eqn:Hi; [exact Hl|].
      assert (H := init_leaked id_ p Hl). unfold init in *. rewrite Hi in *. exact H. }
    destruct Hl' as (Ha & Hw & Hq). repeat split; cbn; auto.
    apply Forall_app_2; [exact Hq|]. repeat constructor. exact He.
  - destruct Hl as (Ha & Hw & Hq). unfold cancelJob. cbn.
    assert (Hq' : Forall (λ job, job_id job ≠ id_)
                    (filter (λ job, job_id job ≠ id') (queue p))).
    { apply Forall_forall. intros job Hin. apply list_elem_of_filter in Hin as [_ Hin].
      revert job Hin. apply Forall_forall. exact Hq. }
    destruct (activeJobs p !! id') eqn:Ha'; cbn; [|repeat split; assumption].
    destruct (list_find _ _) as [[slot found]|]; cbn.
    + apply processNext_leaked. repeat split; cbn; auto.
      * rewrite lookup_delete_ne by exact He. exact Ha.
      * apply Forall_insert; [exact Hw|]. cbn. discriminate.
    + repeat split; cbn; auto. rewrite lookup_delete_ne by exact He. exact Ha.
  - unfold handleMessage.
    destruct (list_find _ _) as [[slot w]|] eqn:Hf; [|exact Hl].
    destruct (falsy (currentJobId w)) eqn:Hfalsy; [exact Hl|].
    destruct (currentJobId w) as [jobId|] eqn:Hc; [|discriminate]. cbn.
    assert (Hne : jobId ≠ id_).
    { apply list_find_Some in Hf as (Hlk & _ & _).
      destruct Hl as (_ & Hw & _).
      pose proof (Forall_lookup_1 _ _ _ _ Hw Hlk) as Hw'. cbn in Hw'. congruence. }
    destruct (activeJobs p !! jobId) eqn:Hj; [|exact Hl].
    destruct Hl as (Ha & Hw & Hq).
    destruct data; try (repeat split; assumption);
      apply releaseWorker_leaked; repeat split; cbn; auto;
      rewrite lookup_delete_ne by exact Hne; exact Ha.
  - unfold readResolved. destruct Hl as (Ha & Hw & Hq).
    repeat case_match; repeat split; cbn; auto.
  - unfold readRejected. destruct (reading p !! k) as [[slot job]|]; [|exact Hl].
    apply releaseWorker_leaked. destruct Hl as (Ha & Hw & Hq). repeat split; cbn; auto.
Qed.

Lemma run_leaked (id_ : JobId) (es : list Event) : ∀ p : Pool,
  Forall (leaves id_) es → leaked id_ p → leaked id_ (run es p).
Proof.
  induction es as [|e es IH]; intros p Hes Hl; [exact Hl|].
  apply Forall_cons in Hes as [He Hes]. cbn. apply IH; [exact Hes|].
  apply step_leaked; assumption.
Qed.

(** C10, as stated, fails: the job a failed read leaves in the map is
    not counted for ever. [cancelJob] with its id deletes the entry, and so
    does the completion of a job resubmitted under the same id; in both
    cases the count is back at 0. *)
Lemma failed_read_count_returns_to_zero :
  let A := mkJob "A" 1 in
  getActiveCount (run [AddJob A; ReadRejected 0] new) = 1%nat
  ∧ getActiveCount (run [AddJob A; ReadRejected 0; CancelJob "A"] new) = 0%nat
  ∧ getActiveCount
      (run [AddJob A; ReadRejected 0; AddJob A; ReadResolved 0;
            Message 0 (complete 9)] new) = 0%nat.
Proof. cbv zeta. repeat split; vm_compute; reflexivity. Qed.

(** C10, amended. When the read of a job's file fails after the job took a
    slot, the pool calls the job's [onError], marks the slot idle and runs
    the scheduler, and deletes nothing from the map of active jobs. If the
    job is in the map and no other slot or queued job carries its id, it
    stays in the map, and [getActiveCount] stays at 1 or more, through every
    later sequence of events that neither cancels that id nor submits a job
    under it. After three failed reads the count is 3, above
    [MAX_CONCURRENCY]. *)
Theorem failed_read_leaves_job_active
    (p : Pool) (k slot : nat) (job : WorkerJob) (events : list Event) :
  reading p !! k = Some (slot, job) →
  activeJobs p !! job_id job = Some job →
  (∀ i w, workers p !! i = Some w → i ≠ slot → currentJobId w ≠ Some (job_id job)) →
  Forall (λ j, job_id j ≠ job_id job) (queue p) →
  Forall (leaves (job_id job)) events →
  let p1 := step p (ReadRejected k) in
  (∃ p', p1 = processNext p'
     ∧ trace p' = trace p ++ [OnError job "Failed to read file"]
     ∧ activeJobs p' = activeJobs p
     ∧ ∀ w, workers p' !! slot = Some w → busy w = false ∧ currentJobId w = None)
  ∧ is_Some (activeJobs (run events p1) !! job_id job)
  ∧ (1 ≤ getActiveCount (run events p1))%nat
  ∧ getActiveCount
      (run [AddJob (mkJob "A" 1); ReadRejected 0; AddJob (mkJob "B" 2);
            ReadRejected 0; AddJob (mkJob "C" 3); ReadRejected 0] new)
    = S MAX_CONCURRENCY.
Proof.
  intros Hr Ha Hw Hq Hev p1.
  set (p' := with_workers (emit (with_reading p (delete k (reading p)))
                                [OnError job "Failed to read file"])
               (alter (λ w, mkWorker (id w) (worker w) false None) slot (workers p))).
  assert (Hp1 : p1 = processNext p').
  { subst p1 p'. cbn [step]. unfold readRejected. rewrite Hr. reflexivity. }
  assert (Hl : leaked (job_id job) p').
  { repeat split; cbn.
    - rewrite Ha. eauto.
    - apply Forall_lookup. intros i w Hi.
      rewrite list_lookup_alter in Hi. case_decide as Hs.
      + destruct (workers p !! slot); cbn in Hi; [|discriminate Hi].
        injection Hi as <-. cbn. congruence.
      + apply (Hw i w Hi). congruence.
    - exact Hq. }
  assert (Hl2 : leaked (job_id job) (run events p1)).
  { apply run_leaked; [exact Hev|]. rewrite Hp1. apply processNext_leaked, Hl. }
  split; [|split; [|split]].
  - exists p'. split; [exact Hp1|]. split; [reflexivity|]. split; [reflexivity|].
    intros w Hi. subst p'. cbn in Hi. rewrite list_lookup_alter_eq in Hi.
    destruct (workers p !! slot); cbn in Hi; [|discriminate Hi].
    injection Hi as <-. cbn. auto.
  - exact (proj1 Hl2).
  - destruct Hl2 as [Hs _]. apply map_size_ne_0_lookup_2 in Hs.
    unfold getActiveCount. lia.
  - vm_compute. reflexivity.
Qed.

Lemma failed_read_leaves_job_active_example :
  is_Some (activeJobs
             (run [AddJob (mkJob "B" 2); Message 1 (progress 40 "Removing background")]
                  (step (run [AddJob (mkJob "A" 1)] new) (ReadRejected 0)))
           !! "A")
  ∧ (1 ≤ getActiveCount
           (run [AddJob (mkJob "B" 2); Message 1 (progress 40 "Removing background")]
                (step (run [AddJob (mkJob "A" 1)] new) (ReadRejected 0))))%nat.
Proof.
  assert (H := failed_read_leaves_job_active
    (run [AddJob (mkJob "A" 1)] new) 0 0 (mkJob "A" 1)
    [AddJob (mkJob "B" 2); Message 1 (progress 40 "Removing background")]
    eq_refl eq_refl).
  cbv zeta in H.
  destruct H as (_ & Hs & Hc & _).
  - intros [|[|i]] w Hi Hne; [contradiction| |discriminate].
    vm_compute in Hi. inversion Hi. discriminate.
  - constructor.
  - repeat constructor; vm_compute; discriminate.
  - split; [exact Hs|exact Hc].
Defined.

End WorkerPoolFacts.


(** ** More on the chroma key and the mask composite *)
Module ImageProcessingMore.
Import Js ImageProcessing ImageProcessingFacts UnifiedProcessor.

(** [removeSpecificColor] is one pass of the loop body over all pixels. *)
Lemma removeSpecificColor_pass (data : list byte) (targetColor : string) (tolerance : Z) :
  removeSpecificColor data targetColor tolerance
  = keyPixels (parseInt16 (slice targetColor 1 3)) (parseInt16 (slice targetColor 3 5))
      (parseInt16 (slice targetColor 5 7)) (Some (tolerance * tolerance * 3))
      (length data / 4) 0 data.
Proof.
  unfold removeSpecificColor.
  rewrite keyChunks_keyPixels by (try apply CHUNK_SIZE_pos; lia).
  rewrite Nat.sub_0_r. reflexivity.
Qed.

Section PassFacts.
Variables targetR targetG targetB toleranceSquared : num.

Lemma get_keyPixels_colour count p data i :
  (i mod 4 ≠ 3)%nat →
  get (keyPixels targetR targetG targetB toleranceSquared count p data) i = get data i.
Proof.
  intros Hi. unfold get. rewrite keyPixels_lookup.
  rewrite bool_decide_eq_false_2 by tauto. reflexivity.
Qed.

(** The pass changes no colour byte, so it does not change which pixels
    match. *)
Lemma matches_keyPixels thr count p data q :
  matches targetR targetG targetB thr
    (keyPixels targetR targetG targetB toleranceSquared count p data) q
  = matches targetR targetG targetB thr data q.
Proof.
  unfold matches. rewrite !get_keyPixels_colour; [reflexivity| | |].
  - rewrite pixel_index_mod by lia. lia.
  - rewrite pixel_index_mod by lia. lia.
  - rewrite Nat.Div0.mod_mul. lia.
Qed.
End PassFacts.

(** X1. Running the chroma key a second time with the same colour and
    tolerance changes nothing. *)
Theorem removeSpecificColor_idempotent (data : list byte) (targetColor : string)
    (tolerance : Z) :
  removeSpecificColor (removeSpecificColor data targetColor tolerance)
    targetColor tolerance
  = removeSpecificColor data targetColor tolerance.
Proof.
  rewrite !removeSpecificColor_pass. rewrite keyPixels_length.
  apply list_eq. intros i.
  rewrite (keyPixels_lookup _ _ _ _ _ _ (keyPixels _ _ _ _ _ _ data)).
  rewrite matches_keyPixels.
  destruct (bool_decide _ && matches _ _ _ _ data (i / 4)) eqn:E; [|reflexivity].
  rewrite keyPixels_lookup, E.
  destruct (data !! i); reflexivity.
Qed.

Lemma matches_nan_target (tr tg tb thr : num) (data : list byte) (q : nat) :
  tr = None ∨ tg = None ∨ tb = None → matches tr tg tb thr data q = false.
Proof.
  intros H. unfold matches, le, add, sq, mul, sub.
  destruct (get data (q * 4)), (get data (q * 4 + 1)), (get data (q * 4 + 2)),
    tr, tg, tb; try reflexivity; destruct H as [H|[H|H]]; discriminate H.
Qed.

(** X2. A target colour one of whose channels does not parse as
    hexadecimal (the channel is NaN) removes nothing: the buffer comes back
    as it was, whatever the tolerance. *)
Theorem removeSpecificColor_malformed_colour (data : list byte)
    (targetColor : string) (tolerance : Z) :
  parseInt16 (slice targetColor 1 3) = None
  ∨ parseInt16 (slice targetColor 3 5) = None
  ∨ parseInt16 (slice targetColor 5 7) = None →
  removeSpecificColor data targetColor tolerance = data.
Proof.
  intros H. rewrite removeSpecificColor_pass. apply list_eq. intros i.
  rewrite keyPixels_lookup, matches_nan_target by exact H.
  rewrite andb_false_r. reflexivity.
Qed.

Lemma removeSpecificColor_short_colour :
  removeSpecificColor ["000"; "255"; "000"; "255"]%byte "#0F0" 255
  = ["000"; "255"; "000"; "255"]%byte.
Proof.
  apply (removeSpecificColor_malformed_colour _ "#0F0" 255).
  right. right. reflexivity.
Defined.

Lemma matches_mono (tr tg tb : num) (t1 t2 : Z) (data : list byte) (q : nat) :
  Z.abs t1 ≤ Z.abs t2 →
  matches tr tg tb (Some (t1 * t1 * 3)) data q = true →
  matches tr tg tb (Some (t2 * t2 * 3)) data q = true.
Proof.
  intros Ht. unfold matches, le.
  destruct (add _ _) as [d|]; [|discriminate].
  intros H. apply bool_decide_eq_true in H. apply bool_decide_eq_true. nia.
Qed.

(** X3. Raising the tolerance never brings a pixel back: every byte that
    is 0 after the chroma key at one tolerance is 0 after it at any
    tolerance of larger magnitude (same colour, same input). *)
Theorem removeSpecificColor_monotone (data : list byte) (targetColor : string)
    (t1 t2 : Z) (i : nat) :
  Z.abs t1 ≤ Z.abs t2 →
  removeSpecificColor data targetColor t1 !! i = Some Byte.x00 →
  removeSpecificColor data targetColor t2 !! i = Some Byte.x00.
Proof.
  intros Ht. rewrite !removeSpecificColor_pass, !keyPixels_lookup.
  destruct (bool_decide (i mod 4 = 3 ∧ 0 ≤ i / 4 < 0 + length data / 4)%nat); cbn [andb].
  - destruct (matches _ _ _ (Some (t1 * t1 * 3)) data (i / 4)) eqn:E1.
    + rewrite (matches_mono _ _ _ t1 t2 _ _ Ht E1). auto.
    + intros H. rewrite H.
      destruct (matches _ _ _ (Some (t2 * t2 * 3)) data (i / 4)); reflexivity.
  - auto.
Qed.

Lemma removeSpecificColor_monotone_example :
  removeSpecificColor ["005"; "250"; "003"; "255"]%byte "#00FF00" 40 !! 3%nat
  = Some Byte.x00.
Proof.
  apply (removeSpecificColor_monotone _ "#00FF00" 10 40 3); [lia|].
  vm_compute. reflexivity.
Defined.

(** X4. Through [processImage] a tolerance of 0 cannot be asked for: 0 is
    falsy, so the chroma key runs with the default 30, just as when no
    tolerance is given, and a pixel within squared distance 2700 of the
    target loses its alpha although it is no exact match. *)
Theorem processImage_zero_tolerance_is_default
    (removeBackgroundOnly removeBackground : list byte → list byte)
    (blur : Z → list byte → list byte)
    (file : list byte) (width height : nat) (colour : option string)
    (intensity : option Z) :
  processImage removeBackgroundOnly removeBackground blur file width height
    (mkConfig remove_color colour (Some 0) intensity)
  = processImage removeBackgroundOnly removeBackground blur file width height
      (mkConfig remove_color colour None intensity)
  ∧ processImage removeBackgroundOnly removeBackground blur file width height
      (mkConfig remove_color colour (Some 0) intensity)
    = removeSpecificColor file (or_string colour "#00FF00") 30
  ∧ ∀ (p : nat) (r g b a : byte) (tr tg tb : Z),
      parseInt16 (slice (or_string colour "#00FF00") 1 3) = Some tr →
      parseInt16 (slice (or_string colour "#00FF00") 3 5) = Some tg →
      parseInt16 (slice (or_string colour "#00FF00") 5 7) = Some tb →
      file !! (p * 4)%nat = Some r → file !! (p * 4 + 1)%nat = Some g →
      file !! (p * 4 + 2)%nat = Some b → file !! (p * 4 + 3)%nat = Some a →
      (Z_of_byte r - tr) ^ 2 + (Z_of_byte g - tg) ^ 2 + (Z_of_byte b - tb) ^ 2 ≤ 2700 →
      processImage removeBackgroundOnly removeBackground blur file width height
        (mkConfig remove_color colour (Some 0) intensity) !! (p * 4 + 3)%nat
      = Some Byte.x00.
Proof.
  split; [reflexivity|]. split; [reflexivity|].
  intros p r g b a tr tg tb Hr Hg Hb H0 H1 H2 H3 Hd.
  unfold processImage. cbn [mode colorToRemove colorTolerance or_number].
  rewrite removeSpecificColor_pass, Hr, Hg, Hb.
  assert (Hp : (p < length file / 4)%nat).
  { apply lookup_lt_Some in H3. apply Nat.div_le_lower_bound; lia. }
  rewrite keyPixels_lookup, pixel_index_mod, pixel_index_div by lia.
  rewrite bool_decide_eq_true_2 by lia. cbn [andb].
  unfold matches, get. rewrite H0, H1, H2, H3. cbn.
  rewrite bool_decide_eq_true_2 by lia. reflexivity.
Qed.

(** X5. The composite always has the original's size, whatever the size of
    the mask, and the pixels the mask does not reach stay transparent
    black. *)
Theorem blurBackgroundOnly_mask_too_small
    (maskData sharpData blurredData : list byte) (width height : nat) :
  length (blurBackgroundOnly maskData sharpData blurredData width height)
  = (width * height * 4)%nat
  ∧ ∀ i : nat, (length maskData / 4 ≤ i / 4)%nat → (i < width * height * 4)%nat →
      blurBackgroundOnly maskData sharpData blurredData width height !! i
      = Some Byte.x00.
Proof.
  unfold blurBackgroundOnly.
  rewrite compositeChunks_compositePixels by (try apply CHUNK_SIZE_pos; lia).
  rewrite Nat.sub_0_r. split.
  - rewrite compositePixels_length. apply length_replicate.
  - intros i Hi Hlt. rewrite compositePixels_other by lia.
    apply lookup_replicate_2. exact Hlt.
Qed.

End ImageProcessingMore.


(** ** More on the command history and the state helpers *)
Module CommandHistoryMore.
Import EditorState CommandHistory CommandRecords CommandHistoryFacts.

Lemma with_effects_same (s : EditorState) : with_effects s (effects s) = s.
Proof. destruct s; reflexivity. Qed.

Lemma with_layers_same (s : EditorState) : with_layers s (layers s) = s.
Proof. destruct s; reflexivity. Qed.

(** Setting a field of the elements with a given key to [new] and then
    back to the value they all held gives the list back. *)
Lemma map_set_undo {A V} (key : A → string) (upd : A → V → A) (field : A → V)
    (t : string) (prev new : V) (l : list A) :
  (∀ a v, key (upd a v) = key a) →
  (∀ a v w, upd (upd a v) w = upd a w) →
  (∀ a, upd a (field a) = a) →
  (∀ a, a ∈ l → key a = t → field a = prev) →
  map (λ a, if decide (key a = t) then upd a prev else a)
    (map (λ a, if decide (key a = t) then upd a new else a) l) = l.
Proof.
  intros Hkey Hupd Hfield Hprev. rewrite map_map.
  rewrite <- (map_id l) at 2. apply map_ext_in. intros a Ha.
  apply list_elem_of_In in Ha.
  destruct (decide (key a = t)) as [Hk|Hk].
  - rewrite decide_True by (rewrite Hkey; exact Hk).
    rewrite Hupd, <- (Hprev a Ha Hk). apply Hfield.
  - rewrite decide_False by exact Hk. reflexivity.
Qed.

(** X6. Executing a command and undoing it restores the editor state, for
    every command that recorded the state it was built against: the previous
    value of the targeted field for the five set and toggle commands, a fresh
    id for an added effect, and, for a removed effect, the effect itself when
    it was the last of the list. *)
Theorem execute_undo_round_trip (s : EditorState) (c : Command) :
  recorded c s →
  applyCommand (applyCommand s c false) c true = s.
Proof.
  intros Hrec. destruct c as [ty ts [t prev new]].
  destruct s as [sid key mask size ls es mode pq eq].
  destruct ty; cbn in *; try reflexivity; unfold with_effects, with_layers; cbn;
    f_equal.
  - apply (map_set_undo effect_id with_effect_params effect_params t prev new);
      try reflexivity; [intros []; reflexivity|exact Hrec].
  - destruct Hrec as [Hid Hfresh].
    rewrite filter_app, filter_cons_False, filter_nil, app_nil_r
      by (intros H; apply H; exact Hid).
    apply filter_other_id_all, Hfresh.
  - destruct Hrec as (before & Heq & Hid & Hfresh).
    rewrite Heq, filter_app, filter_cons_False, filter_nil, app_nil_r
      by (intros H; apply H; exact Hid).
    rewrite filter_other_id_all by exact Hfresh. reflexivity.
  - apply (map_set_undo effect_id with_enabled enabled t prev new);
      try reflexivity; [intros []; reflexivity|exact Hrec].
  - apply (map_set_undo layer_id with_layer_params layer_params t prev new);
      try reflexivity; [intros []; reflexivity|exact Hrec].
  - apply (map_set_undo layer_id with_visible visible t prev new);
      try reflexivity; [intros []; reflexivity|exact Hrec].
  - apply (map_set_undo layer_id with_transform transform t prev new);
      try reflexivity; [intros []; reflexivity|exact Hrec].
Qed.

Lemma execute_undo_hide_border :
  applyCommand
    (applyCommand (createDefaultEditorState "img" "key")
       (createCommand 0 TOGGLE_LAYER "border" false true) false)
    (createCommand 0 TOGGLE_LAYER "border" false true) true
  = createDefaultEditorState "img" "key".
Proof.
  apply (execute_undo_round_trip (createDefaultEditorState "img" "key")
           (createCommand 0 TOGGLE_LAYER "border" false true)).
  intros l Hl Hid. cbn in Hl.
  repeat (apply elem_of_cons in Hl as [->|Hl]; [try reflexivity; discriminate Hid|]).
  apply elem_of_nil in Hl. contradiction.
Defined.

(** X7. Undoing the removal of an effect does not put it back in its
    place: with distinct effect ids, removing the effect [e] that stands
    between [before] and [after] and undoing the removal leaves
    [before ++ after ++ [e]], so the effect is applied last from then on. *)
Theorem undo_remove_effect_appends (s : EditorState) (before after : list EffectNode)
    (e : EffectNode) (ts : Z) (other : EffectNode) :
  effects s = before ++ e :: after →
  NoDup (effect_id <$> effects s) →
  let c := createCommand ts REMOVE_EFFECT (effect_id e) e other in
  effects (applyCommand s c false) = before ++ after
  ∧ effects (applyCommand (applyCommand s c false) c true) = before ++ after ++ [e].
Proof.
  intros Heq Hnd c. subst c. cbn. rewrite Heq in *.
  rewrite fmap_app, fmap_cons in Hnd.
  apply NoDup_app in Hnd as (_ & Hdis & Hnd').
  apply NoDup_cons in Hnd' as [Hafter _].
  assert (Hbefore : effect_id e ∉ effect_id <$> before).
  { intros Hin. apply (Hdis _ Hin). apply list_elem_of_here. }
  assert (Hf : filter (λ x, effect_id x ≠ effect_id e) (before ++ e :: after)
               = before ++ after).
  { rewrite filter_app, filter_cons_False by (intros H; apply H; reflexivity).
    rewrite !filter_other_id_all by assumption. reflexivity. }
  rewrite Hf. split; [reflexivity|]. rewrite <- app_assoc. reflexivity.
Qed.

Lemma undo_remove_effect_appends_example :
  let blur := mkEffect "a" blur_effect ∅ true in
  let shadow := mkEffect "b" shadow_effect ∅ true in
  let s := with_effects (createDefaultEditorState "img" "key") [blur; shadow] in
  let c := createCommand 0 REMOVE_EFFECT "a" blur blur in
  effects (applyCommand (applyCommand s c false) c true) = [shadow; blur].
Proof.
  cbv zeta.
  refine (proj2 (undo_remove_effect_appends
    (with_effects (createDefaultEditorState "img" "key")
       [mkEffect "a" blur_effect ∅ true; mkEffect "b" shadow_effect ∅ true])
    [] [mkEffect "b" shadow_effect ∅ true] (mkEffect "a" blur_effect ∅ true) 0
    (mkEffect "a" blur_effect ∅ true) eq_refl _)).
  apply (bool_decide_unpack _). vm_compute. exact I.
Defined.

(** *** The log and its cursor *)

Lemma reachable_within_bound (h : History) : reachable h → within_bound h.
Proof.
  induction 1 as [|h c _ [Hok Hlen]|h _ [Hok Hlen]|h _ [Hok Hlen]|h _ [Hok Hlen]].
  - split; [unfold cursor_ok; cbn; lia|cbn; lia].
  - split; [apply execute_cursor_ok, Hok|].
    rewrite (execute_history h c _ tt Hok). destruct Hok as [Hi Hm].
    assert (Hl : length (take (Z.to_nat (currentIndex h + 1)) (commands h) ++ [c])
                 = S (Z.to_nat (currentIndex h + 1))).
    { rewrite length_app, length_take. cbn. lia. }
    case_bool_decide as Hbig; cbn; rewrite ?List.length_tl, Hl; lia.
  - split; [apply undo_cursor_ok, Hok|].
    unfold undo. destruct (negb (canUndo h)); exact Hlen.
  - split; [apply redo_cursor_ok, Hok|].
    unfold redo. destruct (negb (canRedo h)); exact Hlen.
  - split; [destruct Hok as [_ Hm]; unfold cursor_ok, clear; cbn; lia|cbn; lia].
Qed.

(** X8. The log is bounded: whatever sequence of execute, undo, redo and
    clear built a history, it holds at most 50 commands, and its cursor is
    -1 or the index of one of them. *)
Theorem history_bounded (h : History) :
  reachable h →
  (length (commands h) ≤ 50)%nat
  ∧ -1 ≤ currentIndex h < Z.of_nat (length (commands h)).
Proof.
  intros Hr. destruct (reachable_within_bound h Hr) as [[Hi _] Hlen]. auto.
Qed.

Lemma history_bounded_example :
  (length (commands (execute empty (createCommand 0 TOGGLE_EFFECT "fx" true false)
                       (λ _ (u : unit), u) tt).1) ≤ 50)%nat.
Proof.
  exact (proj1 (history_bounded _
    (reach_execute empty (createCommand 0 TOGGLE_EFFECT "fx" true false) reach_new))).
Defined.

(** X9. Right after [execute], undo is possible and the command it will
    reverse is the one just executed, also when the oldest command was
    shifted out to keep the bound. *)
Theorem execute_then_undo_targets_it {St : Type} (h : History) (c : Command)
    (f : Command → St → St) (g : option Command → bool → St → St) (st : St) :
  reachable h →
  let h' := (execute h c f st).1 in
  canUndo h' = true
  ∧ current h' = Some c
  ∧ undo h' g (f c st)
    = (true, mkHistory (commands h') (currentIndex h' - 1) (maxHistory h'),
       g (Some c) true (f c st)).
Proof.
  intros Hr h'. apply reachable_cursor_ok in Hr.
  assert (Hcur : canUndo h' = true ∧ current h' = Some c).
  { subst h'. rewrite (execute_history h c f st Hr). destruct Hr as [Hi Hm].
    assert (Hl : length (take (Z.to_nat (currentIndex h + 1)) (commands h))
                 = Z.to_nat (currentIndex h + 1)).
    { rewrite length_take. lia. }
    case_bool_decide as Hbig; unfold canUndo, current; cbn.
    - rewrite length_app, Hl in Hbig. cbn in Hbig.
      rewrite !bool_decide_eq_true_2 by lia. split; [reflexivity|].
      rewrite lookup_tail, lookup_app_r by lia.
      replace (S (Z.to_nat (currentIndex h)) - _)%nat with 0%nat by lia. reflexivity.
    - rewrite !bool_decide_eq_true_2 by lia. split; [reflexivity|].
      rewrite lookup_app_r by lia.
      replace (Z.to_nat (currentIndex h + 1) - _)%nat with 0%nat by lia. reflexivity. }
  destruct Hcur as [Hu Hc]. split; [exact Hu|]. split; [exact Hc|].
  unfold undo. rewrite Hu, Hc. reflexivity.
Qed.

Lemma execute_then_undo_targets_it_example :
  current (execute empty (createCommand 0 TOGGLE_EFFECT "fx" true false)
             (λ _ (u : unit), u) tt).1
  = Some (createCommand 0 TOGGLE_EFFECT "fx" true false).
Proof.
  exact (proj1 (proj2 (execute_then_undo_targets_it empty
    (createCommand 0 TOGGLE_EFFECT "fx" true false)
    (λ _ (u : unit), u) (λ _ _ (u : unit), u) tt reach_new))).
Defined.

(** X10. Undo and redo are inverse on the history: on a history a program
    can build, an undo that succeeds followed by a redo, and a redo that
    succeeds followed by an undo, both succeed and leave the log and the
    cursor exactly as they were. *)
Theorem undo_redo_restore_history {St : Type} (h : History)
    (f g : option Command → bool → St → St) (st st' : St) :
  reachable h →
  (canUndo h = true →
     (undo h f st).1.1 = true
     ∧ (redo (undo h f st).1.2 g st').1 = (true, h))
  ∧ (canRedo h = true →
     (redo h f st).1.1 = true
     ∧ (undo (redo h f st).1.2 g st').1 = (true, h)).
Proof.
  intros Hr. apply reachable_cursor_ok in Hr. destruct Hr as [Hi Hm]. split.
  - intros Hu. unfold undo. rewrite Hu. cbn. split; [reflexivity|].
    unfold canUndo in Hu. apply bool_decide_eq_true in Hu.
    unfold redo, canRedo. cbn. rewrite bool_decide_eq_true_2 by lia. cbn.
    replace (currentIndex h - 1 + 1) with (currentIndex h) by lia.
    destruct h; reflexivity.
  - intros Hre. unfold redo. rewrite Hre. cbn. split; [reflexivity|].
    unfold canRedo in Hre. apply bool_decide_eq_true in Hre.
    unfold undo, canUndo. cbn. rewrite bool_decide_eq_true_2 by lia. cbn.
    replace (currentIndex h + 1 - 1) with (currentIndex h) by lia.
    destruct h; reflexivity.
Qed.

Lemma undo_redo_restore_history_example :
  (redo (undo (execute empty (createCommand 0 TOGGLE_EFFECT "fx" true false)
                 (λ _ (u : unit), u) tt).1
           (λ _ _ (u : unit), u) tt).1.2
     (λ _ _ (u : unit), u) tt).1
  = (true, (execute empty (createCommand 0 TOGGLE_EFFECT "fx" true false)
              (λ _ (u : unit), u) tt).1).
Proof.
  exact (proj2 (proj1 (undo_redo_restore_history
    (execute empty (createCommand 0 TOGGLE_EFFECT "fx" true false)
       (λ _ (u : unit), u) tt).1
    (λ _ _ (u : unit), u) (λ _ _ (u : unit), u) tt tt
    (reach_execute empty (createCommand 0 TOGGLE_EFFECT "fx" true false) reach_new))
    eq_refl)).
Defined.

(** *** The state helpers of the auto-processor *)

Lemma map_fixes {A} (f : A → A) (l : list A) : (∀ a, f a = a) → map f l = l.
Proof.
  intros Hf. induction l as [|a l IH]; cbn; [reflexivity|]. rewrite Hf, IH. reflexivity.
Qed.

(** X11. [toggleEffect] is its own inverse: toggling an id twice gives the
    state back. *)
Theorem toggleEffect_twice (s : EditorState) (effectId : string) :
  toggleEffect (toggleEffect s effectId) effectId = s.
Proof.
  destruct s as [sid key mask size ls es mode pq eq].
  unfold toggleEffect, with_effects. cbn. f_equal. rewrite map_map.
  apply map_fixes. intros [i t p b]. cbn.
  destruct (decide (i = effectId)) as [Hi|Hi]; cbn.
  - rewrite decide_True by exact Hi. unfold with_enabled. cbn.
    rewrite negb_involutive. reflexivity.
  - rewrite decide_False by exact Hi. reflexivity.
Qed.

(** X12. Adding an effect under an id no effect of the state has, and
    removing that id, gives the state back; the added effect is enabled and
    is the last of the list. *)
Theorem removeEffect_addEffect (s : EditorState) (uuid : string) (type : EffectType)
    (params : Params) :
  uuid ∉ effect_id <$> effects s →
  removeEffect (addEffect uuid s type params) uuid = s
  ∧ effects (addEffect uuid s type params) !! length (effects s)
    = Some (mkEffect uuid type params true).
Proof.
  intros Hfresh. split.
  - destruct s as [sid key mask size ls es mode pq eq].
    unfold removeEffect, addEffect, with_effects. cbn in *. f_equal.
    rewrite filter_app, filter_cons_False, filter_nil, app_nil_r
      by (intros H; apply H; reflexivity).
    apply filter_other_id_all, Hfresh.
  - unfold addEffect. cbn. rewrite lookup_app_r by lia.
    rewrite Nat.sub_diag. reflexivity.
Qed.

Lemma removeEffect_addEffect_example :
  removeEffect
    (addEffect "u1" (createDefaultEditorState "img" "key") blur_effect ∅) "u1"
  = createDefaultEditorState "img" "key".
Proof.
  exact (proj1 (removeEffect_addEffect (createDefaultEditorState "img" "key")
                  "u1" blur_effect ∅ (not_elem_of_nil _))).
Defined.

Lemma map_if_other_id {A} (key : A → string) (f : A → A) (t : string) (l : list A) :
  t ∉ key <$> l → map (λ a, if decide (key a = t) then f a else a) l = l.
Proof.
  induction l as [|a l IH]; intros Hnot; [reflexivity|].
  rewrite fmap_cons in Hnot. apply not_elem_of_cons in Hnot as [Hne Hnot].
  cbn. rewrite decide_False by congruence. rewrite IH by exact Hnot. reflexivity.
Qed.

(** X13. An id that no effect of the state carries makes [updateEffect],
    [toggleEffect] and [removeEffect] return the state unchanged: none of
    them reports the miss. *)
Theorem helpers_ignore_unknown_id (s : EditorState) (effectId : string)
    (newParams : Params) :
  effectId ∉ effect_id <$> effects s →
  updateEffect s effectId newParams = s
  ∧ toggleEffect s effectId = s
  ∧ removeEffect s effectId = s.
Proof.
  intros Hnot. unfold updateEffect, toggleEffect, removeEffect.
  rewrite !(map_if_other_id effect_id) by exact Hnot.
  rewrite filter_other_id_all by exact Hnot.
  rewrite with_effects_same. auto.
Qed.

Lemma helpers_ignore_unknown_id_example :
  toggleEffect (createDefaultEditorState "img" "key") "nope"
  = createDefaultEditorState "img" "key".
Proof.
  exact (proj1 (proj2 (helpers_ignore_unknown_id
    (createDefaultEditorState "img" "key") "nope" ∅ (not_elem_of_nil _)))).
Defined.

(** X14. Two parameter updates of one effect compose into one: updating
    with [p] and then with [q] is updating once with [q] laid over [p]
    (the later value wins on a key both carry); an update with no
    parameters changes nothing. *)
Theorem updateEffect_compose (s : EditorState) (effectId : string) (p q : Params) :
  updateEffect (updateEffect s effectId p) effectId q = updateEffect s effectId (q ∪ p)
  ∧ updateEffect s effectId ∅ = s.
Proof.
  destruct s as [sid key mask size ls es mode pq eq]. split.
  - unfold updateEffect, with_effects. cbn. f_equal.
    rewrite map_map. apply map_ext. intros [i t ps b]. cbn.
    destruct (decide (i = effectId)) as [Hi|Hi]; cbn.
    + rewrite decide_True by exact Hi. unfold with_effect_params. cbn.
      rewrite (assoc_L (∪)). reflexivity.
    + rewrite decide_False by exact Hi. reflexivity.
  - unfold updateEffect, with_effects. cbn. f_equal.
    apply map_fixes. intros [i t ps b]. cbn.
    destruct (decide (i = effectId)); [|reflexivity].
    unfold with_effect_params. cbn. rewrite (left_id_L ∅ (∪)). reflexivity.
Qed.

End CommandHistoryMore.


(** ** More on the render engine *)
Module RenderEngineMore.
Import EditorState RenderEngine JsFloat RenderEngineFacts.

Section EngineMore.
Context {Canvas Bitmap Blob : Type} `{!Canvas2D Canvas Bitmap Blob}.

(** [renderLayer] is handed the state and never reads it. *)
Lemma renderLayers_state (ls : list Layer) (s1 s2 : EditorState)
    (originalImage : Bitmap) (alphaMask : option Bitmap) (w h sc : float) :
  ∀ ctx : Canvas,
  renderLayers ls s1 originalImage alphaMask w h sc ctx
  = renderLayers ls s2 originalImage alphaMask w h sc ctx.
Proof.
  induction ls as [|l ls IH]; intros ctx; cbn; [reflexivity|]. apply IH.
Qed.

Lemma renderLayers_app (ls1 ls2 : list Layer) (s : EditorState)
    (originalImage : Bitmap) (alphaMask : option Bitmap) (w h sc : float) :
  ∀ ctx : Canvas,
  renderLayers (ls1 ++ ls2) s originalImage alphaMask w h sc ctx
  = renderLayers ls2 s originalImage alphaMask w h sc
      (renderLayers ls1 s originalImage alphaMask w h sc ctx).
Proof.
  induction ls1 as [|l ls1 IH]; intros ctx; cbn; [reflexivity|]. apply IH.
Qed.

Lemma applyEffects_skip_unhandled (es1 es2 : list EffectNode) (e : EffectNode)
    (w h : float) (ctx : Canvas) :
  effect_type e = color_effect ∨ effect_type e = border_effect →
  applyEffects (es1 ++ e :: es2) w h ctx = applyEffects (es1 ++ es2) w h ctx.
Proof.
  intros He. rewrite !applyEffects_app. cbn [applyEffects]. unfold applyEffect.
  destruct (enabled e), He as [-> | ->]; reflexivity.
Qed.

(** X15. The engine has no pass for effects of type [color] and [border]:
    such an effect, enabled or not, changes nothing in the rendered surface
    and blob; rendering with it is rendering without it. *)
Theorem color_and_border_effects_are_ignored (s : EditorState)
    (es1 es2 : list EffectNode) (e : EffectNode) (originalImage : Bitmap)
    (alphaMask : option Bitmap) (options : RenderOptions) (ctx : Canvas) :
  effect_type e = color_effect ∨ effect_type e = border_effect →
  render (with_effects s (es1 ++ e :: es2)) originalImage alphaMask options ctx
  = render (with_effects s (es1 ++ es2)) originalImage alphaMask options ctx.
Proof.
  intros He. unfold render. cbn [effects layers previewQuality with_effects].
  rewrite !renderLayers_with_effects.
  rewrite (applyEffects_skip_unhandled es1 es2 e) by exact He. reflexivity.
Qed.

(** X16. A layer that is not visible is not painted: rendering with a
    hidden layer in the list is rendering with that layer taken out. *)
Theorem hidden_layer_is_not_painted (s : EditorState) (ls1 ls2 : list Layer)
    (l : Layer) (originalImage : Bitmap) (alphaMask : option Bitmap)
    (options : RenderOptions) (ctx : Canvas) :
  visible l = false →
  render (with_layers s (ls1 ++ l :: ls2)) originalImage alphaMask options ctx
  = render (with_layers s (ls1 ++ ls2)) originalImage alphaMask options ctx.
Proof.
  intros Hl. unfold render. cbn [effects layers previewQuality with_layers].
  rewrite !renderLayers_app. cbn [renderLayers]. rewrite Hl. cbn [negb].
  rewrite !(renderLayers_state _ (with_layers s (ls1 ++ l :: ls2))
              (with_layers s (ls1 ++ ls2))).
  reflexivity.
Qed.

(** X17. Of the editor state, [render] reads the layers, the effects and,
    for a preview, [previewQuality]; the output size comes from the source
    bitmap. Two states that agree on these render alike whatever their
    [canvasSize], [alphaMaskKey], [processingMode] and [exportQuality]; an
    export does not read [previewQuality] either, and is never scaled. *)
Theorem render_reads_layers_effects_and_preview_quality (s1 s2 : EditorState)
    (originalImage : Bitmap) (alphaMask : option Bitmap)
    (options : RenderOptions) (ctx : Canvas) :
  layers s1 = layers s2 →
  effects s1 = effects s2 →
  quality options = export ∨ previewQuality s1 = previewQuality s2 →
  render s1 originalImage alphaMask options ctx
  = render s2 originalImage alphaMask options ctx.
Proof.
  intros Hl He Hq. unfold render. rewrite Hl, He.
  rewrite !(renderLayers_state (layers s2) s1 s2).
  destruct Hq as [Hq|Hq]; [rewrite Hq|rewrite Hq]; reflexivity.
Qed.
End EngineMore.

Lemma remove_color_effect_is_ignored :
  let e := mkEffect "fx" color_effect {[ "color" := JStr "#ff0000" ]} true in
  render (with_effects (createDefaultEditorState "img" "key") ([] ++ e :: []))
    (640%float, 480%float) None (mkOptions preview (Some png) None) []
  = render (with_effects (createDefaultEditorState "img" "key") ([] ++ []))
      (640%float, 480%float) None (mkOptions preview (Some png) None) [].
Proof.
  cbv zeta.
  exact (color_and_border_effects_are_ignored
    (createDefaultEditorState "img" "key") [] []
    (mkEffect "fx" color_effect {[ "color" := JStr "#ff0000" ]} true)
    (640%float, 480%float) None (mkOptions preview (Some png) None) []
    (or_introl eq_refl)).
Defined.

Lemma hidden_default_border_is_not_painted :
  let bg := mkLayer "bg" background true false DEFAULT_TRANSFORM
              {[ "color" := JStr "#ffffff" ]} in
  let bd := mkLayer "border" border false false DEFAULT_TRANSFORM ∅ in
  let sj := mkLayer "subject" subject true false DEFAULT_TRANSFORM ∅ in
  render (with_layers (createDefaultEditorState "img" "key") ([bg] ++ bd :: [sj]))
    (640%float, 480%float) None (mkOptions export None None) []
  = render (with_layers (createDefaultEditorState "img" "key") ([bg] ++ [sj]))
      (640%float, 480%float) None (mkOptions export None None) [].
Proof.
  cbv zeta.
  exact (hidden_layer_is_not_painted (createDefaultEditorState "img" "key")
    [mkLayer "bg" background true false DEFAULT_TRANSFORM {[ "color" := JStr "#ffffff" ]}]
    [mkLayer "subject" subject true false DEFAULT_TRANSFORM ∅]
    (mkLayer "border" border false false DEFAULT_TRANSFORM ∅)
    (640%float, 480%float) None (mkOptions export None None) [] eq_refl).
Defined.

Lemma export_ignores_quality_fields :
  render (createDefaultEditorState "img" "key")
    (640%float, 480%float) None (mkOptions export None None) []
  = render (mkState "other" "key2" (Some "mask") (1%float, 1%float)
              (layers (createDefaultEditorState "img" "key")) [] custom
              10%float 4%float)
      (640%float, 480%float) None (mkOptions export None None) [].
Proof.
  exact (render_reads_layers_effects_and_preview_quality
    (createDefaultEditorState "img" "key")
    (mkState "other" "key2" (Some "mask") (1%float, 1%float)
       (layers (createDefaultEditorState "img" "key")) [] custom 10%float 4%float)
    (640%float, 480%float) None (mkOptions export None None) []
    eq_refl eq_refl (or_introl eq_refl)).
Defined.

(** *** The filter pass, pixel by pixel *)

Lemma filterPixel_of_its_bytes (brightness contrast saturation : float)
    (i : nat) (X Y : list byte) (k : nat) :
  length X = length Y → (k < 4)%nat →
  (∀ j, (j < 4)%nat → X !! (i + j)%nat = Y !! (i + j)%nat) →
  filterPixel brightness contrast saturation i X !! (i + k)%nat
  = filterPixel brightness contrast saturation i Y !! (i + k)%nat.
Proof.
  intros Hlen Hk Hsame. unfold filterPixel, read.
  pose proof (Hsame 0%nat) as H0. rewrite Nat.add_0_r in H0.
  rewrite !H0, !(Hsame 1%nat), !(Hsame 2%nat) by lia.
  rewrite !list_lookup_insert, !length_insert, Hlen, (Hsame k) by lia.
  reflexivity.
Qed.

(** X18. The engine's filter pass works pixel by pixel: it keeps the
    length of the buffer and every alpha byte, and the three colour bytes
    it writes for a pixel depend on that pixel's own bytes only, not on the
    rest of the image. *)
Theorem applyFilterData_pixelwise (params : Params) (data : list byte) :
  length (applyFilterData params data) = length data
  ∧ (∀ p, (p * 4 + 3 < length data)%nat →
       applyFilterData params data !! (p * 4 + 3)%nat = data !! (p * 4 + 3)%nat)
  ∧ (∀ (other : list byte) (p k : nat),
       length other = length data → (p * 4 + 3 < length data)%nat → (k < 4)%nat →
       (∀ j, (j < 4)%nat → other !! (p * 4 + j)%nat = data !! (p * 4 + j)%nat) →
       applyFilterData params other !! (p * 4 + k)%nat
       = applyFilterData params data !! (p * 4 + k)%nat).
Proof.
  split; [apply filterLoop_length|]. split.
  - intros p Hp.
    exact (proj2 (applyFilterData_pixel params data p 0 Hp ltac:(lia))).
  - intros other p k Hlen Hp Hk Hsame.
    rewrite (proj1 (applyFilterData_pixel params other p k ltac:(lia) Hk)).
    rewrite (proj1 (applyFilterData_pixel params data p k Hp Hk)).
    apply filterPixel_of_its_bytes; assumption.
Qed.

End RenderEngineMore.


Module WorkerPoolMore.
Import WorkerPool WorkerPoolObservations.

(** *** The slots and the scheduler *)

Lemma slot_ok_insert (ws : list WorkerWrapper) (i : nat) (w' : WorkerWrapper) :
  (∀ j w, ws !! j = Some w → slot_ok j w) → slot_ok i w' →
  ∀ j w, <[i := w']> ws !! j = Some w → slot_ok j w.
Proof.
  intros Hws Hw' j w Hj. apply list_lookup_insert_Some in Hj as [(-> & -> & _)|[_ Hj]].
  - exact Hw'.
  - apply Hws, Hj.
Qed.

Lemma slot_ok_release (ws : list WorkerWrapper) (i : nat) :
  (∀ j w, ws !! j = Some w → slot_ok j w) →
  ∀ j w, alter (λ w, mkWorker (id w) (worker w) false None) i ws !! j = Some w →
         slot_ok j w.
Proof.
  intros Hws j w Hj. rewrite list_lookup_alter in Hj. case_decide as Hij.
  - subst j. destruct (ws !! i) as [w0|] eqn:E; cbn in Hj; [|discriminate Hj].
    injection Hj as <-. destruct (Hws i w0 E) as [Hid _].
    split; [exact Hid|]. cbn. split; [discriminate|intros Hx; destruct (is_Some_None Hx)].
  - apply Hws, Hj.
Qed.

Lemma one_idle_insert (ws : list WorkerWrapper) (i : nat) (w' : WorkerWrapper) :
  Forall (λ w, busy w = true) ws → one_idle (<[i := w']> ws).
Proof.
  intros Hb a b wa wb Ha Hb' Hia Hib.
  apply list_lookup_insert_Some in Ha as [(-> & _ & _)|[_ Ha]];
    apply list_lookup_insert_Some in Hb' as [(-> & _ & _)|[_ Hb']]; auto.
  - pose proof (Forall_lookup_1 _ _ _ _ Hb Hb') as H. cbn in H. congruence.
  - pose proof (Forall_lookup_1 _ _ _ _ Hb Ha) as H. cbn in H. congruence.
  - pose proof (Forall_lookup_1 _ _ _ _ Hb Ha) as H. cbn in H. congruence.
Qed.

Lemma one_idle_alter (ws : list WorkerWrapper) (f : WorkerWrapper → WorkerWrapper)
    (i : nat) :
  Forall (λ w, busy w = true) ws → one_idle (alter f i ws).
Proof.
  intros Hb a b wa wb Ha Hb' Hia Hib.
  destruct (decide (a = b)) as [|Hne]; [assumption|exfalso].
  rewrite list_lookup_alter in Ha, Hb'.
  repeat case_decide; subst; try congruence;
    match goal with
    | H : ws !! _ = Some ?w, H2 : busy ?w = false |- _ =>
        pose proof (Forall_lookup_1 _ _ _ _ Hb H) as HH; cbn in HH; congruence
    end.
Qed.

(** The scheduler restores the invariant when at most one job can be
    waiting for an idle slot, or at most one slot is idle. *)
Lemma processNext_sound (p : Pool) :
  slots_ok p →
  (initialized p = true → length (workers p) = MAX_CONCURRENCY) →
  (∀ i w, workers p !! i = Some w → slot_ok i w) →
  (initialized p = false → queue p = []) →
  (tail (queue p) ≠ [] → one_idle (workers p)) →
  sound (processNext p).
Proof.
  intros Hok Hlen Hslots Hun Hone.
  destruct (WorkerPoolFacts.processNext_shape p) as [Hl Hi].
  unfold sound. split; [|split; [|split; [|split]]].
  - destruct Hok as [He Hle]. split; [|rewrite Hl; exact Hle].
    rewrite Hi. intros H. apply length_zero_iff_nil. rewrite Hl, (He H). reflexivity.
  - rewrite Hi, Hl. exact Hlen.
  - unfold processNext. destruct (list_find _ _) as [[slot w]|] eqn:Hf; [|exact Hslots].
    destruct (queue p) as [|job rest]; [exact Hslots|]. cbn.
    apply list_find_Some in Hf as (Hlk & _ & _).
    apply slot_ok_insert; [exact Hslots|].
    destruct (Hslots slot w Hlk) as [Hid _]. split; [exact Hid|]. cbn.
    split; eauto.
  - rewrite Hi. intros H. specialize (Hun H). unfold processNext.
    destruct (list_find _ _) as [[slot w]|]; [|exact Hun].
    destruct (queue p) eqn:E; [cbn; exact E|discriminate Hun].
  - unfold processNext. destruct (list_find _ _) as [[slot w]|] eqn:Hf.
    + destruct (queue p) as [|job rest] eqn:Hq; [rewrite Hq; contradiction|].
      cbn. intros Hrest. apply Forall_lookup. intros j wj Hj.
      apply list_lookup_insert_Some in Hj as [(-> & <- & _)|[Hne Hj]]; [reflexivity|].
      destruct (busy wj) eqn:Hb; [reflexivity|]. exfalso. apply Hne.
      apply list_find_Some in Hf as (Hlk & Hbw & _).
      exact (Hone Hrest slot j w wj Hlk Hj Hbw Hb).
    + intros _. apply list_find_None in Hf. eapply Forall_impl; [exact Hf|].
      intros w Hw. cbn in Hw. destruct (busy w); [reflexivity|contradiction].
Qed.

Lemma releaseWorker_sound (slot : nat) (p : Pool) :
  sound p → sound (releaseWorker slot p).
Proof.
  intros (Hok & Hlen & Hslots & Hun & Hcons). unfold releaseWorker.
  apply processNext_sound; unfold slots_ok; cbn.
  - destruct Hok as [He Hle]. split; [|rewrite length_alter; exact Hle].
    intros H. rewrite (He H). reflexivity.
  - rewrite length_alter. exact Hlen.
  - apply slot_ok_release, Hslots.
  - exact Hun.
  - intros Ht. apply one_idle_alter, Hcons. intros E. rewrite E in Ht. contradiction.
Qed.

Lemma init_sound (p : Pool) :
  sound p → initialized p = false →
  sound (init p) ∧ initialized (init p) = true ∧ queue (init p) = [].
Proof.
  intros (Hok & Hlen & Hslots & Hun & Hcons) Hi.
  destruct Hok as [He _]. specialize (He Hi). specialize (Hun Hi).
  unfold init. rewrite Hi. cbn. rewrite He, Hun. cbn.
  split; [|auto]. unfold sound, slots_ok. cbn.
  split; [split; [discriminate|unfold MAX_CONCURRENCY; lia]|].
  split; [reflexivity|]. split; [|split; [discriminate|contradiction]].
  intros [|[|i]] w Hw; cbn in Hw; [| |discriminate Hw];
    injection Hw as <-; (split; [reflexivity|]); cbn;
    (split; [discriminate|intros Hx; destruct (is_Some_None Hx)]).
Qed.

Lemma addJob_sound (job : WorkerJob) (p : Pool) : sound p → sound (addJob job p).
Proof.
  intros Hs. unfold addJob.
  assert (Hq : ∃ q, (if initialized p then p else init p) = q
                    ∧ sound q ∧ initialized q = true).
  { destruct (initialized p) eqn:Hi; [eauto|].
    destruct (init_sound p Hs Hi) as (H1 & H2 & _). eauto. }
  destruct Hq as (q & -> & (Hok & Hlen & Hslots & Hun & Hcons) & Hi).
  apply processNext_sound; unfold slots_ok; cbn; auto.
  - rewrite Hi. discriminate.
  - intros Ht. destruct (queue q) as [|j rest]; [contradiction|].
    intros a b wa wb Ha Hb Hia Hib.
    assert (Hall := Hcons ltac:(discriminate)).
    pose proof (Forall_lookup_1 _ _ _ _ Hall Ha) as H. cbn in H. congruence.
Qed.

Lemma filter_nonempty {A : Type} (P : A → Prop) `{∀ x, Decision (P x)} (l : list A) :
  filter P l ≠ [] → l ≠ [].
Proof. intros H1 ->. apply H1. reflexivity. Qed.

Lemma cancelJob_sound (id_ : JobId) (p : Pool) : sound p → sound (cancelJob id_ p).
Proof.
  intros (Hok & Hlen & Hslots & Hun & Hcons).
  assert (Hkeep : sound (with_queue p (filter (λ job, job_id job ≠ id_) (queue p)))).
  { unfold sound, slots_ok. cbn. split; [exact Hok|]. split; [exact Hlen|].
    split; [exact Hslots|]. split.
    - intros H. rewrite (Hun H). reflexivity.
    - intros H. apply Hcons. eapply filter_nonempty, H. }
  unfold cancelJob. cbn.
  destruct (activeJobs p !! id_) eqn:Ha; cbn; [|exact Hkeep].
  destruct (list_find _ _) as [[slot found]|] eqn:Hf; cbn; [|exact Hkeep].
  apply list_find_Some in Hf as (Hlk & _ & _).
  apply processNext_sound; unfold slots_ok; cbn.
  - destruct Hok as [He Hle]. split; [|rewrite length_insert; exact Hle].
    intros H. rewrite (He H) in Hlk. discriminate Hlk.
  - rewrite length_insert. exact Hlen.
  - apply slot_ok_insert; [exact Hslots|].
    destruct (Hslots slot found Hlk) as [Hid _]. split; [exact Hid|]. cbn.
    split; [discriminate|intros Hx; destruct (is_Some_None Hx)].
  - intros H. rewrite (Hun H). reflexivity.
  - intros Ht. apply one_idle_insert, Hcons.
    apply (filter_nonempty (λ job, job_id job ≠ id_)).
    intros E. rewrite E in Ht. contradiction.
Qed.

Lemma handleMessage_sound (workerId : nat) (data : WorkerResponse) (p : Pool) :
  sound p → sound (handleMessage workerId data p).
Proof.
  intros Hs. unfold handleMessage.
  destruct (list_find _ _) as [[slot w]|]; [|exact Hs].
  destruct (falsy _); [exact Hs|].
  destruct (activeJobs p !! _); [|exact Hs].
  destruct data; try exact Hs; apply releaseWorker_sound; exact Hs.
Qed.

Lemma readResolved_sound (k : nat) (p : Pool) : sound p → sound (readResolved k p).
Proof.
  intros Hs. unfold readResolved.
  destruct (reading p !! k) as [[slot job]|]; [|exact Hs]. cbn.
  destruct (workers p !! slot); exact Hs.
Qed.

Lemma readRejected_sound (k : nat) (p : Pool) : sound p → sound (readRejected k p).
Proof.
  intros Hs. unfold readRejected.
  destruct (reading p !! k) as [[slot job]|]; [|exact Hs].
  apply releaseWorker_sound. exact Hs.
Qed.

Lemma step_sound (p : Pool) (e : Event) : sound p → sound (step p e).
Proof.
  intros Hs. destruct e; cbn [step].
  - apply addJob_sound, Hs.
  - apply cancelJob_sound, Hs.
  - apply handleMessage_sound, Hs.
  - apply readResolved_sound, Hs.
  - apply readRejected_sound, Hs.
Qed.

Lemma run_sound (es : list Event) : sound (run es new).
Proof.
  induction es as [|e es IH] using rev_ind.
  - unfold sound, slots_ok. cbn.
    split; [split; [reflexivity|lia]|]. split; [discriminate|].
    split; [intros i w H; rewrite lookup_nil in H; discriminate H|].
    split; [reflexivity|contradiction].
  - rewrite WorkerPoolFacts.run_snoc. apply step_sound, IH.
Qed.

(** X19. Work conservation: in every pool reached from a fresh one,
    whenever a job waits in the queue there are [MAX_CONCURRENCY] slots and
    each of them is busy with a job; no job waits beside an idle slot. *)
Theorem no_job_waits_beside_an_idle_slot (es : list Event) :
  queue (run es new) ≠ [] →
  length (workers (run es new)) = MAX_CONCURRENCY
  ∧ Forall (λ w, busy w = true ∧ is_Some (currentJobId w)) (workers (run es new)).
Proof.
  intros Hq. destruct (run_sound es) as (Hok & Hlen & Hslots & Hun & Hcons).
  split.
  - apply Hlen. destruct (initialized (run es new)); [reflexivity|].
    destruct Hq. apply Hun. reflexivity.
  - apply Forall_lookup. intros i w Hw.
    pose proof (Forall_lookup_1 _ _ _ _ (Hcons Hq) Hw) as Hb. cbn in Hb.
    split; [exact Hb|]. apply (Hslots i w Hw), Hb.
Qed.

Lemma no_job_waits_beside_an_idle_slot_example :
  length (workers (run [AddJob (mkJob "A" 1); AddJob (mkJob "B" 2);
                        AddJob (mkJob "C" 3); Message 1 (error "out of memory" false);
                        AddJob (mkJob "D" 4)] new)) = MAX_CONCURRENCY
  ∧ Forall (λ w, busy w = true ∧ is_Some (currentJobId w))
      (workers (run [AddJob (mkJob "A" 1); AddJob (mkJob "B" 2);
                     AddJob (mkJob "C" 3); Message 1 (error "out of memory" false);
                     AddJob (mkJob "D" 4)] new)).
Proof.
  apply (no_job_waits_beside_an_idle_slot
    [AddJob (mkJob "A" 1); AddJob (mkJob "B" 2); AddJob (mkJob "C" 3);
     Message 1 (error "out of memory" false); AddJob (mkJob "D" 4)]).
  vm_compute. discriminate.
Defined.

(** X20. The state machine of a slot: in every pool reached from a fresh
    one, the slot at index [i] has id [i], is busy exactly when it holds a
    job id, and is one of exactly [MAX_CONCURRENCY] slots. *)
Theorem slot_is_idle_or_busy_with_a_job (es : list Event) (i : nat) (w : WorkerWrapper) :
  workers (run es new) !! i = Some w →
  id w = i
  ∧ (busy w = true ↔ is_Some (currentJobId w))
  ∧ (busy w = false ↔ currentJobId w = None)
  ∧ length (workers (run es new)) = MAX_CONCURRENCY.
Proof.
  intros Hw. destruct (run_sound es) as ([He _] & Hlen & Hslots & _ & _).
  destruct (Hslots i w Hw) as [Hid Hb].
  split; [exact Hid|]. split; [exact Hb|]. split.
  - destruct (busy w), (currentJobId w) as [j|]; split; intros H;
      try reflexivity; try discriminate H; exfalso;
      first [ exact (is_Some_None (proj1 Hb eq_refl))
            | discriminate (proj2 Hb (mk_is_Some _ _ eq_refl)) ].
  - apply Hlen. destruct (initialized (run es new)); [reflexivity|].
    rewrite (He eq_refl) in Hw. discriminate Hw.
Qed.

Lemma slot_is_idle_or_busy_with_a_job_example :
  let es := [AddJob (mkJob "A" 1); AddJob (mkJob "B" 2); CancelJob "A"] in
  workers (run es new) !! 0%nat = Some (mkWorker 0 2 false None)
  ∧ id (mkWorker 0 2 false None) = 0%nat
  ∧ (busy (mkWorker 0 2 false None) = false ↔ currentJobId (mkWorker 0 2 false None) = None)
  ∧ length (workers (run es new)) = MAX_CONCURRENCY.
Proof.
  cbv zeta.
  destruct (slot_is_idle_or_busy_with_a_job
    [AddJob (mkJob "A" 1); AddJob (mkJob "B" 2); CancelJob "A"] 0
    (mkWorker 0 2 false None) eq_refl) as (H1 & _ & H3 & H4).
  split; [reflexivity|]. split; [exact H1|]. split; [exact H3|exact H4].
Defined.

(** *** Messages of the workers *)

Lemma find_slot_by_id (ws : list WorkerWrapper) (i : nat) (w : WorkerWrapper) :
  (∀ j w, ws !! j = Some w → slot_ok j w) → ws !! i = Some w →
  list_find (λ w, id w = i) ws = Some (i, w).
Proof.
  intros Hslots Hw. apply list_find_Some. split; [exact Hw|].
  split; [apply (Hslots i w Hw)|].
  intros j y Hj Hlt Hid. destruct (Hslots j y Hj) as [E _]. lia.
Qed.

Lemma first_idle_after_release (ws : list WorkerWrapper) (i : nat) (w : WorkerWrapper) :
  ws !! i = Some w → Forall (λ w, busy w = true) ws →
  list_find (λ w, busy w = false)
    (alter (λ w, mkWorker (id w) (worker w) false None) i ws)
  = Some (i, mkWorker (id w) (worker w) false None).
Proof.
  intros Hw Hb. apply list_find_Some. split; [|split; [reflexivity|]].
  - rewrite list_lookup_alter_eq, Hw. reflexivity.
  - intros j y Hj Hlt. rewrite list_lookup_alter_ne in Hj by lia.
    pose proof (Forall_lookup_1 _ _ _ _ Hb Hj) as H. cbn in H. congruence.
Qed.

(** X21. When a worker reports [complete] for the job of its slot while
    jobs are waiting, the pool calls that job's [onComplete], drops it from
    the active jobs, and hands the very same slot to the head of the queue:
    [onStart] of the next job follows at once and the slot is busy with
    it. *)
Theorem completion_hands_slot_to_next_job
    (es : list Event) (i : nat) (w : WorkerWrapper) (jid : JobId)
    (job next : WorkerJob) (rest : list WorkerJob) (blob : nat) :
  workers (run es new) !! i = Some w →
  currentJobId w = Some jid → jid ≠ "" →
  activeJobs (run es new) !! jid = Some job →
  queue (run es new) = next :: rest →
  trace (handleMessage i (complete blob) (run es new))
  = trace (run es new) ++ [OnComplete job blob; OnStart next]
  ∧ queue (handleMessage i (complete blob) (run es new)) = rest
  ∧ workers (handleMessage i (complete blob) (run es new)) !! i
    = Some (mkWorker i (worker w) true (Some (job_id next)))
  ∧ activeJobs (handleMessage i (complete blob) (run es new))
    = <[job_id next := next]> (delete jid (activeJobs (run es new)))
  ∧ reading (handleMessage i (complete blob) (run es new))
    = reading (run es new) ++ [(i, next)].
Proof.
  intros Hw Hc Hne Ha Hq.
  destruct (run_sound es) as (_ & _ & Hslots & _ & Hcons).
  assert (Hb : Forall (λ w, busy w = true) (workers (run es new))).
  { apply Hcons. rewrite Hq. discriminate. }
  destruct (Hslots i w Hw) as [Hid _].
  unfold handleMessage. rewrite (find_slot_by_id _ i w Hslots Hw), Hc.
  cbn [falsy]. rewrite bool_decide_false by exact Hne.
  change (default "" (Some jid)) with jid. cbv iota. rewrite Ha.
  unfold releaseWorker, processNext.
  cbn [workers queue with_workers with_activeJobs emit activeJobs initialized
       reading created trace].
  rewrite (first_idle_after_release _ i w Hw Hb), Hq.
  cbn [workers queue activeJobs reading trace id worker].
  rewrite Hid, <- app_assoc.
  split; [reflexivity|]. split; [reflexivity|]. split; [|split; reflexivity].
  apply list_lookup_insert_eq. rewrite length_alter. eapply lookup_lt_Some, Hw.
Qed.

Lemma completion_hands_slot_to_next_job_example :
  let es := [AddJob (mkJob "A" 1); AddJob (mkJob "B" 2); AddJob (mkJob "C" 3)] in
  trace (handleMessage 1 (complete 7) (run es new))
  = trace (run es new) ++ [OnComplete (mkJob "B" 2) 7; OnStart (mkJob "C" 3)]
  ∧ queue (handleMessage 1 (complete 7) (run es new)) = []
  ∧ workers (handleMessage 1 (complete 7) (run es new)) !! 1%nat
    = Some (mkWorker 1 1 true (Some "C")).
Proof.
  cbv zeta.
  destruct (completion_hands_slot_to_next_job
    [AddJob (mkJob "A" 1); AddJob (mkJob "B" 2); AddJob (mkJob "C" 3)]
    1 (mkWorker 1 1 true (Some "B")) "B" (mkJob "B" 2) (mkJob "C" 3) [] 7
    eq_refl eq_refl ltac:(discriminate) eq_refl eq_refl) as (H1 & H2 & H3 & _).
  split; [exact H1|]. split; [exact H2|exact H3].
Defined.

(** X22. A message for a slot that does not exist, or that is idle at
    the time the message is handled, is dropped: no callback runs and
    nothing in the pool changes. *)
Theorem message_for_idle_slot_is_dropped
    (es : list Event) (workerId : nat) (data : WorkerResponse) :
  (∀ w, workers (run es new) !! workerId = Some w → busy w = false) →
  handleMessage workerId data (run es new) = run es new.
Proof.
  intros Hidle. destruct (run_sound es) as (_ & _ & Hslots & _ & _).
  unfold handleMessage.
  destruct (list_find _ _) as [[slot w]|] eqn:Hf; [|reflexivity].
  apply list_find_Some in Hf as (Hlk & Hid & _).
  destruct (Hslots slot w Hlk) as [Hid' Hb]. cbn in Hid.
  assert (slot = workerId) as -> by congruence.
  specialize (Hidle w Hlk).
  destruct (currentJobId w) as [j|]; [|reflexivity].
  assert (Ht : busy w = true) by (apply Hb; eauto). congruence.
Qed.

Lemma message_for_idle_slot_is_dropped_example :
  handleMessage 0 (complete 5) (run [AddJob (mkJob "A" 1); CancelJob "A"] new)
  = run [AddJob (mkJob "A" 1); CancelJob "A"] new.
Proof.
  apply (message_for_idle_slot_is_dropped [AddJob (mkJob "A" 1); CancelJob "A"]).
  intros w Hw. vm_compute in Hw. injection Hw as <-. reflexivity.
Defined.

(** *** Order of service *)

Lemma started_app (t a : list Action) : started (t ++ a) = started t ++ started a.
Proof. apply omap_app. Qed.

Lemma processNext_order (p : Pool) :
  started (trace (processNext p)) ++ queue (processNext p)
  = started (trace p) ++ queue p.
Proof.
  unfold processNext. destruct (list_find _ _) as [[slot w]|]; [|reflexivity].
  destruct (queue p) as [|job rest] eqn:Hq; [rewrite Hq; reflexivity|].
  cbn [trace queue]. rewrite started_app, <- app_assoc. reflexivity.
Qed.

Lemma releaseWorker_order (slot : nat) (p : Pool) :
  started (trace (releaseWorker slot p)) ++ queue (releaseWorker slot p)
  = started (trace p) ++ queue p.
Proof. unfold releaseWorker. rewrite processNext_order. reflexivity. Qed.

Lemma addJob_order (job : WorkerJob) (p : Pool) :
  started (trace (addJob job p)) ++ queue (addJob job p)
  = (started (trace p) ++ queue p) ++ [job].
Proof.
  unfold addJob. rewrite processNext_order. cbn [trace queue with_queue].
  rewrite app_assoc. f_equal.
  destruct (initialized p) eqn:Hi; [reflexivity|].
  unfold init. rewrite Hi. cbn. rewrite !started_app. cbn. rewrite !app_nil_r.
  reflexivity.
Qed.

Lemma step_order (p : Pool) (e : Event) :
  isCancel e = false →
  started (trace (step p e)) ++ queue (step p e)
  = (started (trace p) ++ queue p) ++ submitted [e].
Proof.
  intros He. destruct e as [job|id_|workerId data|k|k]; [|discriminate He|..];
    cbn [step submitted omap list_omap]; rewrite ?app_nil_r.
  - apply addJob_order.
  - unfold handleMessage. repeat case_match; try reflexivity;
      rewrite ?releaseWorker_order; cbn [trace queue emit with_activeJobs];
      rewrite started_app; cbn; rewrite app_nil_r; reflexivity.
  - unfold readResolved. repeat case_match; try reflexivity;
      cbn [trace queue emit with_reading];
      rewrite started_app; cbn; rewrite app_nil_r; reflexivity.
  - unfold readRejected. repeat case_match; try reflexivity.
    rewrite releaseWorker_order. cbn [trace queue emit with_reading].
    rewrite started_app. cbn. rewrite app_nil_r. reflexivity.
Qed.

(** X23. First come, first served, and no job is lost: as long as nothing
    is cancelled, the jobs whose [onStart] was called, in the order of the
    calls, followed by the jobs still queued, are exactly the jobs handed
    to [addJob], in the order they were handed over. *)
Theorem jobs_start_in_submission_order (es : list Event) :
  Forall (λ e, isCancel e = false) es →
  started (trace (run es new)) ++ queue (run es new) = submitted es.
Proof.
  induction es as [|e es IH] using rev_ind; intros Hes; [reflexivity|].
  apply Forall_app in Hes as [Hes He]. rewrite Forall_singleton in He.
  rewrite WorkerPoolFacts.run_snoc, (step_order _ e He), (IH Hes).
  unfold submitted. rewrite omap_app. reflexivity.
Qed.

Lemma jobs_start_in_submission_order_example :
  started (trace (run [AddJob (mkJob "A" 1); AddJob (mkJob "B" 2);
                       AddJob (mkJob "C" 3); AddJob (mkJob "D" 4);
                       ReadResolved 0; Message 0 (complete 9)] new))
  ++ queue (run [AddJob (mkJob "A" 1); AddJob (mkJob "B" 2);
                 AddJob (mkJob "C" 3); AddJob (mkJob "D" 4);
                 ReadResolved 0; Message 0 (complete 9)] new)
  = [mkJob "A" 1; mkJob "B" 2; mkJob "C" 3; mkJob "D" 4].
Proof.
  apply (jobs_start_in_submission_order
    [AddJob (mkJob "A" 1); AddJob (mkJob "B" 2); AddJob (mkJob "C" 3);
     AddJob (mkJob "D" 4); ReadResolved 0; Message 0 (complete 9)]).
  repeat constructor.
Defined.

(** *** Terminated workers *)

Lemma terminated_app (t a : list Action) :
  terminated (t ++ a) = terminated t ++ terminated a.
Proof. apply omap_app. Qed.

Lemma posts_to_dead_app (t a : list Action) : ∀ dead,
  posts_to_dead dead (t ++ a)
  = posts_to_dead dead t || posts_to_dead (reverse (terminated t) ++ dead) a.
Proof.
  induction t as [|x t IH]; intros dead; [reflexivity|].
  destruct x; cbn [posts_to_dead terminated omap list_omap app]; rewrite IH;
    try reflexivity.
  - unfold terminated. rewrite reverse_cons, <- app_assoc. reflexivity.
  - rewrite orb_assoc. reflexivity.
Qed.

Lemma posts_to_dead_callbacks (a : list Action) (dead : list nat) :
  Forall isCallback a → posts_to_dead dead a = false.
Proof.
  induction 1 as [|x a Hx _ IH]; [reflexivity|].
  destruct x; cbn in Hx; try contradiction; exact IH.
Qed.

Lemma terminated_callbacks (a : list Action) : Forall isCallback a → terminated a = [].
Proof.
  induction 1 as [|x a Hx _ IH]; [reflexivity|].
  destruct x; cbn in Hx; try contradiction; exact IH.
Qed.

(** A scan that finds nothing: no message goes to a handle of [dead], nor
    to a worker after its [Terminate]. *)
Lemma posts_to_dead_none (t : list Action) : ∀ dead,
  posts_to_dead dead t = false →
  ∀ h m, h ∈ dead → PostMessage h m ∉ t.
Proof.
  induction t as [|x t IH]; intros dead Hp h m Hd Hin; [inversion Hin|].
  apply elem_of_cons in Hin as [Hx|Hin].
  - subst x. cbn in Hp. apply orb_false_elim in Hp as [Hp _].
    apply bool_decide_eq_false in Hp. contradiction.
  - destruct x; cbn in Hp;
      try (exact (IH dead Hp h m Hd Hin)).
    + apply (IH (handle :: dead) Hp h m); [right; exact Hd|exact Hin].
    + apply orb_false_elim in Hp as [_ Hp]. exact (IH dead Hp h m Hd Hin).
Qed.

Lemma posts_to_dead_after (t1 : list Action) : ∀ dead t2 h m,
  posts_to_dead dead (t1 ++ Terminate h :: t2) = false → PostMessage h m ∉ t2.
Proof.
  induction t1 as [|x t1 IH]; intros dead t2 h m Hp.
  - cbn in Hp. apply (posts_to_dead_none t2 (h :: dead) Hp). left.
  - destruct x; cbn in Hp; try (exact (IH _ _ _ _ Hp)).
    apply orb_false_elim in Hp as [_ Hp]. exact (IH _ _ _ _ Hp).
Qed.

(** What changes neither the workers of the slots nor the count of those
    created, and adds callbacks only, keeps a pool [safe]. *)
Lemma safe_callbacks (p q : Pool) (a : list Action) :
  handles q = handles p → created q = created p → trace q = trace p ++ a →
  Forall isCallback a → safe p → safe q.
Proof.
  intros Hh Hc Ht Ha [(Hnd & Hlt & Hterm) Hp]. unfold safe, live.
  rewrite Hh, Hc, Ht, terminated_app, (terminated_callbacks a Ha), app_nil_r.
  split; [auto|].
  rewrite posts_to_dead_app, Hp, (posts_to_dead_callbacks a _ Ha). reflexivity.
Qed.

Lemma handles_insert_same (ws : list WorkerWrapper) (i : nat) (w w' : WorkerWrapper) :
  ws !! i = Some w → worker w' = worker w →
  worker <$> <[i := w']> ws = worker <$> ws.
Proof.
  intros Hw E. rewrite list_fmap_insert. apply list_insert_id.
  rewrite list_lookup_fmap, Hw. cbn. congruence.
Qed.

Lemma handles_release (ws : list WorkerWrapper) : ∀ i : nat,
  worker <$> alter (λ w, mkWorker (id w) (worker w) false None) i ws = worker <$> ws.
Proof.
  induction ws as [|w ws IH]; intros [|i]; cbn; try reflexivity.
  f_equal. apply IH.
Qed.

Lemma processNext_safe (p : Pool) : safe p → safe (processNext p).
Proof.
  intros Hs. unfold processNext.
  destruct (list_find _ _) as [[slot w]|] eqn:Hf; [|exact Hs].
  destruct (queue p) as [|job rest]; [exact Hs|].
  apply list_find_Some in Hf as (Hlk & _ & _).
  apply (safe_callbacks p _ [OnStart job]); try reflexivity; [|repeat constructor|exact Hs].
  unfold handles. cbn. apply (handles_insert_same _ _ w); [exact Hlk|reflexivity].
Qed.

Lemma releaseWorker_safe (slot : nat) (p : Pool) : safe p → safe (releaseWorker slot p).
Proof.
  intros Hs. unfold releaseWorker. apply processNext_safe.
  apply (safe_callbacks p _ []); try reflexivity; [| |constructor|exact Hs].
  - unfold handles. cbn. apply handles_release.
  - cbn. rewrite app_nil_r. reflexivity.
Qed.

Lemma emit_safe (p : Pool) (a : list Action) : Forall isCallback a → safe p → safe (emit p a).
Proof. intros Ha. apply (safe_callbacks p _ a); auto. Qed.

Lemma handleMessage_safe (workerId : nat) (data : WorkerResponse) (p : Pool) :
  safe p → safe (handleMessage workerId data p).
Proof.
  intros Hs. unfold handleMessage.
  destruct (list_find _ _) as [[slot w]|]; [|exact Hs].
  destruct (falsy _); [exact Hs|].
  destruct (activeJobs p !! _) as [job|]; [|exact Hs].
  destruct data as [|percent stage|resultBlob|message retryable]; [exact Hs|..].
  - apply emit_safe; [repeat constructor|exact Hs].
  - apply releaseWorker_safe.
    apply (emit_safe p [OnComplete job resultBlob]); [repeat constructor|exact Hs].
  - apply releaseWorker_safe.
    apply (emit_safe p [OnError job message]); [repeat constructor|exact Hs].
Qed.

Lemma readRejected_safe (k : nat) (p : Pool) : safe p → safe (readRejected k p).
Proof.
  intros Hs. unfold readRejected.
  destruct (reading p !! k) as [[slot job]|]; [|exact Hs].
  apply releaseWorker_safe.
  apply (emit_safe p [OnError job "Failed to read file"]); [repeat constructor|exact Hs].
Qed.

(** A message to the worker of a slot goes to a worker that was never
    terminated. *)
Lemma post_to_slot_safe (p : Pool) (slot : nat) (w : WorkerWrapper) (m : WorkerMessage) :
  workers p !! slot = Some w → safe p → safe (emit p [PostMessage (worker w) m]).
Proof.
  intros Hw [(Hnd & Hlt & Hterm) Hp]. unfold safe, live.
  cbn [trace emit]. rewrite terminated_app. cbn [terminated omap list_omap].
  rewrite app_nil_r. split; [auto|].
  rewrite posts_to_dead_app, Hp, app_nil_r. cbn. rewrite orb_false_r.
  apply bool_decide_eq_false. intros Hin. rewrite elem_of_reverse in Hin.
  destruct (proj1 (Forall_forall _ _) Hterm _ Hin) as [_ Hout]. apply Hout.
  unfold handles. apply (list_elem_of_lookup_2 _ slot).
  rewrite list_lookup_fmap, Hw. reflexivity.
Qed.

Lemma readResolved_safe (k : nat) (p : Pool) : safe p → safe (readResolved k p).
Proof.
  intros Hs. unfold readResolved.
  destruct (reading p !! k) as [[slot job]|]; [|exact Hs]. cbn.
  destruct (workers p !! slot) as [w|] eqn:Hw; [|exact Hs].
  apply (post_to_slot_safe p slot w _ Hw Hs).
Qed.

Lemma initWorker_safe (p : Pool) (i : nat) : safe p → safe (initWorker p i).
Proof.
  intros [(Hnd & Hlt & Hterm) Hp]. unfold safe, live, handles in *.
  cbn [workers created trace initWorker].
  rewrite fmap_app, terminated_app. cbn [fmap list_fmap worker terminated omap list_omap].
  rewrite app_nil_r.
  assert (Hfresh : created p ∉ worker <$> workers p).
  { intros Hin. pose proof (proj1 (Forall_forall _ _) Hlt _ Hin) as H. cbn in H. lia. }
  split; [split; [|split]|].
  - apply NoDup_app. split; [exact Hnd|]. split; [|apply NoDup_singleton].
    intros h Hh Hc. apply list_elem_of_singleton in Hc. subst h. contradiction.
  - apply Forall_app. split; [|repeat constructor].
    eapply Forall_impl; [exact Hlt|]. intros h Hh. cbn in *. lia.
  - eapply Forall_impl; [exact Hterm|]. intros h [Hh Hout]. split; [lia|].
    intros Hin. apply elem_of_app in Hin as [Hin|Hin]; [contradiction|].
    apply list_elem_of_singleton in Hin. lia.
  - rewrite posts_to_dead_app, Hp, app_nil_r. cbn. rewrite orb_false_r.
    apply bool_decide_eq_false. intros Hin. rewrite elem_of_reverse in Hin.
    destruct (proj1 (Forall_forall _ _) Hterm _ Hin) as [Hh _]. lia.
Qed.

Lemma addJob_safe (job : WorkerJob) (p : Pool) : safe p → safe (addJob job p).
Proof.
  intros Hs. unfold addJob. apply processNext_safe.
  destruct (initialized p) eqn:Hi; [exact Hs|].
  unfold init. rewrite Hi.
  exact (initWorker_safe _ 1 (initWorker_safe p 0 Hs)).
Qed.

Lemma cancelJob_safe (id_ : JobId) (p : Pool) : safe p → safe (cancelJob id_ p).
Proof.
  intros Hs. unfold cancelJob. cbn.
  destruct (activeJobs p !! id_) as [cancelled|]; cbn; [|exact Hs].
  destruct (list_find _ _) as [[slot w]|] eqn:Hf; cbn; [|exact Hs].
  apply list_find_Some in Hf as (Hlk & _ & _).
  apply processNext_safe.
  destruct Hs as [(Hnd & Hlt & Hterm) Hp]. unfold safe, live, handles in *.
  cbn [workers created trace].
  rewrite list_fmap_insert, terminated_app. cbn [worker terminated omap list_omap].
  assert (Hh : (worker <$> workers p) !! slot = Some (worker w)).
  { rewrite list_lookup_fmap, Hlk. reflexivity. }
  assert (Hw : (worker w < created p)%nat).
  { exact (Forall_lookup_1 _ _ _ _ Hlt Hh). }
  assert (Hin : ∀ h, h ∈ <[slot := created p]> (worker <$> workers p) →
                     h = created p
                     ∨ ∃ j, j ≠ slot ∧ (worker <$> workers p) !! j = Some h).
  { intros h Hh'. apply list_elem_of_lookup in Hh' as [j Hj].
    apply list_lookup_insert_Some in Hj as [(_ & <- & _)|[Hne Hj]]; eauto. }
  split; [split; [|split]|].
  - apply NoDup_alt. intros a b h Ha Hb.
    apply list_lookup_insert_Some in Ha as [(<- & <- & _)|[Hna Ha]];
      apply list_lookup_insert_Some in Hb as [(<- & Hb & _)|[Hnb Hb]]; auto.
    + pose proof (Forall_lookup_1 _ _ _ _ Hlt Hb) as H. cbn in H. lia.
    + subst h. pose proof (Forall_lookup_1 _ _ _ _ Hlt Ha) as H. cbn in H. lia.
    + exact (proj1 (NoDup_alt _) Hnd a b h Ha Hb).
  - apply Forall_insert; [|lia].
    eapply Forall_impl; [exact Hlt|]. intros h Hh'. cbn in *. lia.
  - apply Forall_app. split.
    + eapply Forall_impl; [exact Hterm|]. intros h [Hc Hout]. split; [lia|].
      intros Hh'. apply Hin in Hh' as [->|(j & _ & Hj)]; [lia|].
      apply Hout. eapply list_elem_of_lookup_2, Hj.
    + repeat constructor; [lia|].
      intros Hh'. apply Hin in Hh' as [E|(j & Hne & Hj)]; [lia|].
      apply Hne. exact (proj1 (NoDup_alt _) Hnd j slot _ Hj Hh).
  - rewrite posts_to_dead_app, Hp, app_nil_r. cbn. rewrite orb_false_r.
    apply bool_decide_eq_false. intros Hc.
    apply elem_of_cons in Hc as [Hc|Hc]; [lia|].
    rewrite elem_of_reverse in Hc.
    destruct (proj1 (Forall_forall _ _) Hterm _ Hc) as [Hlt' _]. lia.
Qed.

Lemma step_safe (p : Pool) (e : Event) : safe p → safe (step p e).
Proof.
  intros Hs. destruct e; cbn [step].
  - apply addJob_safe, Hs.
  - apply cancelJob_safe, Hs.
  - apply handleMessage_safe, Hs.
  - apply readResolved_safe, Hs.
  - apply readRejected_safe, Hs.
Qed.

Lemma run_safe (es : list Event) : safe (run es new).
Proof.
  induction es as [|e es IH] using rev_ind.
  - split; [|reflexivity]. split; [constructor|]. split; constructor.
  - rewrite WorkerPoolFacts.run_snoc. apply step_safe, IH.
Qed.

(** X24. The pool never posts to a worker it has terminated: in the
    actions of every run from a fresh pool, no [postMessage] to a worker
    follows that worker's [terminate]. The slots hold distinct workers,
    none of them terminated. *)
Theorem no_message_to_terminated_worker
    (es : list Event) (t1 t2 : list Action) (h : nat) (m : WorkerMessage) :
  trace (run es new) = t1 ++ Terminate h :: t2 →
  (PostMessage h m ∉ t2)
  ∧ (h ∉ handles (run es new))
  ∧ NoDup (handles (run es new)).
Proof.
  intros Ht. destruct (run_safe es) as [(Hnd & _ & Hterm) Hp].
  split; [|split; [|exact Hnd]].
  - rewrite Ht in Hp. exact (posts_to_dead_after t1 [] t2 h m Hp).
  - apply (proj1 (Forall_forall _ _) Hterm h).
    rewrite Ht, terminated_app. apply elem_of_app. right. left.
Qed.

Lemma no_message_to_terminated_worker_example :
  let es := [AddJob (mkJob "A" 1); AddJob (mkJob "B" 2); AddJob (mkJob "C" 3);
             CancelJob "A"; ReadResolved 0; ReadResolved 0] in
  trace (run es new)
  = [NewWorker 0; PostMessage 0 init_msg; NewWorker 1; PostMessage 1 init_msg;
     OnStart (mkJob "A" 1); OnStart (mkJob "B" 2)]
    ++ Terminate 0
       :: [NewWorker 2; PostMessage 2 init_msg; OnStart (mkJob "C" 3);
           PostMessage 2 (process_msg 1); PostMessage 1 (process_msg 2)]
  ∧ (PostMessage 0 (process_msg 1)
     ∉ [NewWorker 2; PostMessage 2 init_msg; OnStart (mkJob "C" 3);
        PostMessage 2 (process_msg 1); PostMessage 1 (process_msg 2)])
  ∧ handles (run es new) = [2; 1]%nat.
Proof.
  cbv zeta. split; [reflexivity|]. split; [|reflexivity].
  exact (proj1 (no_message_to_terminated_worker
    [AddJob (mkJob "A" 1); AddJob (mkJob "B" 2); AddJob (mkJob "C" 3);
     CancelJob "A"; ReadResolved 0; ReadResolved 0]
    [NewWorker 0; PostMessage 0 init_msg; NewWorker 1; PostMessage 1 init_msg;
     OnStart (mkJob "A" 1); OnStart (mkJob "B" 2)]
    [NewWorker 2; PostMessage 2 init_msg; OnStart (mkJob "C" 3);
     PostMessage 2 (process_msg 1); PostMessage 1 (process_msg 2)]
    0%nat (process_msg 1) eq_refl)).
Defined.

(** *** Cancelling twice *)

Lemma filter_all {A : Type} (P : A → Prop) `{∀ x, Decision (P x)} (l : list A) :
  Forall P l → filter P l = l.
Proof.
  induction 1 as [|x l Hx _ IH]; [reflexivity|].
  rewrite filter_cons_True by exact Hx. rewrite IH. reflexivity.
Qed.

(** X25. [cancelJob] finishes its work in one call: afterwards no queued
    and no active job carries the id, and cancelling the same id again
    changes nothing: no second worker is torn down and no callback or
    message is added. *)
Theorem cancelJob_twice (id_ : JobId) (p : Pool) :
  cancelJob id_ (cancelJob id_ p) = cancelJob id_ p
  ∧ activeJobs (cancelJob id_ p) !! id_ = None
  ∧ Forall (λ job, job_id job ≠ id_) (queue (cancelJob id_ p)).
Proof.
  destruct (WorkerPoolFacts.cancelJob_removes id_ p) as [Ha Hq].
  split; [|split; assumption].
  generalize dependent (cancelJob id_ p). intros q Ha Hq.
  unfold cancelJob. cbn. rewrite Ha, (filter_all _ _ Hq).
  destruct q; reflexivity.
Qed.

End WorkerPoolMore.


Module SecurityFacts.
Import Security.

(** X26. The throttle window opened by [recordProcessing] at time [t]: a
    request at time [now] is throttled exactly when [now < t + 3000]; the
    wait it is told is positive, is at most the interval unless the clock
    went back, and is exact: after that wait the request passes, and after
    any shorter wait it is still throttled. *)
Theorem throttle_wait_is_exact (t now : Z) (hash : string) (st : ThrottleState) :
  (throttled (shouldThrottle now (recordProcessing t hash st)) = true
   ↔ now < t + THROTTLE_INTERVAL_MS)
  ∧ (throttled (shouldThrottle now (recordProcessing t hash st)) = false
     ↔ waitMs (shouldThrottle now (recordProcessing t hash st)) = None)
  ∧ ∀ w, waitMs (shouldThrottle now (recordProcessing t hash st)) = Some w →
         0 < w
         ∧ (t ≤ now → w ≤ THROTTLE_INTERVAL_MS)
         ∧ throttled (shouldThrottle (now + w) (recordProcessing t hash st)) = false
         ∧ ∀ w', 0 ≤ w' < w →
                 throttled (shouldThrottle (now + w') (recordProcessing t hash st)) = true.
Proof.
  unfold shouldThrottle, recordProcessing, THROTTLE_INTERVAL_MS. cbn.
  split; [|split].
  - destruct (Z.ltb_spec (now - t) 3000); cbn; split; intros H';
      try lia; try reflexivity; try discriminate H'.
  - destruct (Z.ltb_spec (now - t) 3000); cbn; split; intros H';
      try reflexivity; try discriminate H'.
  - intros w. destruct (Z.ltb_spec (now - t) 3000) as [Hlt|Hge]; cbn; [|discriminate].
    intros [= <-]. split; [lia|]. split; [lia|]. split.
    + destruct (Z.ltb_spec (now + (3000 - (now - t)) - t) 3000); [lia|reflexivity].
    + intros w' Hw'. destruct (Z.ltb_spec (now + w' - t) 3000); [reflexivity|lia].
Qed.

(** X27. The set of processed files: a file is a duplicate after
    [recordProcessing] exactly when it is the recorded one or was a
    duplicate before. [clearProcessedCache] forgets every file and leaves
    the throttle as it was; [resetThrottleState] forgets the files and
    sets the last processing time back to 0. *)
Theorem duplicates_and_throttle_are_cleared_apart
    (t now : Z) (hash other : string) (st : ThrottleState) :
  (isDuplicateFile other (recordProcessing t hash st) = true
   ↔ other = hash ∨ isDuplicateFile other st = true)
  ∧ isDuplicateFile other (clearProcessedCache st) = false
  ∧ shouldThrottle now (clearProcessedCache st) = shouldThrottle now st
  ∧ isDuplicateFile other (resetThrottleState st) = false
  ∧ (throttled (shouldThrottle now (resetThrottleState st)) = true
     ↔ now < THROTTLE_INTERVAL_MS).
Proof.
  unfold isDuplicateFile, recordProcessing, clearProcessedCache, resetThrottleState,
    shouldThrottle, initial, THROTTLE_INTERVAL_MS. cbn.
  split; [|split; [|split; [|split]]].
  - rewrite !bool_decide_eq_true. set_solver.
  - apply bool_decide_eq_false. set_solver.
  - reflexivity.
  - apply bool_decide_eq_false. set_solver.
  - destruct (Z.ltb_spec (now - 0) 3000); cbn; split; intros H';
      try lia; try reflexivity; try discriminate H'.
Qed.

End SecurityFacts.


Module FormatConverterFacts.
Import FormatConverter.

Lemma split_nonempty (sep : N) (s : list N) : split sep s ≠ [].
Proof.
  destruct s as [|c s]; cbn; [discriminate|].
  destruct (split sep s); [discriminate|]. destruct (c =? sep)%N; discriminate.
Qed.

Lemma split_no_sep (sep : N) (s : list N) : sep ∉ s → split sep s = [s].
Proof.
  induction s as [|c s IH]; intros Hs; [reflexivity|].
  apply not_elem_of_cons in Hs as [Hc Hs]. cbn. rewrite (IH Hs).
  destruct (N.eqb_spec c sep); [congruence|reflexivity].
Qed.

Lemma split_app (sep : N) (a b : list N) :
  split sep (a ++ sep :: b) = split sep a ++ split sep b.
Proof.
  induction a as [|c a IH]; cbn.
  - rewrite N.eqb_refl. destruct (split sep b) eqn:E; [|reflexivity].
    destruct (split_nonempty sep b E).
  - rewrite IH. destruct (split sep a) as [|seg segs] eqn:E;
      [destruct (split_nonempty sep a E)|].
    cbn. destruct (c =? sep)%N; reflexivity.
Qed.

Lemma join_split (sep : N) (s : list N) : join sep (split sep s) = s.
Proof.
  induction s as [|c s IH]; [reflexivity|]. cbn.
  destruct (split sep s) as [|seg segs] eqn:E; [destruct (split_nonempty sep s E)|].
  destruct (N.eqb_spec c sep) as [->|Hne].
  - cbn [join app]. cbn [join] in IH. rewrite IH. reflexivity.
  - destruct segs; cbn in *; rewrite <- IH; reflexivity.
Qed.

(** [split], [pop], [join]: what is left is the name up to its last dot. *)
Lemma baseName_strips_last_extension (base ext : list N) :
  dot ∉ ext → baseName (base ++ dot :: ext) = base.
Proof.
  intros Hext. unfold baseName. rewrite split_app, (split_no_sep _ _ Hext).
  rewrite length_app. cbn [length].
  destruct (split dot base) as [|seg segs] eqn:E; [destruct (split_nonempty _ _ E)|].
  replace (1 <? length (seg :: segs) + 1)%nat with true
    by (symmetry; apply Nat.ltb_lt; cbn; lia).
  rewrite removelast_last, <- E. apply join_split.
Qed.

Lemma baseName_no_dot (name : list N) : dot ∉ name → baseName name = name.
Proof. intros H. unfold baseName. rewrite (split_no_sep _ _ H). reflexivity. Qed.

Lemma sanitize_safe (s : list N) : Forall (λ c, isSafe c = true) (sanitize s).
Proof.
  unfold sanitize. apply Forall_fmap, Forall_forall. intros c _. cbn.
  destruct (isSafe c) eqn:E; [exact E|reflexivity].
Qed.

Lemma sanitize_fixes_safe (s : list N) :
  Forall (λ c, isSafe c = true) s → sanitize s = s.
Proof.
  induction 1 as [|c s Hc _ IH]; [reflexivity|].
  unfold sanitize in *. cbn. rewrite Hc, IH. reflexivity.
Qed.

(** X28. [generateFilename] drops what follows the last dot of the
    original name, and only that: for a name [base.ext] whose [ext] has no
    dot, the file is named after the first 100 code units of [base], each
    one outside [a-zA-Z0-9-_] replaced by an underscore, followed by the
    suffix, a dot and the format. The extension of the original plays no
    part. *)
Theorem generateFilename_strips_last_extension
    (base ext suffix : list N) (format : Format) :
  dot ∉ ext →
  generateFilename (base ++ dot :: ext) format suffix
  = take 100 (sanitize base) ++ suffix ++ dot :: formatName format.
Proof.
  intros Hext. unfold generateFilename.
  rewrite (baseName_strips_last_extension base ext Hext). reflexivity.
Qed.

Lemma generateFilename_holiday_photo :
  generateFilename (units "my holiday.2024.jpeg") png defaultSuffix
  = units "my_holiday_2024_nobg.png".
Proof.
  refine (eq_trans (generateFilename_strips_last_extension
                      (units "my holiday.2024") (units "jpeg") defaultSuffix png _) _).
  - vm_compute. intros H. repeat (apply elem_of_cons in H as [H|H]; [discriminate H|]).
    inversion H.
  - reflexivity.
Defined.

(** X29. Whatever the original name, the part of the generated name
    before the suffix is at most 100 code units long and holds only
    letters, digits, hyphens and underscores: no dot, no slash, no
    backslash. A name without a dot is kept whole, and a name that is
    already safe and short is kept as it is. *)
Theorem generateFilename_stem_is_safe
    (originalName suffix : list N) (format : Format) :
  ∃ stem,
    generateFilename originalName format suffix = stem ++ suffix ++ dot :: formatName format
    ∧ (length stem ≤ 100)%nat
    ∧ Forall (λ c, isSafe c = true) stem
    ∧ (dot ∉ stem) ∧ (47%N ∉ stem) ∧ (92%N ∉ stem)
    ∧ (dot ∉ originalName → Forall (λ c, isSafe c = true) originalName →
       (length originalName ≤ 100)%nat → stem = originalName).
Proof.
  exists (take 100 (sanitize (baseName originalName))).
  assert (Hsafe : Forall (λ c, isSafe c = true)
                    (take 100 (sanitize (baseName originalName)))).
  { apply Forall_take, sanitize_safe. }
  assert (Hout : ∀ c, isSafe c = false →
                      c ∉ take 100 (sanitize (baseName originalName))).
  { intros c Hc Hin. pose proof (proj1 (Forall_forall _ _) Hsafe c Hin) as H.
    cbn in H. congruence. }
  split; [reflexivity|]. split; [rewrite length_take; lia|]. split; [exact Hsafe|].
  split; [apply Hout; reflexivity|]. split; [apply Hout; reflexivity|].
  split; [apply Hout; reflexivity|].
  intros Hdot Hs Hlen. rewrite (baseName_no_dot _ Hdot), (sanitize_fixes_safe _ Hs).
  apply take_ge. exact Hlen.
Qed.

End FormatConverterFacts.
